(** * Mandelbrot kernels: OpenCL and OpenGL compute shader

    A shallow embedding of the two per-pixel kernels of the repository
    (src/OpenCL/mandelbrot.cpp and src/ComputeShader/mandelbrot.cpp) and of
    the host code that feeds them, followed by the properties of the
    specification that concern them.

    Numbers are modelled as the code has them: [float] is IEEE 754 binary32,
    taken from the specification of floating-point arithmetic of the
    standard library ([SpecFloat], precision 24, exponent bound 128, rounding
    to nearest even); [int] and [uint] are 32-bit integers carried by [Z]
    with the wrap-around written out.  The device builtin [log] is not part
    of the repository: the kernels take it as a parameter. *)

From Stdlib Require Import ZArith Lia Bool List String DecimalString.
From Stdlib Require Import Sorting.Permutation.
From Stdlib Require Import Floats.SpecFloat.
Import ListNotations.

Local Open Scope string_scope.
Local Open Scope Z_scope.

(** ** 32-bit integers *)

Definition to_uint (n : Z) : Z := n mod 2 ^ 32.

Definition to_int (n : Z) : Z := (n + 2 ^ 31) mod 2 ^ 32 - 2 ^ 31.

(** ** Single-precision floats *)

Module F32.

Definition prec : Z := 24.
Definition emax : Z := 128.

Definition float : Type := spec_float.

Definition add : float -> float -> float := SFadd prec emax.
Definition sub : float -> float -> float := SFsub prec emax.
Definition mul : float -> float -> float := SFmul prec emax.
Definition div : float -> float -> float := SFdiv prec emax.
Definition ltb : float -> float -> bool := SFltb.
Definition leb : float -> float -> bool := SFleb.
Definition eqb : float -> float -> bool := SFeqb.

(** Conversion of an integer to [float] (round to nearest even). *)
Definition of_Z (n : Z) : float := binary_normalize prec emax n 0 false.

Definition zero : float := S754_zero false.
Definition one : float := Eval vm_compute in of_Z 1.
Definition two : float := Eval vm_compute in of_Z 2.
Definition four : float := Eval vm_compute in of_Z 4.

(** The integer part of a finite float with a negative exponent:
    quotient and remainder of the mantissa by [2 ^ (- e)]. *)
Definition int_part (m : positive) (e : Z) : Z := Z.shiftr (Zpos m) (- e).
Definition frac_part (m : positive) (e : Z) : Z :=
  Zpos m - Z.shiftl (int_part m e) (- e).

(** [floor]: the largest integral float not above the argument. *)
Definition floor (x : float) : float :=
  match x with
  | S754_finite s m e =>
      if 0 <=? e then x
      else
        let q := int_part m e in
        if s then of_Z (if frac_part m e =? 0 then - q else - q - 1)
        else of_Z q
  | _ => x
  end.

(** GLSL [round]: the nearest integral float; a fraction of exactly one
    half rounds in a direction chosen by the implementation, here [tie_away]
    (true: away from zero). *)
Definition round (tie_away : float -> bool) (x : float) : float :=
  match x with
  | S754_finite s m e =>
      if 0 <=? e then x
      else
        let q := int_part m e in
        let r := frac_part m e in
        let half := Z.shiftl 1 (- e - 1) in
        let n := if r <? half then q
                 else if half <? r then q + 1
                 else if tie_away x then q + 1 else q in
        if n =? 0 then S754_zero s else of_Z (if s then - n else n)
  | _ => x
  end.

(** Conversion of a float to a 32-bit [int]: truncation toward zero; the
    result is undefined ([None]) for NaN, infinities and values out of range. *)
Definition trunc (x : float) : option Z :=
  match x with
  | S754_zero _ => Some 0
  | S754_finite s m e =>
      let n := if 0 <=? e then Z.shiftl (Zpos m) e else int_part m e in
      let v := if s then - n else n in
      if (- 2 ^ 31 <=? v) && (v <? 2 ^ 31) then Some v else None
  | _ => None
  end.

(** OpenCL [fmin]: if one argument is a NaN the other one is returned. *)
Definition fmin (x y : float) : float :=
  match x, y with
  | S754_nan, _ => y
  | _, S754_nan => x
  | _, _ => if ltb y x then y else x
  end.

(** GLSL [min]: [y] if [y < x], otherwise [x]. *)
Definition min (x y : float) : float := if ltb y x then y else x.

End F32.

Abbreviation float := F32.float.

(** ** Two-component vectors ([float2], [vec2]) *)

Record float2 : Type := vec2 { vx : float; vy : float }.

Definition vadd (a b : float2) : float2 :=
  vec2 (F32.add (vx a) (vx b)) (F32.add (vy a) (vy b)).
Definition vmul (a b : float2) : float2 :=
  vec2 (F32.mul (vx a) (vx b)) (F32.mul (vy a) (vy b)).
Definition vdiv (a b : float2) : float2 :=
  vec2 (F32.div (vx a) (vx b)) (F32.div (vy a) (vy b)).

(** ** Colors *)

(** An RGBA8 color ([uchar4], or a texel of an [rgba8] image). *)
Definition uchar4 : Type := (Z * Z * Z * Z)%type.

Definition black : uchar4 := (0, 0, 0, 255).

(** ** The iteration loop *)

(** The variables of the loop of both kernels. *)
Record loop_state : Type := mkLoop { depth : Z; z : float2; z2 : float2 }.

(** [++depth] on an [int]. *)
Definition incr (s : loop_state) : loop_state :=
  mkLoop (to_int (depth s + 1)) (z s) (z2 s).

(** The loop [for (; cond; ++depth) body], run for at most [fuel] tests of
    its condition. *)
Fixpoint for_loop (cond : loop_state -> bool) (body : loop_state -> loop_state)
    (fuel : nat) (s : loop_state) : loop_state :=
  match fuel with
  | O => s
  | S fuel' =>
      if cond s then for_loop cond body fuel' (incr (body s)) else s
  end.

(** The body of the loop, the same text in both kernels:
    [z = (z2.x - z2.y, 2 * z.x * z.y) + c; z2 = z * z]. *)
Definition body (c : float2) (s : loop_state) : loop_state :=
  let z' :=
    vadd (vec2 (F32.sub (vx (z2 s)) (vy (z2 s)))
               (F32.mul (F32.mul F32.two (vx (z s))) (vy (z s)))) c in
  mkLoop (depth s) z' (vmul z' z').

(** The squared magnitude tested by the loop, [z2.x + z2.y]. *)
Definition norm2 (s : loop_state) : float := F32.add (vx (z2 s)) (vy (z2 s)).

(** What a kernel does with its pixel: it stores opaque black, or it stores
    the palette entry at an index ([None]: the conversion to [int] of the
    computed position is undefined). *)
Inductive shade : Type :=
  | Member
  | Escaped (index : option Z).

(** The color stored for a [shade]; [None] when the palette access is out
    of the bounds of the palette. *)
Definition color_of (palette : list uchar4) (sh : shade) : option uchar4 :=
  match sh with
  | Member => Some black
  | Escaped (Some index) =>
      if index <? 0 then None else nth_error palette (Z.to_nat index)
  | Escaped None => None
  end.

(** ** What both host programs share *)

Module Host.

(** The block of parameters at the head of [main]. *)
Record params : Type := mkParams {
  localGroupSize : Z;
  maxDepth : Z;
  width : Z;
  height : Z;
  scaleForce : float
}.

(** What [lodepng::decode] leaves in [w_palette], [h_palette] and [palette]
    (the bytes four by four); its error code is ignored by both programs, and
    after a failure the sizes are still zero and the vector is empty. *)
Record image : Type := mkImage {
  w_palette : Z;
  h_palette : Z;
  texels : list uchar4
}.

Definition no_image : image := mkImage 0 0 [].

(** The window of the complex plane, the same text in both programs. *)
Definition min_real : float := Eval vm_compute in F32.of_Z (-2).
Definition max_real : float := F32.one.
Definition min_imag (p : params) : float :=
  F32.div
    (F32.div (F32.mul (F32.sub max_real min_real) (F32.of_Z (height p)))
             (F32.of_Z (width p)))
    (F32.of_Z (-2)).
Definition max_imag (p : params) : float :=
  F32.mul (F32.of_Z (-1)) (min_imag p).

Definition window_min (p : params) : float2 := vec2 min_real (min_imag p).
Definition window_delta (p : params) : float2 :=
  vec2 (F32.sub max_real min_real) (F32.sub (max_imag p) (min_imag p)).

(** What ends a host program without a message of its own: an exception
    that nothing catches, or a trap of the processor. *)
Inductive crash : Type :=
  | length_error      (* [std::length_error] from a [std::vector] *)
  | division_trap.    (* an integer division without a result *)

(** How a host program ends up: it left with [exit(EXIT_FAILURE)] after
    printing a message, it was ended by a [crash] before the dispatch, or it
    dispatched the kernel.  The memory for the host image is taken to be
    there: [std::bad_alloc] is left out. *)
Inductive outcome (A : Type) : Type :=
  | Failure (message : string)
  | Crashed (cause : crash)
  | Dispatched (launch : A).
Arguments Failure {A} message.
Arguments Crashed {A} cause.
Arguments Dispatched {A} launch.

End Host.


(** ** The OpenCL kernel (src/OpenCL/mandelbrot.cpp) *)

Module OpenCL.

(** The arguments of the kernel after the two buffers. *)
Record args : Type := mkArgs {
  paletteSize : Z;      (* int *)
  min : float2;
  delta : float2;
  maxDepth : Z;         (* uint *)
  scaleForce : float
}.

Section Kernel.

Variable log : float -> float.
Variable a : args.

(** [c = min + delta * (float2)(x / (float)(width - 1), y / (float)(height - 1))] *)
Definition interpolate (width height x y : Z) : float2 :=
  vadd (min a)
       (vmul (delta a)
             (vec2 (F32.div (F32.of_Z x) (F32.of_Z (to_int (width - 1))))
                   (F32.div (F32.of_Z y) (F32.of_Z (to_int (height - 1)))))).

(** [depth < maxDepth && z2.x + z2.y < 4.0f]; [depth] is an [int] and
    [maxDepth] a [uint], so they are compared as [uint]. *)
Definition cond (s : loop_state) : bool :=
  (to_uint (depth s) <? maxDepth a) && F32.ltb (norm2 s) F32.four.

Definition init (c : float2) : loop_state := mkLoop 0 c (vmul c c).

Definition iterate (c : float2) : loop_state :=
  for_loop cond (body c) (Z.to_nat (maxDepth a)) (init c).

(** [i = (float)(depth) / (float)(maxDepth - 1)] *)
Definition normalized (d : Z) : float :=
  F32.div (F32.of_Z d) (F32.of_Z (to_uint (maxDepth a - 1))).

(** [ie = fmin(1.0f, log(i * scaleForce + 1.0f) / log(scaleForce))] *)
Definition smoothed (i : float) : float :=
  F32.fmin F32.one
    (F32.div (log (F32.add (F32.mul i (scaleForce a)) F32.one))
             (log (scaleForce a))).

(** [(1.0f - ie) * (float)(paletteSize - 1)] *)
Definition position (ie : float) : float :=
  F32.mul (F32.sub F32.one ie) (F32.of_Z (to_int (paletteSize a - 1))).

(** [int index = floor(...)] *)
Definition index (ie : float) : option Z := F32.trunc (F32.floor (position ie)).

(** The two branches after the loop. *)
Definition classify (s : loop_state) : shade :=
  if to_uint (depth s) =? maxDepth a then Member
  else Escaped (index (smoothed (normalized (depth s)))).

Definition shade_of (c : float2) : shade := classify (iterate c).

(** The kernel at the work item [(x, y)] of a [width] by [height] range:
    the color it stores at [img[y * width + x]]. *)
Definition mandelbrot (palette : list uchar4) (width height x y : Z)
    : option uchar4 :=
  color_of palette (shade_of (interpolate width height x y)).

End Kernel.

(** *** The host program *)

(** The status of each OpenCL call that [main] checks ([true]:
    [CL_SUCCESS]), in the order of the calls. *)
Record runtime : Type := mkRuntime {
  platform_get : bool;
  get_devices : bool;
  write_buffer : bool;
  build : bool;
  set_args : bool;
  enqueue_kernel : bool
}.

(** What [enqueueNDRangeKernel] is given. *)
Record launch : Type := mkLaunch {
  kernel_args : args;
  kernel_palette : list uchar4;
  global : Z * Z;
  local : Z * Z
}.

(** [checkCLError(status, msg)] followed by the rest of the program. *)
Definition checkCLError {A : Type} (status : bool) (msg : string)
    (rest : Host.outcome A) : Host.outcome A :=
  if status then rest else Host.Failure msg.

(** The kernel arguments set by [main]. *)
Definition host_args (p : Host.params) (pal : Host.image) : args :=
  mkArgs (to_int (Host.h_palette pal)) (Host.window_min p) (Host.window_delta p)
         (to_uint (Host.maxDepth p)) (Host.scaleForce p).

Definition main (rt : runtime) (p : Host.params) (pal : Host.image) : Host.outcome launch :=
  checkCLError (platform_get rt) "Error getting platform."
  (checkCLError (get_devices rt) "Error getting devices."
  (checkCLError (write_buffer rt) "Error writing color palette."
  (if build rt then
     checkCLError (set_args rt) "Error setting kernel arguments."
     (checkCLError (enqueue_kernel rt) "Error enqueuing kernel."
     (Host.Dispatched
        (mkLaunch (host_args p pal) (Host.texels pal)
                  (to_uint (Host.width p), to_uint (Host.height p))
                  (to_uint (Host.localGroupSize p), to_uint (Host.localGroupSize p)))))
   else Host.Failure "Error building program."))).

(** The parameters written in the source. *)
Definition parameters : Host.params :=
  Host.mkParams 32 1024 1024 1024 (F32.of_Z 20).

(** *** The image buffer *)

(** The memory behind [img]: one [uchar4] per element, [None] where nothing
    has been written. *)
Definition buffer : Type := list (option uchar4).

(** The buffer [main] creates for the image: [img.size()] bytes, that is
    [width * height * 4] in [cl_uint] arithmetic, four bytes to an element;
    its contents are not initialised. *)
Definition imgBuffer (p : Host.params) : buffer :=
  repeat None (Z.to_nat (to_uint (Host.width p * Host.height p * 4) / 4)).

(** [y * width + x], computed in [int]. *)
Definition offset (width x y : Z) : Z := to_int (to_int (y * width) + x).

(** [img[i] = v]; a store outside the buffer is undefined ([None]). *)
Definition store (img : buffer) (i : Z) (v : uchar4) : option buffer :=
  if (0 <=? i) && (i <? Z.of_nat (List.length img)) then
    Some (firstn (Z.to_nat i) img ++ Some v :: skipn (S (Z.to_nat i)) img)%list
  else None.

Section Range.

Variable log : float -> float.
Variable a : args.
Variable palette : list uchar4.
Variables width height : Z.

(** The kernel as the work item [id = (x, y)] runs it on the buffer; it is
    undefined when the palette access or the store is out of bounds. *)
Definition work_item (img : buffer) (id : Z * Z) : option buffer :=
  match mandelbrot log a palette width height (fst id) (snd id) with
  | Some color => store img (offset width (fst id) (snd id)) color
  | None => None
  end.

(** The work items [items], each on the buffer the ones before it left. *)
Fixpoint run (items : list (Z * Z)) (img : buffer) : option buffer :=
  match items with
  | [] => Some img
  | id :: rest =>
      match work_item img id with
      | Some img' => run rest img'
      | None => None
      end
  end.

End Range.

(** The global ids of one dimension of [n] work items. *)
Definition ids (n : Z) : list Z := List.map Z.of_nat (List.seq 0 (Z.to_nat n)).

(** The work items of the range [global]. *)
Definition NDRange (global : Z * Z) : list (Z * Z) :=
  List.flat_map (fun y => List.map (fun x => (x, y)) (ids (fst global)))
                (ids (snd global)).

End OpenCL.

(** ** The OpenGL compute shader (src/ComputeShader/mandelbrot.cpp) *)

Module ComputeShader.

(** The uniforms of the shader. *)
Record uniforms : Type := mkUniforms {
  size : float2;        (* image width - 1, height - 1 *)
  paletteSize : Z;      (* int: palette size - 1 *)
  cmin : float2;
  cdelta : float2;
  maxDepth : Z;         (* int: maximum number of iterations - 1 *)
  scaleForce : float
}.

Section Shader.

Variable log : float -> float.
Variable tie_away : float -> bool.
Variable u : uniforms.

(** [c = cdelta * pixel / size + cmin] *)
Definition interpolate (x y : Z) : float2 :=
  vadd (vdiv (vmul (cdelta u) (vec2 (F32.of_Z x) (F32.of_Z y))) (size u))
       (cmin u).

(** [depth <= maxDepth && z2.x + z2.y <= 4.0f] *)
Definition cond (s : loop_state) : bool :=
  (depth s <=? maxDepth u) && F32.leb (norm2 s) F32.four.

Definition init (c : float2) : loop_state := mkLoop 0 c (vmul c c).

Definition iterate (c : float2) : loop_state :=
  for_loop cond (body c) (Z.to_nat (maxDepth u + 1)) (init c).

(** [i = float(depth) / maxDepth] *)
Definition normalized (d : Z) : float :=
  F32.div (F32.of_Z d) (F32.of_Z (maxDepth u)).

(** [ie = min(1.0f, log(i * scaleForce + 1.0f) / log(scaleForce))] *)
Definition smoothed (i : float) : float :=
  F32.min F32.one
    (F32.div (log (F32.add (F32.mul i (scaleForce u)) F32.one))
             (log (scaleForce u))).

(** [(1.0f - ie) * paletteSize] *)
Definition position (ie : float) : float :=
  F32.mul (F32.sub F32.one ie) (F32.of_Z (paletteSize u)).

(** [int color = int(round(...))] *)
Definition index (ie : float) : option Z :=
  F32.trunc (F32.round tie_away (position ie)).

Definition classify (s : loop_state) : shade :=
  if maxDepth u <? depth s then Member
  else Escaped (index (smoothed (normalized (depth s)))).

Definition shade_of (c : float2) : shade := classify (iterate c).

(** The [main] of [shaderSource] at the invocation [(x, y)]: the color it
    stores at [pixel]. *)
Definition shaderSource (palette : list uchar4) (x y : Z) : option uchar4 :=
  color_of palette (shade_of (interpolate x y)).

End Shader.

(** *** The host program *)

(** What [glDispatchCompute] runs: the uniforms, the palette texture and
    the number of work groups (of 32 by 32 invocations) in x and y. *)
Record launch : Type := mkLaunch {
  shader_uniforms : uniforms;
  shader_palette : list uchar4;
  groups : Z * Z
}.

(** The uniforms set by [main]. *)
Definition host_uniforms (p : Host.params) (pal : Host.image) : uniforms :=
  mkUniforms
    (vec2 (F32.sub (F32.of_Z (Host.width p)) F32.one)
          (F32.sub (F32.of_Z (Host.height p)) F32.one))
    (to_int (to_uint (Host.h_palette pal) - 1))
    (Host.window_min p)
    (Host.window_delta p)
    (to_int (Host.maxDepth p - 1))
    (Host.scaleForce p).

(** [width * height * 4], the argument of the constructor of [img]: a
    product of [GLint], with the wrap-around of the other [int]
    arithmetic. *)
Definition img_size (p : Host.params) : Z :=
  to_int (Host.width p * Host.height p * 4).

(** Whether the [GLint] division [n / d] has no result: the divisor is zero,
    or the quotient would be [2 ^ 31]. *)
Definition division_traps (n d : Z) : bool :=
  (d =? 0) || ((n =? - 2 ^ 31) && (d =? - 1)).

(** [main]; [glfw_init] and [glad_load] tell whether [glfwInit] and
    [gladLoadGLLoader] succeed, the only two results the program tests.
    Before them [std::vector<GLubyte> img(width * height * 4)] converts the
    product to a [size_t]: a negative one is more than a vector can hold and
    the constructor throws [std::length_error].  The arguments of
    [glDispatchCompute] are the quotients [width / localGroupSize] and
    [height / localGroupSize]. *)
Definition main (glfw_init glad_load : bool) (p : Host.params) (pal : Host.image)
    : Host.outcome launch :=
  if img_size p <? 0 then Host.Crashed Host.length_error
  else if glfw_init then
    if glad_load then
      if division_traps (Host.width p) (Host.localGroupSize p)
         || division_traps (Host.height p) (Host.localGroupSize p)
      then Host.Crashed Host.division_trap
      else
        Host.Dispatched
          (mkLaunch (host_uniforms p pal) (Host.texels pal)
                    (Z.quot (Host.width p) (Host.localGroupSize p),
                     Z.quot (Host.height p) (Host.localGroupSize p)))
    else Host.Failure "Error  loading glad."
  else Host.Failure "GLFW initialization failed!".

(** The parameters written in the source. *)
Definition parameters : Host.params :=
  Host.mkParams 32 1024 (1024 * 8) (1024 * 8) (F32.of_Z 20).

(** *** The dispatch *)

(** [layout (local_size_x = 32, local_size_y = 32) in]: the size of a work
    group is fixed in the shader. *)
Definition local_size : Z := 32.

(** The range of [gl_GlobalInvocationID.xy]: the number of work groups
    times the size of a group. *)
Definition invocations (l : launch) : Z * Z :=
  (local_size * fst (groups l), local_size * snd (groups l)).

(** Whether the shader is invoked at [pixel = (x, y)]. *)
Definition invoked (l : launch) (x y : Z) : bool :=
  (0 <=? x) && (x <? fst (invocations l)) &&
  (0 <=? y) && (y <? snd (invocations l)).

(** *** Errors of OpenGL *)

Definition GLenum : Type := Z.

Definition GL_NO_ERROR : GLenum := 0.
Definition GL_INVALID_ENUM : GLenum := 1280.
Definition GL_INVALID_VALUE : GLenum := 1281.
Definition GL_INVALID_OPERATION : GLenum := 1282.
Definition GL_STACK_OVERFLOW : GLenum := 1283.
Definition GL_STACK_UNDERFLOW : GLenum := 1284.
Definition GL_OUT_OF_MEMORY : GLenum := 1285.
Definition GL_INVALID_FRAMEBUFFER_OPERATION : GLenum := 1286.

(** The [switch] of [__checkOpenGLError]: the name of an error code, the
    empty string for a code that has no [case]. *)
Definition error_name (errorCode : GLenum) : string :=
  if errorCode =? GL_INVALID_ENUM then "INVALID_ENUM"
  else if errorCode =? GL_INVALID_VALUE then "INVALID_VALUE"
  else if errorCode =? GL_INVALID_OPERATION then "INVALID_OPERATION"
  else if errorCode =? GL_STACK_OVERFLOW then "STACK_OVERFLOW"
  else if errorCode =? GL_STACK_UNDERFLOW then "STACK_UNDERFLOW"
  else if errorCode =? GL_OUT_OF_MEMORY then "OUT_OF_MEMORY"
  else if errorCode =? GL_INVALID_FRAMEBUFFER_OPERATION
       then "INVALID_FRAMEBUFFER_OPERATION"
  else "".

(** An [int] as [std::cout] prints it. *)
Definition decimal (n : Z) : string := NilZero.string_of_int (Z.to_int n).

(** [__checkOpenGLError(file, line)] on the errors the context has recorded,
    oldest first: [glGetError] returns the oldest one and clears it, or
    [GL_NO_ERROR] when none is left.  The result is the value returned,
    the errors still recorded and the lines printed. *)
Fixpoint checkOpenGLError (file : string) (line : Z) (recorded : list GLenum)
    : GLenum * list GLenum * list string :=
  match recorded with
  | [] => (GL_NO_ERROR, [], [])
  | errorCode :: rest =>
      if errorCode =? GL_NO_ERROR then (errorCode, rest, [])
      else
        let '(code, remaining, lines) := checkOpenGLError file line rest in
        (code, remaining,
         (error_name errorCode ++ " | " ++ file ++ " (" ++ decimal line ++ ")")
         :: lines)
  end.

(** *** The device information *)

Definition GL_VENDOR : GLenum := 7936.
Definition GL_RENDERER : GLenum := 7937.
Definition GL_VERSION : GLenum := 7938.
Definition GL_MAX_COMPUTE_WORK_GROUP_INVOCATIONS : GLenum := 37099.
Definition GL_MAX_COMPUTE_WORK_GROUP_COUNT : GLenum := 37310.
Definition GL_MAX_COMPUTE_WORK_GROUP_SIZE : GLenum := 37311.

(** The queries [printDeviceInfo] makes of the context. *)
Record context : Type := mkContext {
  glGetString : GLenum -> string;
  glGetIntegerv : GLenum -> Z;
  glGetIntegeri_v : GLenum -> Z -> Z
}.

(** [printDeviceInfo]: the lines it prints. *)
Definition printDeviceInfo (gl : context) : list string :=
  let value0 := glGetIntegerv gl GL_MAX_COMPUTE_WORK_GROUP_INVOCATIONS in
  let count0 := glGetIntegeri_v gl GL_MAX_COMPUTE_WORK_GROUP_COUNT 0 in
  let count1 := glGetIntegeri_v gl GL_MAX_COMPUTE_WORK_GROUP_COUNT 1 in
  let count2 := glGetIntegeri_v gl GL_MAX_COMPUTE_WORK_GROUP_COUNT 1 in
  let size0 := glGetIntegeri_v gl GL_MAX_COMPUTE_WORK_GROUP_SIZE 0 in
  let size1 := glGetIntegeri_v gl GL_MAX_COMPUTE_WORK_GROUP_SIZE 1 in
  let size2 := glGetIntegeri_v gl GL_MAX_COMPUTE_WORK_GROUP_SIZE 1 in
  [ glGetString gl GL_VENDOR ++ ", " ++ glGetString gl GL_RENDERER ++ ", "
    ++ glGetString gl GL_VERSION;
    "Max work-group invocations: " ++ decimal value0;
    "Max work-group count:       " ++ decimal count0 ++ " x "
    ++ decimal count1 ++ " x " ++ decimal count2;
    "Max work-group size:        " ++ decimal size0 ++ " x "
    ++ decimal size1 ++ " x " ++ decimal size2 ].

End ComputeShader.

(** ** A reference [log]

    The kernels call the builtin [log] of their device.  For the examples
    below the natural logarithm is computed in fixed point with [frac_bits]
    fractional bits ([ln x = e * ln 2 + 2 * atanh ((y - 1) / (y + 1))] for
    [x = y * 2 ^ e], [1 <= y < 2]) and rounded to a float. *)

Module RefLog.

Definition frac_bits : Z := 80.

Fixpoint atanh_series (n : nat) (k pow t2 acc : Z) : Z :=
  match n with
  | O => acc
  | S n' =>
      atanh_series n' (k + 2) (Z.shiftr (pow * t2) frac_bits) t2 (acc + pow / k)
  end.

(** [atanh (num / den)] for [0 <= num / den <= 1 / 3]. *)
Definition atanh_fix (num den : Z) : Z :=
  let t := Z.shiftl num frac_bits / den in
  atanh_series 40 1 t (Z.shiftr (t * t) frac_bits) 0.

Definition ln2_fix : Z := 2 * atanh_fix 1 3.

Definition log (x : float) : float :=
  match x with
  | S754_nan => S754_nan
  | S754_zero _ => S754_infinity true
  | S754_infinity s => if s then S754_nan else x
  | S754_finite true _ _ => S754_nan
  | S754_finite false m e =>
      let d := Zpos (digits2_pos m) in
      let top := Z.shiftl 1 (d - 1) in
      let r := (e + d - 1) * ln2_fix
               + 2 * atanh_fix (Zpos m - top) (Zpos m + top) in
      binary_normalize F32.prec F32.emax r (- frac_bits) false
  end.

End RefLog.


(** * Definitions for the properties *)

(** ** The orbit of a point *)

(** One turn of a loop: the body, then [++depth]. *)
Definition turn (body : loop_state -> loop_state) (s : loop_state)
    : loop_state :=
  incr (body s).

(** The state after [k] turns. *)
Fixpoint turns (body : loop_state -> loop_state) (k : nat) (s : loop_state)
    : loop_state :=
  match k with
  | O => s
  | S k' => turns body k' (turn body s)
  end.

(** The loop variables after [k] turns from [z = c], in either kernel. *)
Definition orbit (c : float2) (k : nat) : loop_state :=
  turns (body c) k (mkLoop 0 c (vmul c c)).


Definition is_zero (x : float) : bool :=
  match x with
  | S754_zero _ => true
  | _ => false
  end.

Definition is_nan (x : float) : bool :=
  match x with
  | S754_nan => true
  | _ => false
  end.

Definition positive_finite (x : float) : bool :=
  match x with
  | S754_finite false _ _ => true
  | _ => false
  end.

(** Both components of [z] are zeros and both squares are [+0]. *)
Definition at_origin (s : loop_state) : Prop :=
  is_zero (vx (z s)) = true /\ is_zero (vy (z s)) = true /\
  z2 s = vec2 F32.zero F32.zero.

(** ** Configurations *)

(** The same kernel arguments with another [maxDepth]. *)
Definition cl_with_maxDepth (a : OpenCL.args) (n : Z) : OpenCL.args :=
  OpenCL.mkArgs (OpenCL.paletteSize a) (OpenCL.min a) (OpenCL.delta a) n
                (OpenCL.scaleForce a).

(** The same uniforms for another [maxDepth] of the host, which sets the
    uniform to [maxDepth - 1]. *)
Definition gl_with_maxDepth (u : ComputeShader.uniforms) (n : Z)
    : ComputeShader.uniforms :=
  ComputeShader.mkUniforms (ComputeShader.size u) (ComputeShader.paletteSize u)
    (ComputeShader.cmin u) (ComputeShader.cdelta u) (n - 1)
    (ComputeShader.scaleForce u).

(** The arguments and the uniforms of one configuration: the OpenGL host
    passes [maxDepth - 1] and the palette size minus one. *)
Definition same_setup (a : OpenCL.args) (u : ComputeShader.uniforms) : Prop :=
  ComputeShader.maxDepth u = OpenCL.maxDepth a - 1 /\
  ComputeShader.paletteSize u = to_int (OpenCL.paletteSize a - 1) /\
  ComputeShader.scaleForce u = OpenCL.scaleForce a.

(** What the properties need of the [log] of a device at a given
    [scaleForce]: [log 1] is a zero and [log scaleForce] a positive number. *)
Definition usual_log (log : float -> float) (scaleForce : float) : Prop :=
  is_zero (log F32.one) = true /\ positive_finite (log scaleForce) = true.


(** A run where every OpenCL call succeeds. *)
Definition all_success : OpenCL.runtime :=
  OpenCL.mkRuntime true true true true true true.

(** ** Inputs of the examples *)

Definition white : uchar4 := (255, 255, 255, 255).

(** A palette of two colors, one pixel wide. *)
Definition two_colors : Host.image := Host.mkImage 1 2 [white; black].

(** A palette of 512 colors, all different. *)
Definition gradient : Host.image :=
  Host.mkImage 1 512
    (List.map (fun k => (Z.of_nat k mod 256, Z.of_nat k / 256, 0, 255))
              (List.seq 0 512)).

(** One work group: 32 by 32 pixels, 50 iterations. *)
Definition one_group : Host.params := Host.mkParams 32 50 32 32 (F32.of_Z 20).

(** An image with a middle row: 1025 by 1025 pixels in groups of 5 by 5. *)
Definition odd_size : Host.params :=
  Host.mkParams 5 1024 1025 1025 (F32.of_Z 20).

(** No iteration and [scaleForce = 1]. *)
Definition degenerate : Host.params := Host.mkParams 32 0 1024 1024 F32.one.


(** One pixel and one iteration. *)
Definition one_pixel : Host.params := Host.mkParams 1 1 1 1 (F32.of_Z 20).

(** One pixel and 50 iterations. *)
Definition one_pixel_deep : Host.params :=
  Host.mkParams 1 50 1 1 (F32.of_Z 20).

(** The point [c = (3, 0)]. *)
Definition three : float2 := vec2 (F32.of_Z 3) F32.zero.

(** GLSL [round] with halves rounded away from zero. *)
Definition half_away (x : float) : bool := true.

(** A window centered on the origin, 3 by 3 pixels. *)
Definition centered_args : OpenCL.args :=
  OpenCL.mkArgs 2 (vec2 (F32.of_Z (-2)) (F32.of_Z (-2)))
                (vec2 F32.four F32.four) 50 (F32.of_Z 20).
Definition centered_uniforms : ComputeShader.uniforms :=
  ComputeShader.mkUniforms (vec2 F32.two F32.two) 1
    (vec2 (F32.of_Z (-2)) (F32.of_Z (-2))) (vec2 F32.four F32.four) 49
    (F32.of_Z 20).

(** A palette image of [2 ^ 24 + 4] rows (its texels are left out). *)
Definition huge_palette : Host.image := Host.mkImage 1 16777220 [].

(** ** Binary32 numbers *)

(** The number of bits of a mantissa. *)
Definition digits (m : positive) : Z := Zpos (digits2_pos m).

(** The exponent function of binary32. *)
Definition fexp32 (e : Z) : Z := Z.max (e - 24) (- 149).

(** The mantissa and the exponent of a valid finite binary32 number. *)
Definition canonical (m : positive) (e : Z) : Prop :=
  fexp32 (digits m + e) = e /\ e <= 104.

Definition valid (x : float) : bool := valid_binary F32.prec F32.emax x.

(** The value of a finite float in units of [2 ^ (- 149)]. *)
Definition scaled (m : positive) (e : Z) : Z := Zpos m * 2 ^ (e + 149).

(** A float that is [+0] or a positive canonical number of value at most
    [bound] units. *)
Definition below (r : float) (bound : Z) : Prop :=
  r = S754_zero false \/
  exists m e, r = S754_finite false m e /\ canonical m e /\ scaled m e <= bound.

(** The shift record after [j] shifts of a mantissa whose double is [h]. *)
Definition shifted (h j : Z) : shr_record :=
  Build_shr_record (h / 2 ^ (j + 1)) (Z.odd (h / 2 ^ j))
                   (negb (h mod 2 ^ j =? 0)).

(** The mantissa [m] shifted right by [k > 0] bits and rounded to nearest,
    ties to even. *)
Definition round_shift (m k : Z) : Z :=
  round_nearest_even (shr_m (shifted (2 * m) k))
                     (loc_of_shr_record (shifted (2 * m) k)).

(** The float for a rounded mantissa [q <= 2 ^ 24] at the exponent [e]. *)
Definition pack (s : bool) (q e : Z) : float :=
  match q with
  | Z0 => S754_zero s
  | Zpos m =>
      if q =? 2 ^ 24 then
        if e + 1 <=? 104 then S754_finite s (2 ^ 23)%positive (e + 1)
        else S754_infinity s
      else if e <=? 104 then S754_finite s m e else S754_infinity s
  | Zneg _ => S754_nan
  end.

(** The two rounding functions of [SpecFloat] at binary32. *)
Definition round_aux (s : bool) (m : positive) (e : Z) : float :=
  binary_round_aux F32.prec F32.emax s (Zpos m) e loc_Exact.
Definition round_ne (s : bool) (m : positive) (e : Z) : float :=
  binary_round F32.prec F32.emax s m e.

(** ** The work items of the OpenCL kernel *)

(** The element of the buffer a work item writes and the color it stores. *)
Definition place (width : Z) (id : Z * Z) : Z :=
  OpenCL.offset width (fst id) (snd id).
Definition color (log : float -> float) (a : OpenCL.args)
    (palette : list uchar4) (width height : Z) (id : Z * Z) : option uchar4 :=
  OpenCL.mandelbrot log a palette width height (fst id) (snd id).

(** Two by two pixels in work groups of one, four iterations. *)
Definition tiny : Host.params := Host.mkParams 1 4 2 2 (F32.of_Z 20).

(** ** An OpenGL context *)

(** A context whose limits are 65535 in x and y, and as given in z. *)
Definition some_context (z_count z_size : Z) : ComputeShader.context :=
  ComputeShader.mkContext
    (fun name => "device")
    (fun target => 1024)
    (fun target index =>
       if index =? 2 then
         if target =? ComputeShader.GL_MAX_COMPUTE_WORK_GROUP_COUNT
         then z_count else z_size
       else 65535).

(** ** Finite numbers *)

Definition is_finite (x : float) : bool :=
  match x with
  | S754_finite _ _ _ => true
  | _ => false
  end.

(** Both components are finite numbers other than zero. *)
Definition finite2 (v : float2) : Prop :=
  is_finite (vx v) = true /\ is_finite (vy v) = true.

(** The float [0.5]. *)
Definition one_half : float := S754_finite false 8388608 (- 24).

(** ** Signs *)

(** A zero, a positive number or plus infinity. *)
Definition nonneg (x : float) : bool :=
  match x with
  | S754_zero _ => true
  | S754_finite s _ _ => negb s
  | S754_infinity s => negb s
  | S754_nan => false
  end.

(** A number (not a NaN) of sign [s]. *)
Definition signed (s : bool) (x : float) : bool :=
  match x with
  | S754_nan => false
  | S754_zero s' | S754_infinity s' | S754_finite s' _ _ => Bool.eqb s s'
  end.

(** ** What the kernels ask of [log] *)

(** The number whose [log] a kernel takes for a pixel that left the loop at
    [depth]: [i * scaleForce + 1.0f] with [i = depth / (maxDepth - 1)]. *)
Definition log_argument (p : Host.params) (depth : Z) : float :=
  F32.add
    (F32.mul (F32.div (F32.of_Z depth) (F32.of_Z (Host.maxDepth p - 1)))
             (Host.scaleForce p))
    F32.one.

(** The [log] of the device returns a positive number at [scaleForce] and,
    at each of the arguments a kernel passes it, a zero, a positive number
    or plus infinity. *)
Definition log_fits (log : float -> float) (p : Host.params) : Prop :=
  positive_finite (log (Host.scaleForce p)) = true /\
  forall d, 0 <= d < Host.maxDepth p -> nonneg (log (log_argument p d)) = true.

(** Four iterations on 32 by 32 pixels. *)
Definition shallow : Host.params := Host.mkParams 32 4 32 32 (F32.of_Z 20).

(** ** The corners of the window *)

(** The floats [3.0], [1.5] and [- 1.5]. *)
Definition three_f : float := Eval vm_compute in F32.of_Z 3.
Definition three_halves : float := S754_finite false 12582912 (- 23).
Definition minus_three_halves : float := S754_finite true 12582912 (- 23).

(** ** The complex conjugate *)

Definition conjugate (c : float2) : float2 := vec2 (vx c) (SFopp (vy c)).

(** Two floats that are opposite, or two zeros of any signs. *)
Definition mirrored (x y : float) : Prop :=
  y = SFopp x \/ (is_zero x = true /\ is_zero y = true).

(** Two states of the loop that are mirror images in the real axis. *)
Definition mirror_states (s s' : loop_state) : Prop :=
  depth s' = depth s /\ vx (z s') = vx (z s) /\
  mirrored (vy (z s)) (vy (z s')) /\ z2 s' = z2 s.

(** 32 by 32 pixels and 50 iterations with [scaleForce = 1]. *)
Definition flat : Host.params := Host.mkParams 32 50 32 32 F32.one.

(** ** Rounding as a function of the value *)

(** The value of a float that is not negative, in units of [2 ^ (- 149)]
    (0 for the other floats). *)
Definition units (x : float) : Z :=
  match x with
  | S754_finite false m e => scaled m e
  | _ => 0
  end.

(** The binary32 number nearest to [a * 2 ^ (- 298)], ties to even. *)
Definition nearest (a : positive) : float :=
  pack false (round_shift (Zpos a) (fexp32 (digits a - 298) + 298))
       (fexp32 (digits a - 298)).

(** [x] with [+0] for [-0]. *)
Definition plus_zero (x : float) : float :=
  if is_zero x then S754_zero false else x.

(** ** Rounding a fraction *)

(** The integer nearest to [T / D], ties to even. *)
Definition rne_frac (T D : Z) : Z :=
  match 2 * (T mod D) ?= D with
  | Lt => T / D
  | Eq => if Z.even (T / D) then T / D else T / D + 1
  | Gt => T / D + 1
  end.

(** A location as two bits after the mantissa. *)
Definition loc_code (l : location) : Z :=
  match l with
  | loc_Exact => 0
  | loc_Inexact Lt => 1
  | loc_Inexact Eq => 2
  | loc_Inexact Gt => 3
  end.

(** The quotient of the values [n] and [d], given in units of
    [2 ^ (- 149)], rounded to an integer at the exponent [E]. *)
Definition quot_at (n d E : Z) : Z :=
  rne_frac (n * 2 ^ 149) (d * 2 ^ (E + 149)).

(** The order of the floats that are not negative: the value in units of
    [2 ^ (- 149)], and [2 ^ 300] for infinity. *)
Definition rank (x : float) : Z :=
  match x with
  | S754_infinity false => 2 ^ 300
  | _ => units x
  end.

(** ** The arguments of [log] *)

(** [i * scaleForce + 1.0f] at the depth [d]: what the kernel and the
    shader pass to [log]. *)
Definition argument (a : OpenCL.args) (d : Z) : float :=
  F32.add (F32.mul (OpenCL.normalized a d) (OpenCL.scaleForce a)) F32.one.

(** A [log] that is monotone where the programs use it: at the arguments
    of the depths below [maxDepth] its values are numbers that are not
    negative, and they are ordered as the arguments are. *)
Definition monotone_log (log : float -> float) (a : OpenCL.args) : Prop :=
  forall d d',
    0 <= d /\ d <= d' < OpenCL.maxDepth a ->
    valid (log (argument a d')) = true /\
    nonneg (log (argument a d')) = true /\
    (F32.leb (argument a d) (argument a d') = true ->
     F32.leb (log (argument a d)) (log (argument a d')) = true).

(** The check of [monotone_log] for one pair of depths. *)
Definition monotone_at (log : float -> float) (a : OpenCL.args) (d d' : Z)
    : bool :=
  valid (log (argument a d')) && nonneg (log (argument a d')) &&
  implb (F32.leb (argument a d) (argument a d'))
        (F32.leb (log (argument a d)) (log (argument a d'))).

(** * Tactics *)

Ltac closed_pos p :=
  lazymatch p with
  | xH => idtac
  | xO ?q => closed_pos q
  | xI ?q => closed_pos q
  end.
Ltac closed_Z n :=
  lazymatch n with
  | Z0 => idtac
  | Zpos ?p => closed_pos p
  | Zneg ?p => closed_pos p
  end.

(* Powers whose exponent is not a numeral, quotients and remainders become
   opaque variables, so that [lia] and [nia] see linear atoms. *)
Ltac forget_pows :=
  repeat match goal with
  | |- context [Z.pow ?b ?e] =>
      tryif closed_Z e then fail
      else (let x := fresh "pw" in set (x := Z.pow b e) in *; clearbody x)
  | H : context [Z.pow ?b ?e] |- _ =>
      tryif closed_Z e then fail
      else (let x := fresh "pw" in set (x := Z.pow b e) in *; clearbody x)
  end.
Ltac forget_divs :=
  repeat match goal with
  | |- context [Z.div ?a ?b] =>
      let x := fresh "qt" in set (x := Z.div a b) in *; clearbody x
  | H : context [Z.div ?a ?b] |- _ =>
      let x := fresh "qt" in set (x := Z.div a b) in *; clearbody x
  | |- context [Z.modulo ?a ?b] =>
      let x := fresh "rm" in set (x := Z.modulo a b) in *; clearbody x
  | H : context [Z.modulo ?a ?b] |- _ =>
      let x := fresh "rm" in set (x := Z.modulo a b) in *; clearbody x
  end.
Ltac plia := forget_divs; forget_pows; lia.
Ltac pnia := forget_divs; forget_pows; nia.

Ltac fold_fexp32 :=
  repeat match goal with
  | |- context [fexp F32.prec F32.emax ?x] =>
      change (fexp F32.prec F32.emax x) with (fexp32 x)
  end.

(** * Properties *)

(** ** 32-bit integers *)

Lemma to_uint_small (n : Z) : 0 <= n < 2 ^ 32 -> to_uint n = n.
Proof. intros H. unfold to_uint. now apply Z.mod_small. Qed.

Lemma to_int_small (n : Z) : - 2 ^ 31 <= n < 2 ^ 31 -> to_int n = n.
Proof. intros H. unfold to_int. rewrite Z.mod_small; lia. Qed.

Lemma to_int_add (n k : Z) : to_int (to_int n + k) = to_int (n + k).
Proof.
  unfold to_int.
  replace ((n + 2 ^ 31) mod 2 ^ 32 - 2 ^ 31 + k + 2 ^ 31)
    with ((n + 2 ^ 31) mod 2 ^ 32 + k) by lia.
  rewrite Zplus_mod_idemp_l. f_equal. f_equal. lia.
Qed.

Lemma to_uint_to_int (n : Z) : to_uint (to_int n) = to_uint n.
Proof.
  unfold to_uint, to_int.
  rewrite Zminus_mod_idemp_l.
  replace (n + 2 ^ 31 - 2 ^ 31) with n by lia. reflexivity.
Qed.

(** ** The loop *)

Section Loop.

Variable cond : loop_state -> bool.
Variable body : loop_state -> loop_state.

Lemma turns_succ (k : nat) (s : loop_state) :
  turns body (S k) s = turn body (turns body k s).
Proof.
  revert s. induction k as [|k IH]; intros s; [reflexivity|].
  change (turns body (S (S k)) s) with (turns body (S k) (turn body s)).
  now rewrite IH.
Qed.

(** The loop that meets a false condition after [k] turns stops there. *)
Lemma for_loop_stops (k fuel : nat) (s : loop_state) :
  (k <= fuel)%nat ->
  (forall j, (j < k)%nat -> cond (turns body j s) = true) ->
  cond (turns body k s) = false ->
  for_loop cond body fuel s = turns body k s.
Proof.
  revert fuel s. induction k as [|k IH]; intros fuel s Hk Hj Hend.
  - destruct fuel; simpl in *; [reflexivity|now rewrite Hend].
  - destruct fuel as [|fuel]; [lia|].
    assert (H0 : cond s = true) by (apply (Hj O); lia).
    simpl. rewrite H0.
    apply IH; [lia| |exact Hend].
    intros j Hlt. apply (Hj (S j)). lia.
Qed.

(** The loop whose condition holds all along uses up its fuel. *)
Lemma for_loop_runs (fuel : nat) (s : loop_state) :
  (forall j, (j < fuel)%nat -> cond (turns body j s) = true) ->
  for_loop cond body fuel s = turns body fuel s.
Proof.
  revert s. induction fuel as [|fuel IH]; intros s Hj; [reflexivity|].
  assert (H0 : cond s = true) by (apply (Hj O); lia).
  simpl. rewrite H0. apply IH.
  intros j Hlt. apply (Hj (S j)). lia.
Qed.

(** In all cases the loop makes some number of turns, the condition held
    before each of them, and it stops on a false condition or out of fuel. *)
Lemma for_loop_turns (fuel : nat) (s : loop_state) :
  exists k,
    (k <= fuel)%nat /\
    for_loop cond body fuel s = turns body k s /\
    (forall j, (j < k)%nat -> cond (turns body j s) = true) /\
    (k = fuel \/ cond (turns body k s) = false).
Proof.
  revert s. induction fuel as [|fuel IH]; intros s.
  - exists O. split; [lia|]. split; [reflexivity|]. split; [|now left].
    intros j Hj. lia.
  - simpl. destruct (cond s) eqn:Hc.
    + destruct (IH (turn body s)) as (k & Hk & Heq & Hbefore & Hend).
      exists (S k). split; [lia|]. split; [exact Heq|]. split.
      * intros [|j] Hj; [exact Hc|]. apply Hbefore. lia.
      * destruct Hend as [->|Hend]; [now left|now right].
    + exists O. split; [lia|]. split; [reflexivity|]. split; [|now right].
      intros j Hj. lia.
Qed.

(** The counter after [k] turns, when the body leaves it alone. *)
Lemma depth_turns (k : nat) (s : loop_state) :
  (forall t, depth (body t) = depth t) ->
  to_int (depth s) = depth s ->
  depth (turns body k s) = to_int (depth s + Z.of_nat k).
Proof.
  intros Hbody. revert s. induction k as [|k IH]; intros s Hs.
  - simpl. now rewrite Z.add_0_r.
  - change (turns body (S k) s) with (turns body k (turn body s)).
    assert (Hd : depth (turn body s) = to_int (depth s + 1)).
    { unfold turn, incr. simpl. now rewrite Hbody. }
    rewrite IH.
    + rewrite Hd, to_int_add. f_equal. lia.
    + rewrite Hd. rewrite <- (Z.add_0_r (to_int (depth s + 1))) at 1.
      rewrite to_int_add. now rewrite Z.add_0_r.
Qed.

End Loop.

(** ** The orbit of a point *)

Lemma orbit_succ (c : float2) (k : nat) :
  orbit c (S k) = incr (body c (orbit c k)).
Proof. unfold orbit. now rewrite turns_succ. Qed.

Lemma depth_orbit (c : float2) (k : nat) :
  depth (orbit c k) = to_int (Z.of_nat k).
Proof.
  unfold orbit. rewrite depth_turns; [reflexivity|reflexivity|reflexivity].
Qed.

Lemma depth_orbit_small (c : float2) (k : nat) :
  Z.of_nat k < 2 ^ 31 -> depth (orbit c k) = Z.of_nat k.
Proof. intros H. rewrite depth_orbit. apply to_int_small. lia. Qed.

Lemma uint_depth_orbit (c : float2) (k : nat) :
  Z.of_nat k < 2 ^ 32 -> to_uint (depth (orbit c k)) = Z.of_nat k.
Proof.
  intros H. rewrite depth_orbit, to_uint_to_int. apply to_uint_small. lia.
Qed.

(** ** The loop of the OpenCL kernel *)

Section OpenCLLoop.

Variable a : OpenCL.args.
Variable c : float2.
Hypothesis maxDepth_uint : 0 <= OpenCL.maxDepth a < 2 ^ 32.

Lemma cl_cond_orbit (j : nat) :
  Z.of_nat j <= OpenCL.maxDepth a ->
  OpenCL.cond a (orbit c j)
  = (Z.of_nat j <? OpenCL.maxDepth a) && F32.ltb (norm2 (orbit c j)) F32.four.
Proof.
  intros Hj. unfold OpenCL.cond. rewrite uint_depth_orbit by lia. reflexivity.
Qed.

(** The loop stops after some [k <= maxDepth] turns: the test
    [z2.x + z2.y < 4.0f] held before each of them, and either [k] is
    [maxDepth] or the test fails on the last state. *)
Lemma cl_iterate_orbit :
  exists k,
    Z.of_nat k <= OpenCL.maxDepth a /\
    OpenCL.iterate a c = orbit c k /\
    (forall j, (j < k)%nat -> F32.ltb (norm2 (orbit c j)) F32.four = true) /\
    (Z.of_nat k = OpenCL.maxDepth a \/
     (Z.of_nat k < OpenCL.maxDepth a /\
      F32.ltb (norm2 (orbit c k)) F32.four = false)).
Proof.
  unfold OpenCL.iterate, OpenCL.init.
  destruct (for_loop_turns (OpenCL.cond a) (body c)
              (Z.to_nat (OpenCL.maxDepth a)) (mkLoop 0 c (vmul c c)))
    as (k & Hk & Heq & Hbefore & Hend).
  change (turns (body c) k (mkLoop 0 c (vmul c c))) with (orbit c k) in Heq.
  exists k. split; [lia|]. split; [exact Heq|]. split.
  - intros j Hj. specialize (Hbefore j Hj). change (turns (body c) j (mkLoop 0 c (vmul c c))) with (orbit c j) in Hbefore.
    rewrite cl_cond_orbit in Hbefore by lia.
    now apply andb_true_iff in Hbefore.
  - destruct Hend as [->|Hend]; [left; lia|].
    change (turns (body c) k (mkLoop 0 c (vmul c c))) with (orbit c k) in Hend. rewrite cl_cond_orbit in Hend by lia.
    destruct (Z.ltb_spec (Z.of_nat k) (OpenCL.maxDepth a)) as [Hlt|Hge].
    + right. split; [exact Hlt|]. exact Hend.
    + left. lia.
Qed.

(** The loop is left on a false condition: the fuel of the model is enough. *)
Lemma cl_iterate_exits : OpenCL.cond a (OpenCL.iterate a c) = false.
Proof.
  destruct cl_iterate_orbit as (k & Hk & -> & _ & Hend).
  rewrite cl_cond_orbit by lia.
  destruct Hend as [Heq|[_ Hn]].
  - rewrite Heq, Z.ltb_irrefl. reflexivity.
  - rewrite Hn. apply andb_false_r.
Qed.

(** A loop that meets a failing test after [k < maxDepth] turns stops there. *)
Lemma cl_iterate_escape (k : nat) :
  Z.of_nat k < OpenCL.maxDepth a ->
  (forall j, (j < k)%nat -> F32.ltb (norm2 (orbit c j)) F32.four = true) ->
  F32.ltb (norm2 (orbit c k)) F32.four = false ->
  OpenCL.iterate a c = orbit c k.
Proof.
  intros Hk Hbefore Hend. unfold OpenCL.iterate, OpenCL.init, orbit.
  apply for_loop_stops.
  - lia.
  - intros j Hj. change (turns (body c) j (mkLoop 0 c (vmul c c))) with (orbit c j). rewrite cl_cond_orbit by lia.
    rewrite Hbefore by exact Hj.
    destruct (Z.ltb_spec (Z.of_nat j) (OpenCL.maxDepth a)); [reflexivity|lia].
  - change (turns (body c) k (mkLoop 0 c (vmul c c))) with (orbit c k). rewrite cl_cond_orbit by lia. rewrite Hend.
    apply andb_false_r.
Qed.

(** A loop whose test holds for [maxDepth] turns runs them all. *)
Lemma cl_iterate_full :
  (forall j, Z.of_nat j < OpenCL.maxDepth a ->
             F32.ltb (norm2 (orbit c j)) F32.four = true) ->
  OpenCL.iterate a c = orbit c (Z.to_nat (OpenCL.maxDepth a)).
Proof.
  intros Hall. unfold OpenCL.iterate, OpenCL.init, orbit. apply for_loop_runs.
  intros j Hj. change (turns (body c) j (mkLoop 0 c (vmul c c))) with (orbit c j). rewrite cl_cond_orbit by lia.
  rewrite Hall by lia.
  destruct (Z.ltb_spec (Z.of_nat j) (OpenCL.maxDepth a)); [reflexivity|lia].
Qed.

End OpenCLLoop.

(** ** The loop of the compute shader *)

Section ShaderLoop.

Variable u : ComputeShader.uniforms.
Variable c : float2.
Hypothesis maxDepth_int : - 1 <= ComputeShader.maxDepth u < 2 ^ 31 - 1.

Lemma gl_cond_orbit (j : nat) :
  Z.of_nat j <= ComputeShader.maxDepth u + 1 ->
  ComputeShader.cond u (orbit c j)
  = (Z.of_nat j <=? ComputeShader.maxDepth u)
    && F32.leb (norm2 (orbit c j)) F32.four.
Proof.
  intros Hj. unfold ComputeShader.cond. rewrite depth_orbit_small by lia.
  reflexivity.
Qed.

Lemma gl_iterate_orbit :
  exists k,
    Z.of_nat k <= ComputeShader.maxDepth u + 1 /\
    ComputeShader.iterate u c = orbit c k /\
    (forall j, (j < k)%nat -> F32.leb (norm2 (orbit c j)) F32.four = true) /\
    (Z.of_nat k = ComputeShader.maxDepth u + 1 \/
     (Z.of_nat k <= ComputeShader.maxDepth u /\
      F32.leb (norm2 (orbit c k)) F32.four = false)).
Proof.
  unfold ComputeShader.iterate, ComputeShader.init.
  destruct (for_loop_turns (ComputeShader.cond u) (body c)
              (Z.to_nat (ComputeShader.maxDepth u + 1)) (mkLoop 0 c (vmul c c)))
    as (k & Hk & Heq & Hbefore & Hend).
  change (turns (body c) k (mkLoop 0 c (vmul c c))) with (orbit c k) in Heq.
  exists k. split; [lia|]. split; [exact Heq|]. split.
  - intros j Hj. specialize (Hbefore j Hj). change (turns (body c) j (mkLoop 0 c (vmul c c))) with (orbit c j) in Hbefore.
    rewrite gl_cond_orbit in Hbefore by lia.
    now apply andb_true_iff in Hbefore.
  - destruct Hend as [->|Hend]; [left; lia|].
    change (turns (body c) k (mkLoop 0 c (vmul c c))) with (orbit c k) in Hend. rewrite gl_cond_orbit in Hend by lia.
    destruct (Z.leb_spec (Z.of_nat k) (ComputeShader.maxDepth u)) as [Hle|Hgt].
    + right. split; [exact Hle|]. exact Hend.
    + left. lia.
Qed.

Lemma gl_iterate_exits :
  ComputeShader.cond u (ComputeShader.iterate u c) = false.
Proof.
  destruct gl_iterate_orbit as (k & Hk & -> & _ & Hend).
  rewrite gl_cond_orbit by lia.
  destruct Hend as [Heq|[_ Hn]].
  - destruct (Z.leb_spec (Z.of_nat k) (ComputeShader.maxDepth u));
      [lia|reflexivity].
  - rewrite Hn. apply andb_false_r.
Qed.

Lemma gl_iterate_escape (k : nat) :
  Z.of_nat k <= ComputeShader.maxDepth u ->
  (forall j, (j < k)%nat -> F32.leb (norm2 (orbit c j)) F32.four = true) ->
  F32.leb (norm2 (orbit c k)) F32.four = false ->
  ComputeShader.iterate u c = orbit c k.
Proof.
  intros Hk Hbefore Hend. unfold ComputeShader.iterate, ComputeShader.init, orbit.
  apply for_loop_stops.
  - lia.
  - intros j Hj. change (turns (body c) j (mkLoop 0 c (vmul c c))) with (orbit c j). rewrite gl_cond_orbit by lia.
    rewrite Hbefore by exact Hj.
    destruct (Z.leb_spec (Z.of_nat j) (ComputeShader.maxDepth u));
      [reflexivity|lia].
  - change (turns (body c) k (mkLoop 0 c (vmul c c))) with (orbit c k). rewrite gl_cond_orbit by lia. rewrite Hend.
    apply andb_false_r.
Qed.

Lemma gl_iterate_full :
  (forall j, Z.of_nat j <= ComputeShader.maxDepth u ->
             F32.leb (norm2 (orbit c j)) F32.four = true) ->
  ComputeShader.iterate u c
  = orbit c (Z.to_nat (ComputeShader.maxDepth u + 1)).
Proof.
  intros Hall. unfold ComputeShader.iterate, ComputeShader.init, orbit. apply for_loop_runs.
  intros j Hj. change (turns (body c) j (mkLoop 0 c (vmul c c))) with (orbit c j). rewrite gl_cond_orbit by lia.
  rewrite Hall by lia.
  destruct (Z.leb_spec (Z.of_nat j) (ComputeShader.maxDepth u));
    [reflexivity|lia].
Qed.

End ShaderLoop.

(** ** Classification after the loop *)

Lemma cl_member_iff (log : float -> float) (a : OpenCL.args) (s : loop_state) :
  OpenCL.classify log a s = Member <-> to_uint (depth s) = OpenCL.maxDepth a.
Proof.
  unfold OpenCL.classify.
  destruct (Z.eqb_spec (to_uint (depth s)) (OpenCL.maxDepth a)) as [He|Hn].
  - split; auto.
  - split; [discriminate|contradiction].
Qed.

Lemma gl_member_iff (log : float -> float) (tie : float -> bool)
    (u : ComputeShader.uniforms) (s : loop_state) :
  ComputeShader.classify log tie u s = Member
  <-> ComputeShader.maxDepth u < depth s.
Proof.
  unfold ComputeShader.classify.
  destruct (Z.ltb_spec (ComputeShader.maxDepth u) (depth s)) as [Hlt|Hge].
  - split; auto.
  - split; [discriminate|lia].
Qed.

Lemma cl_escape_monotone (log : float -> float) (a : OpenCL.args) (c : float2)
    (n n' : Z) :
  1 <= n -> n < n' -> n' < 2 ^ 32 ->
  OpenCL.shade_of log (cl_with_maxDepth a n) c <> Member ->
  OpenCL.shade_of log (cl_with_maxDepth a n') c <> Member /\
  OpenCL.iterate (cl_with_maxDepth a n') c
  = OpenCL.iterate (cl_with_maxDepth a n) c.
Proof.
  intros H1 Hlt Hmax Hesc.
  unfold OpenCL.shade_of in *. rewrite cl_member_iff in Hesc.
  destruct (cl_iterate_orbit (cl_with_maxDepth a n) c) as
    (k & Hk & Heq & Hbefore & Hend); [simpl; lia|].
  simpl in Hk, Hend. rewrite Heq in Hesc. simpl in Hesc.
  rewrite uint_depth_orbit in Hesc by lia.
  destruct Hend as [Hend|[Hkn Hend]]; [contradiction|].
  assert (Heq' : OpenCL.iterate (cl_with_maxDepth a n') c = orbit c k).
  { apply cl_iterate_escape; simpl; try lia; assumption. }
  split.
  - rewrite cl_member_iff, Heq'. simpl. rewrite uint_depth_orbit by lia. lia.
  - now rewrite Heq, Heq'.
Qed.

Lemma gl_escape_monotone (log : float -> float) (tie : float -> bool)
    (u : ComputeShader.uniforms) (c : float2) (n n' : Z) :
  1 <= n -> n < n' -> n' < 2 ^ 31 ->
  ComputeShader.shade_of log tie (gl_with_maxDepth u n) c <> Member ->
  ComputeShader.shade_of log tie (gl_with_maxDepth u n') c <> Member /\
  ComputeShader.iterate (gl_with_maxDepth u n') c
  = ComputeShader.iterate (gl_with_maxDepth u n) c.
Proof.
  intros H1 Hlt Hmax Hesc.
  unfold ComputeShader.shade_of in *. rewrite gl_member_iff in Hesc.
  destruct (gl_iterate_orbit (gl_with_maxDepth u n) c) as
    (k & Hk & Heq & Hbefore & Hend); [simpl; lia|].
  simpl in Hk, Hend. rewrite Heq in Hesc. simpl in Hesc.
  rewrite depth_orbit_small in Hesc by lia.
  destruct Hend as [Hend|[Hkn Hend]]; [lia|].
  assert (Heq' : ComputeShader.iterate (gl_with_maxDepth u n') c = orbit c k).
  { apply gl_iterate_escape; simpl; try lia; assumption. }
  split.
  - rewrite gl_member_iff, Heq'. simpl. rewrite depth_orbit_small by lia. lia.
  - now rewrite Heq, Heq'.
Qed.

(** ** The orbit of the origin *)

Lemma at_origin_turn (c : float2) (s : loop_state) :
  is_zero (vx c) = true -> is_zero (vy c) = true ->
  at_origin s -> at_origin (incr (body c s)).
Proof.
  intros Hx Hy (Hzx & Hzy & Hz2).
  destruct c as [cx cy], s as [d [zx zy] sq]. simpl in *. subst sq.
  destruct cx as [sx| | |]; try discriminate.
  destruct cy as [sy| | |]; try discriminate.
  destruct zx as [tx| | |]; try discriminate.
  destruct zy as [ty| | |]; try discriminate.
  unfold at_origin; simpl.
  destruct sx, sy, tx, ty; repeat split; reflexivity.
Qed.

Lemma at_origin_orbit (c : float2) (k : nat) :
  is_zero (vx c) = true -> is_zero (vy c) = true -> at_origin (orbit c k).
Proof.
  intros Hx Hy. induction k as [|k IH].
  - destruct c as [[sx| | |] [sy| | |]]; try discriminate.
    unfold at_origin, orbit; simpl. destruct sx, sy; repeat split; reflexivity.
  - rewrite orbit_succ. now apply at_origin_turn.
Qed.

Lemma at_origin_norm2 (s : loop_state) :
  at_origin s -> norm2 s = F32.zero.
Proof. intros (_ & _ & H). unfold norm2. now rewrite H. Qed.

Lemma cl_origin_member (log : float -> float) (a : OpenCL.args) (c : float2) :
  0 <= OpenCL.maxDepth a < 2 ^ 32 ->
  is_zero (vx c) = true -> is_zero (vy c) = true ->
  OpenCL.iterate a c = orbit c (Z.to_nat (OpenCL.maxDepth a)) /\
  OpenCL.shade_of log a c = Member.
Proof.
  intros Hmax Hx Hy.
  assert (Hrun : OpenCL.iterate a c = orbit c (Z.to_nat (OpenCL.maxDepth a))).
  { apply cl_iterate_full; [exact Hmax|]. intros j _.
    now rewrite (at_origin_norm2 _ (at_origin_orbit c j Hx Hy)). }
  split; [exact Hrun|].
  unfold OpenCL.shade_of. rewrite cl_member_iff, Hrun.
  rewrite uint_depth_orbit; lia.
Qed.

Lemma gl_origin_member (log : float -> float) (tie : float -> bool)
    (u : ComputeShader.uniforms) (c : float2) :
  - 1 <= ComputeShader.maxDepth u < 2 ^ 31 - 1 ->
  is_zero (vx c) = true -> is_zero (vy c) = true ->
  ComputeShader.iterate u c
  = orbit c (Z.to_nat (ComputeShader.maxDepth u + 1)) /\
  ComputeShader.shade_of log tie u c = Member.
Proof.
  intros Hmax Hx Hy.
  assert (Hrun : ComputeShader.iterate u c
                 = orbit c (Z.to_nat (ComputeShader.maxDepth u + 1))).
  { apply gl_iterate_full; [exact Hmax|]. intros j _.
    now rewrite (at_origin_norm2 _ (at_origin_orbit c j Hx Hy)). }
  split; [exact Hrun|].
  unfold ComputeShader.shade_of. rewrite gl_member_iff, Hrun.
  rewrite depth_orbit_small; lia.
Qed.

(** ** Where the two loops differ *)




(** With [1.0f] as first argument [fmin] and [min] return the same. *)
Lemma fmin_min_one (y : float) : F32.fmin F32.one y = F32.min F32.one y.
Proof. destruct y; reflexivity. Qed.


(** * Binary32 arithmetic *)

(** ** Binary32 rounding *)

Lemma digits_pos (m : positive) : 0 < digits m.
Proof. unfold digits. lia. Qed.

Lemma digits_bounds (m : positive) :
  2 ^ (digits m - 1) <= Zpos m < 2 ^ digits m.
Proof.
  unfold digits. induction m as [m IH|m IH|]; simpl digits2_pos.
  - rewrite Pos2Z.inj_succ. change (Zpos m~1) with (2 * Zpos m + 1).
    replace (Z.succ (Zpos (digits2_pos m)) - 1)
      with (Z.succ (Zpos (digits2_pos m) - 1)) by lia.
    rewrite !Z.pow_succ_r by lia. plia.
  - rewrite Pos2Z.inj_succ. change (Zpos m~0) with (2 * Zpos m).
    replace (Z.succ (Zpos (digits2_pos m)) - 1)
      with (Z.succ (Zpos (digits2_pos m) - 1)) by lia.
    rewrite !Z.pow_succ_r by lia. plia.
  - vm_compute. split; [discriminate|reflexivity].
Qed.

Lemma digits_unique (m : positive) (d : Z) :
  2 ^ (d - 1) <= Zpos m < 2 ^ d -> digits m = d.
Proof.
  intros [Hlo Hhi]. pose proof (digits_bounds m) as [Hlo' Hhi'].
  pose proof (digits_pos m) as Hd.
  assert (0 < d).
  { destruct (Z.ltb_spec 0 d) as [|Hle]; [assumption|].
    assert (2 ^ d <= 1); [|lia].
    destruct (Z.eq_dec d 0) as [->|]; [simpl; lia|].
    rewrite Z.pow_neg_r by lia. lia. }
  assert (digits m - 1 < d).
  { apply (Z.pow_lt_mono_r_iff 2); lia. }
  assert (d - 1 < digits m).
  { apply (Z.pow_lt_mono_r_iff 2); lia. }
  lia.
Qed.

(** *** Shifting right with a round bit and a sticky bit *)

Lemma shr_1_spec (m : Z) (r s : bool) :
  0 <= m ->
  shr_1 (Build_shr_record m r s)
  = Build_shr_record (m / 2) (Z.odd m) (r || s).
Proof.
  intros Hm. destruct m as [|p|p]; [reflexivity| |lia].
  destruct p as [p|p|]; simpl shr_1.
  - f_equal. change (Zpos p~1) with (2 * Zpos p + 1). apply Z.div_unique with 1; lia.
  - f_equal. change (Zpos p~0) with (2 * Zpos p). apply Z.div_unique with 0; lia.
  - reflexivity.
Qed.

Lemma shifted_step (h j : Z) :
  0 <= h -> 0 <= j -> shr_1 (shifted h j) = shifted h (j + 1).
Proof.
  intros Hh Hj. unfold shifted.
  rewrite shr_1_spec by (apply Z.div_pos; [lia|apply Z.pow_pos_nonneg; lia]).
  assert (H2j : 0 < 2 ^ j) by (apply Z.pow_pos_nonneg; lia).
  assert (Hp : 2 ^ (j + 1) = 2 ^ j * 2) by (rewrite Z.pow_add_r by lia; reflexivity).
  f_equal.
  - rewrite (Z.pow_add_r 2 (j + 1) 1) by lia.
    rewrite <- Z.div_div by lia. reflexivity. 
  - rewrite Hp. rewrite Z.rem_mul_r by lia.
    pose proof (Z.mod_pos_bound h (2 ^ j) H2j).
    pose proof (Z.mod_pos_bound (h / 2 ^ j) 2 ltac:(lia)).
    rewrite (Zodd_mod (h / 2 ^ j)).
    destruct (Z.eqb_spec (h mod 2 ^ j) 0) as [E0|N0];
    destruct (Z.eqb_spec ((h / 2 ^ j) mod 2) 1) as [E1|N1]; simpl;
    symmetry.
    + apply negb_true_iff, Z.eqb_neq. nia.
    + apply negb_false_iff, Z.eqb_eq. nia.
    + apply negb_true_iff, Z.eqb_neq. nia.
    + apply negb_true_iff, Z.eqb_neq. nia.
Qed.

Lemma iter_pos_shifted (p : positive) (h j : Z) :
  0 <= h -> 0 <= j ->
  iter_pos shr_1 p (shifted h j) = shifted h (j + Zpos p).
Proof.
  intros Hh. revert j. induction p as [p IH|p IH|]; intros j Hj; cbn [iter_pos].
  - rewrite shifted_step, IH, IH by lia. f_equal. lia.
  - rewrite IH, IH by lia. f_equal. lia.
  - now apply shifted_step.
Qed.

Lemma shifted_0 (m : Z) :
  shifted (2 * m) 0 = Build_shr_record m false false.
Proof.
  unfold shifted. simpl (2 ^ (0 + 1)). simpl (2 ^ 0).
  rewrite Z.div_1_r, Z.mod_1_r. f_equal.
  - rewrite Z.mul_comm. apply Z.div_mul. lia.
  - rewrite Z.odd_mul. reflexivity.
Qed.

Lemma shr_spec (m e : Z) (p : positive) :
  0 <= m ->
  shr (Build_shr_record m false false) e (Zpos p)
  = (shifted (2 * m) (Zpos p), e + Zpos p).
Proof.
  intros Hm. unfold shr. rewrite <- shifted_0.
  rewrite iter_pos_shifted by lia. reflexivity.
Qed.

Lemma shifted_m (m k : Z) : 0 <= k -> shr_m (shifted (2 * m) k) = m / 2 ^ k.
Proof.
  intros Hk. unfold shifted. cbn [shr_m].
  rewrite Z.pow_add_r by lia. change (2 ^ 1) with 2.
  rewrite (Z.mul_comm (2 ^ k) 2), Z.div_mul_cancel_l; try lia.
Qed.

Lemma round_shift_range (m k : Z) :
  0 <= k -> m / 2 ^ k <= round_shift m k <= m / 2 ^ k + 1.
Proof.
  intros Hk. unfold round_shift. rewrite shifted_m by lia.
  unfold shifted, loc_of_shr_record, round_nearest_even.
  destruct (Z.odd (2 * m / 2 ^ k)), (negb (2 * m mod 2 ^ k =? 0));
    try destruct (Z.even (m / 2 ^ k)); lia.
Qed.

Lemma round_shift_exact (m k : Z) :
  0 <= k -> m mod 2 ^ k = 0 -> round_shift m k = m / 2 ^ k.
Proof.
  intros Hk Hmod. unfold round_shift. rewrite shifted_m by lia.
  assert (H2k : 0 < 2 ^ k) by (apply Z.pow_pos_nonneg; lia).
  assert (Hm : m = 2 ^ k * (m / 2 ^ k)).
  { pose proof (Z.div_mod m (2 ^ k) ltac:(lia)). lia. }
  unfold shifted, loc_of_shr_record, round_nearest_even.
  assert (H1 : 2 * m / 2 ^ k = 2 * (m / 2 ^ k)).
  { rewrite Hm at 1.
    replace (2 * (2 ^ k * (m / 2 ^ k))) with (2 * (m / 2 ^ k) * 2 ^ k) by lia.
    apply Z.div_mul. lia. }
  assert (H2 : 2 * m mod 2 ^ k = 0).
  { rewrite Hm.
    replace (2 * (2 ^ k * (m / 2 ^ k))) with (2 * (m / 2 ^ k) * 2 ^ k) by lia.
    apply Z.mod_mul. lia. }
  rewrite H1, H2, Z.odd_mul. reflexivity.
Qed.

(** *** The exponent function of binary32 *)

Lemma fexp_32 (e : Z) : fexp F32.prec F32.emax e = fexp32 e.
Proof. reflexivity. Qed.

Lemma shr_nop (r : shr_record) (e n : Z) : n <= 0 -> shr r e n = (r, e).
Proof. intros Hn. unfold shr. destruct n; try reflexivity. lia. Qed.

Lemma round_aux_noshift (s : bool) (m : positive) (e : Z) :
  fexp32 (digits m + e) <= e ->
  round_aux s m e
  = if e <=? 104 then S754_finite s m e else S754_infinity s.
Proof.
  intros Hk. unfold round_aux, binary_round_aux, shr_fexp.
  cbn [Zdigits2 shr_record_of_loc]. fold (digits m). fold_fexp32.
  rewrite shr_nop by lia.
  cbn [shr_m loc_of_shr_record round_nearest_even Zdigits2 shr_record_of_loc].
  fold (digits m). fold_fexp32. rewrite shr_nop by lia. reflexivity.
Qed.

Lemma div_pow_lt (m d k : Z) :
  0 <= k -> 0 <= m < 2 ^ d -> d <= 24 + k -> m / 2 ^ k < 2 ^ 24.
Proof.
  intros Hk [Hm0 Hm] Hd.
  apply Z.div_lt_upper_bound; [apply Z.pow_pos_nonneg; lia|].
  rewrite <- Z.pow_add_r by lia.
  apply Z.lt_le_trans with (2 ^ d); [exact Hm|].
  apply Z.pow_le_mono_r; lia.
Qed.

Lemma round_aux_shift (s : bool) (m : positive) (e : Z) :
  e < fexp32 (digits m + e) ->
  round_aux s m e
  = pack s (round_shift (Zpos m) (fexp32 (digits m + e) - e))
         (fexp32 (digits m + e)).
Proof.
  intros Hk. set (e1 := fexp32 (digits m + e)) in *.
  assert (He1 : - 149 <= e1 /\ digits m + e - 24 <= e1)
    by (unfold e1, fexp32; lia).
  unfold round_aux, binary_round_aux, shr_fexp.
  cbn [Zdigits2 shr_record_of_loc]. fold (digits m). fold_fexp32. fold e1.
  destruct (e1 - e) as [|p|p] eqn:Ek; try lia.
  rewrite shr_spec by lia.
  fold (round_shift (Zpos m) (Zpos p)).
  replace (e + Zpos p) with e1 by lia.
  pose proof (round_shift_range (Zpos m) (Zpos p) ltac:(lia)) as Hr.
  pose proof (digits_bounds m) as Hd.
  assert (Hq : 0 <= Zpos m / 2 ^ Zpos p < 2 ^ 24).
  { split.
    - apply Z.div_pos; [lia|apply Z.pow_pos_nonneg; lia].
    - apply (div_pow_lt _ (digits m)); lia. }
  destruct (round_shift (Zpos m) (Zpos p)) as [|q|q] eqn:Eq; try lia.
  - (* rounded to zero *)
    cbn [Zdigits2 shr_record_of_loc]. fold_fexp32.
    rewrite shr_nop by (unfold fexp32; lia). reflexivity.
  - cbn [Zdigits2 shr_record_of_loc]. fold (digits q). fold_fexp32.
    unfold pack.
    destruct (Z.eqb_spec (Zpos q) (2 ^ 24)) as [E24|N24].
    + (* the mantissa was rounded up to 2 ^ 24 *)
      assert (Hdq : digits q = 25).
      { apply digits_unique. rewrite E24. split; [discriminate|reflexivity]. }
      rewrite Hdq.
      replace (fexp32 (25 + e1) - e1) with 1 by (unfold fexp32; lia).
      injection E24 as ->. reflexivity.
    + assert (Hdq : digits q <= 24).
      { pose proof (digits_bounds q) as Hb. pose proof (digits_pos q).
        assert (Hlt : 2 ^ (digits q - 1) < 2 ^ 24) by lia.
        apply Z.pow_lt_mono_r_iff in Hlt; lia. }
      rewrite shr_nop by (unfold fexp32; lia). reflexivity.
Qed.

(** *** Canonical floats and their values *)

Lemma bounded_canonical (m : positive) (e : Z) :
  bounded F32.prec F32.emax m e = true <-> canonical m e.
Proof.
  unfold bounded, canonical_mantissa, canonical.
  rewrite andb_true_iff, Z.eqb_eq, Z.leb_le. reflexivity.
Qed.

Lemma canonical_digits (m : positive) (e : Z) :
  canonical m e ->
  digits m <= 24 /\ - 149 <= e /\ (- 149 < e -> digits m = 24).
Proof. unfold canonical, fexp32. lia. Qed.

Lemma pow2_pos (e : Z) : 0 <= e -> 0 < 2 ^ e.
Proof. intros He. apply Z.pow_pos_nonneg; lia. Qed.

Lemma pow2_split (a b : Z) : 0 <= b <= a -> 2 ^ a = 2 ^ (a - b) * 2 ^ b.
Proof. intros H. rewrite <- Z.pow_add_r by lia. f_equal. lia. Qed.

Lemma digits_ge (m : positive) (n : Z) :
  0 <= n -> 2 ^ n <= Zpos m -> n < digits m.
Proof.
  intros Hn Hm. pose proof (digits_bounds m) as [_ Hhi].
  pose proof (digits_pos m).
  apply (Z.pow_lt_mono_r_iff 2); lia.
Qed.

Lemma digits_le (m : positive) (n : Z) :
  0 <= n -> Zpos m < 2 ^ n -> digits m <= n.
Proof.
  intros Hn Hm. pose proof (digits_bounds m) as [Hlo _].
  pose proof (digits_pos m).
  assert (Hlt : 2 ^ (digits m - 1) < 2 ^ n) by lia.
  apply Z.pow_lt_mono_r_iff in Hlt; lia.
Qed.

(** Magnitudes follow values. *)
Lemma magnitude_le (m1 : positive) (e1 : Z) (m2 : positive) (e2 : Z) (l : Z) :
  l <= e1 -> l <= e2 ->
  Zpos m1 * 2 ^ (e1 - l) <= Zpos m2 * 2 ^ (e2 - l) ->
  digits m1 + e1 <= digits m2 + e2.
Proof.
  intros Hl1 Hl2 H.
  pose proof (digits_bounds m1) as [Hlo1 _].
  pose proof (digits_bounds m2) as [_ Hhi2].
  pose proof (digits_pos m1). pose proof (digits_pos m2).
  destruct (Z.le_gt_cases (digits m1 + e1) (digits m2 + e2)) as [|Hgt];
    [assumption|exfalso].
  assert (Hp : 2 ^ (digits m2 + e2 - l) <= 2 ^ (digits m1 - 1 + e1 - l))
    by (apply Z.pow_le_mono_r; lia).
  replace (digits m2 + e2 - l) with (digits m2 + (e2 - l)) in Hp by lia.
  replace (digits m1 - 1 + e1 - l) with (digits m1 - 1 + (e1 - l)) in Hp by lia.
  rewrite !Z.pow_add_r in Hp by lia.
  pose proof (pow2_pos (e1 - l) ltac:(lia)).
  pose proof (pow2_pos (e2 - l) ltac:(lia)).
  pnia.
Qed.

Lemma round_up_le (m k g : Z) :
  0 <= k -> 0 <= m -> m <= g * 2 ^ k -> round_shift m k <= g.
Proof.
  intros Hk Hm Hg.
  pose proof (pow2_pos k Hk) as H2k.
  pose proof (Z.div_mod m (2 ^ k) ltac:(lia)) as Hdm.
  pose proof (Z.mod_pos_bound m (2 ^ k) H2k) as Hr.
  destruct (Z.eq_dec (m mod 2 ^ k) 0) as [E0|N0].
  - rewrite round_shift_exact by assumption. pnia.
  - pose proof (round_shift_range m k Hk). 
    assert (m / 2 ^ k < g) by pnia. lia.
Qed.

Lemma round_aux_below (M : positive) (E : Z) (mb : positive) (eb : Z) :
  - 298 <= E ->
  E <= fexp32 (digits M + E) ->
  canonical mb eb ->
  Zpos M * 2 ^ (E + 298) <= scaled mb eb * 2 ^ 149 ->
  below (round_aux false M E) (scaled mb eb).
Proof.
  intros HE Hk Hcan H.
  pose proof (canonical_digits mb eb Hcan) as (Hdb & Heb & _).
  destruct Hcan as [Hfb Hb104].
  pose proof (digits_bounds M) as HdM.
  pose proof (digits_bounds mb) as Hdmb.
  pose proof (digits_pos M) as HpM.
  unfold scaled in *.
  assert (Hmag : digits M + E <= digits mb + eb).
  { apply (magnitude_le M E mb eb (- 298)); try lia.
    replace (E - - 298) with (E + 298) by lia.
    replace (eb - - 298) with (eb + 149 + 149) by lia.
    rewrite (Z.pow_add_r 2 (eb + 149) 149) by lia. plia. }
  assert (He1 : - 149 <= fexp32 (digits M + E) /\
                fexp32 (digits M + E) <= eb /\
                digits M + E - 24 <= fexp32 (digits M + E) /\
                (fexp32 (digits M + E) = - 149 \/
                 fexp32 (digits M + E) = digits M + E - 24))
    by (unfold fexp32 in *; lia).
  destruct (Z.eq_dec E (fexp32 (digits M + E))) as [Eeq|Ene].
  - (* no rounding *)
    rewrite round_aux_noshift by lia.
    destruct (Z.leb_spec E 104); [|lia].
    right. exists M, E. split; [reflexivity|]. split.
    + split; lia.
    + unfold scaled.
      replace (E + 298) with (E + 149 + 149) in H by lia.
      rewrite (Z.pow_add_r 2 (E + 149) 149) in H by lia.
      pose proof (pow2_pos 149 ltac:(lia)). pnia.
  - rewrite round_aux_shift by lia.
    remember (fexp32 (digits M + E)) as e1 eqn:He1def.
    remember (e1 - E) as k eqn:Hkdef.
    remember (Zpos mb * 2 ^ (eb - e1)) as g eqn:Hgdef.
    assert (Hg : Zpos M <= g * 2 ^ k).
    { subst g k.
      assert (Hp : 2 ^ (eb + 149) * 2 ^ 149
                   = 2 ^ (eb - e1) * 2 ^ (e1 - E) * 2 ^ (E + 298)).
      { rewrite <- !Z.pow_add_r by lia. f_equal. lia. }
      apply (Z.mul_le_mono_pos_r _ _ (2 ^ (E + 298))); [apply pow2_pos; lia|].
      eapply Z.le_trans; [exact H|].
      rewrite <- (Z.mul_assoc (Zpos mb)), Hp. pnia. }
    pose proof (round_up_le (Zpos M) k g ltac:(lia) ltac:(lia) Hg) as Hq.
    pose proof (round_shift_range (Zpos M) k ltac:(lia)) as Hr.
    assert (Hq0 : 0 <= Zpos M / 2 ^ k < 2 ^ 24).
    { split.
      - apply Z.div_pos; [lia|apply pow2_pos; lia].
      - apply (div_pow_lt _ (digits M)); plia. }
    assert (Hscale : forall q,
               q <= g -> q * 2 ^ (e1 + 149) <= Zpos mb * 2 ^ (eb + 149)).
    { intros q Hle. rewrite Hgdef in Hle.
      replace (eb + 149) with (eb - e1 + (e1 + 149)) by lia.
      rewrite (Z.pow_add_r 2 (eb - e1) (e1 + 149)) by lia.
      pose proof (pow2_pos (e1 + 149) ltac:(lia)). pnia. }
    unfold pack.
    destruct (round_shift (Zpos M) k) as [|q|q] eqn:Eq; [now left| |lia].
    destruct (Z.eqb_spec (Zpos q) (2 ^ 24)) as [E24|N24].
    + (* rounded up to the next binade *)
      assert (Hlt : e1 < eb).
      { destruct (Z.eq_dec e1 eb) as [Heq|]; [|lia]. exfalso.
        rewrite Hgdef, Heq, Z.sub_diag, Z.mul_1_r in Hq.
        assert (Zpos mb < 2 ^ 24); [|lia].
        apply Z.lt_le_trans with (2 ^ digits mb); [plia|].
        apply Z.pow_le_mono_r; lia. }
      destruct (Z.leb_spec (e1 + 1) 104); [|lia].
      right. exists (2 ^ 23)%positive, (e1 + 1).
      split; [reflexivity|]. split.
      * split; [|lia].
        replace (digits (2 ^ 23)) with 24 by reflexivity.
        unfold fexp32. lia.
      * unfold scaled. specialize (Hscale (Zpos q) Hq). rewrite E24 in Hscale.
        replace (e1 + 1 + 149) with (1 + (e1 + 149)) by lia.
        rewrite Z.pow_add_r by lia.
        change (Zpos (2 ^ 23)) with (2 ^ 23). plia.
    + destruct (Z.leb_spec e1 104); [|lia].
      right. exists q, e1. split; [reflexivity|]. split.
      * split; [|lia].
        assert (Hdq : digits q <= 24) by (apply digits_le; lia).
        destruct He1 as (Hlo & _ & _ & [Hsub|Hnorm]);
          [unfold fexp32; lia|].
        assert (Hge : 2 ^ 23 <= Zpos M / 2 ^ k).
        { apply Z.div_le_lower_bound; [apply pow2_pos; lia|].
          replace k with (digits M - 24) by lia.
          rewrite Z.mul_comm, <- Z.pow_add_r by lia.
          replace (23 + (digits M - 24)) with (digits M - 1) by lia. plia. }
        assert (23 < digits q) by (apply digits_ge; lia).
        unfold fexp32. lia.
      * unfold scaled. now apply Hscale.
Qed.

(** *** Aligning and rounding *)

Lemma iter_xO (m d : positive) :
  Zpos (Pos.iter xO m d) = Zpos m * 2 ^ Zpos d.
Proof.
  induction d as [|d IH] using Pos.peano_ind.
  - change (Zpos (Pos.iter xO m 1)) with (2 * Zpos m). change (2 ^ 1) with 2.
    ring.
  - rewrite Pos.iter_succ, Pos2Z.inj_succ, Z.pow_succ_r by lia.
    change (Zpos (Pos.iter xO m d)~0) with (2 * Zpos (Pos.iter xO m d)).
    rewrite IH. ring.
Qed.

Lemma digits_shift (m m' : positive) (j : Z) :
  0 <= j -> Zpos m' = Zpos m * 2 ^ j -> digits m' = digits m + j.
Proof.
  intros Hj Hm. apply digits_unique. rewrite Hm.
  pose proof (digits_bounds m) as [Hlo Hhi]. pose proof (digits_pos m).
  replace (digits m + j - 1) with (digits m - 1 + j) by lia.
  rewrite !Z.pow_add_r by lia.
  pose proof (pow2_pos j Hj). pnia.
Qed.

(** [binary_round] brings the exponent down to that of the format when the
    mantissa is short, and rounds otherwise. *)
Lemma round_align (s : bool) (m : positive) (e : Z) :
  fexp32 (digits m + e) < e ->
  exists m',
    Zpos m' = Zpos m * 2 ^ (e - fexp32 (digits m + e)) /\
    round_ne s m e = round_aux s m' (fexp32 (digits m + e)).
Proof.
  intros Hlt. unfold round_ne, binary_round, shl_align. fold (digits m).
  fold_fexp32.
  destruct (fexp32 (digits m + e) - e) as [|d|d] eqn:Ed; try lia.
  exists (Pos.iter xO m d). split; [|reflexivity].
  rewrite iter_xO. f_equal. f_equal. lia.
Qed.

Lemma round_noalign (s : bool) (m : positive) (e : Z) :
  e <= fexp32 (digits m + e) -> round_ne s m e = round_aux s m e.
Proof.
  intros Hle. unfold round_ne, binary_round, shl_align. fold (digits m).
  fold_fexp32.
  destruct (fexp32 (digits m + e) - e) as [|d|d] eqn:Ed; try lia; reflexivity.
Qed.

Lemma round_below (M : positive) (E : Z) (mb : positive) (eb : Z) :
  - 298 <= E ->
  canonical mb eb ->
  Zpos M * 2 ^ (E + 298) <= scaled mb eb * 2 ^ 149 ->
  below (round_ne false M E) (scaled mb eb).
Proof.
  intros HE Hcan H.
  destruct (Z.lt_ge_cases (fexp32 (digits M + E)) E) as [Hlt|Hge].
  - destruct (round_align false M E Hlt) as (M' & HM' & ->).
    assert (He1 : - 149 <= fexp32 (digits M + E)) by (unfold fexp32; lia).
    assert (Hd : digits M' + fexp32 (digits M + E) = digits M + E).
    { rewrite (digits_shift M M' (E - fexp32 (digits M + E))); lia. }
    apply round_aux_below.
    + lia.
    + rewrite Hd. lia.
    + exact Hcan.
    + rewrite HM'.
      replace (E + 298)
        with (E - fexp32 (digits M + E) + (fexp32 (digits M + E) + 298)) in H
        by lia.
      rewrite Z.pow_add_r in H by lia. rewrite Z.mul_assoc in H. exact H.
  - rewrite round_noalign by lia. now apply round_aux_below.
Qed.

(** A value that a canonical pair represents is rounded to that pair. *)
Lemma round_exact (s : bool) (M : positive) (E : Z) (N : positive) (F L : Z) :
  canonical N F -> L <= E -> L <= F ->
  Zpos M * 2 ^ (E - L) = Zpos N * 2 ^ (F - L) ->
  round_ne s M E = S754_finite s N F.
Proof.
  intros Hcan HLE HLF Hval.
  pose proof (canonical_digits N F Hcan) as (HdN & HF & _).
  destruct Hcan as [HfN H104].
  assert (Hmag : digits M + E = digits N + F).
  { apply Z.le_antisymm; apply (magnitude_le _ _ _ _ L); lia. }
  assert (He1 : fexp32 (digits M + E) <= F <= fexp32 (digits M + E))
    by (rewrite Hmag; lia).
  assert (HN24 : Zpos N < 2 ^ 24).
  { pose proof (digits_bounds N) as [_ Hhi].
    apply Z.lt_le_trans with (2 ^ digits N); [exact Hhi|].
    apply Z.pow_le_mono_r; lia. }
  clear Hmag.
  destruct (Z.lt_trichotomy F E) as [Hlt|[Heq|Hgt]].
  - destruct (round_align s M E ltac:(lia)) as (M' & HM' & ->).
    replace (fexp32 (digits M + E)) with F in * by lia.
    assert (M' = N).
    { apply Pos2Z.inj. rewrite HM'.
      replace (E - L) with (E - F + (F - L)) in Hval by lia.
      rewrite Z.pow_add_r, Z.mul_assoc in Hval by lia.
      apply Z.mul_cancel_r in Hval; [exact Hval|].
      pose proof (pow2_pos (F - L) ltac:(lia)). lia. }
    subst M'. rewrite round_aux_noshift by lia.
    destruct (Z.leb_spec F 104); [reflexivity|lia].
  - subst F. rewrite round_noalign by lia.
    assert (M = N).
    { apply Pos2Z.inj. apply Z.mul_cancel_r in Hval; [exact Hval|].
      pose proof (pow2_pos (E - L) ltac:(lia)). lia. }
    subst M. rewrite round_aux_noshift by lia.
    destruct (Z.leb_spec E 104); [reflexivity|lia].
  - rewrite round_noalign by lia. rewrite round_aux_shift by lia.
    replace (fexp32 (digits M + E)) with F by lia.
    assert (HMN : Zpos M = Zpos N * 2 ^ (F - E)).
    { replace (F - L) with (F - E + (E - L)) in Hval by lia.
      rewrite Z.pow_add_r, Z.mul_assoc in Hval by lia.
      apply Z.mul_cancel_r in Hval; [exact Hval|].
      pose proof (pow2_pos (E - L) ltac:(lia)). lia. }
    pose proof (pow2_pos (F - E) ltac:(lia)) as Hpos.
    rewrite round_shift_exact; try lia.
    + rewrite HMN, Z.div_mul by lia.
      unfold pack.
      destruct (Z.eqb_spec (Zpos N) (2 ^ 24)); [lia|].
      destruct (Z.leb_spec F 104); [reflexivity|lia].
    + rewrite HMN. apply Z.mod_mul. lia.
Qed.

(** *** Integers as floats *)

Lemma of_Z_exact (p : positive) :
  Zpos p < 2 ^ 24 ->
  exists N,
    Zpos N = Zpos p * 2 ^ (24 - digits p) /\
    canonical N (digits p - 24) /\
    F32.of_Z (Zpos p) = S754_finite false N (digits p - 24).
Proof.
  intros Hp. pose proof (digits_pos p) as Hd0.
  assert (Hd : digits p <= 24) by (apply digits_le; lia).
  pose proof (pow2_pos (24 - digits p) ltac:(lia)) as Hpos.
  exists (Z.to_pos (Zpos p * 2 ^ (24 - digits p))).
  assert (HN : Zpos (Z.to_pos (Zpos p * 2 ^ (24 - digits p)))
               = Zpos p * 2 ^ (24 - digits p)).
  { apply Z2Pos.id. apply Z.mul_pos_pos; lia. }
  assert (Hcan : canonical (Z.to_pos (Zpos p * 2 ^ (24 - digits p)))
                           (digits p - 24)).
  { split; [|lia].
    rewrite (digits_shift p _ (24 - digits p)) by (lia || exact HN).
    unfold fexp32. lia. }
  split; [exact HN|]. split; [exact Hcan|].
  change (F32.of_Z (Zpos p)) with (round_ne false p 0).
  apply (round_exact _ _ _ _ _ (digits p - 24)); try lia; try exact Hcan.
  rewrite HN, Z.sub_diag, Z.mul_1_r. f_equal. f_equal. lia.
Qed.

Lemma of_Z_canonical (n : Z) :
  0 < n <= 2 ^ 24 ->
  exists m e,
    F32.of_Z n = S754_finite false m e /\ canonical m e /\
    scaled m e = n * 2 ^ 149.
Proof.
  intros [Hn0 Hn]. destruct n as [|p|p]; try lia.
  destruct (Z.eq_dec (Zpos p) (2 ^ 24)) as [E|N].
  - injection E as ->. exists (2 ^ 23)%positive, 1.
    repeat split; reflexivity || discriminate.
  - destruct (of_Z_exact p ltac:(lia)) as (N' & HN & Hcan & Heq).
    exists N', (digits p - 24). split; [exact Heq|]. split; [exact Hcan|].
    unfold scaled. rewrite HN.
    pose proof (digits_pos p). assert (digits p <= 24) by (apply digits_le; lia).
    rewrite <- Z.mul_assoc, <- Z.pow_add_r by lia. f_equal. f_equal. lia.
Qed.

(** *** Order and values *)

Lemma leb_canonical (m1 : positive) (e1 : Z) (m2 : positive) (e2 : Z) :
  canonical m1 e1 -> canonical m2 e2 ->
  F32.leb (S754_finite false m1 e1) (S754_finite false m2 e2) = true ->
  scaled m1 e1 <= scaled m2 e2.
Proof.
  intros H1 H2. unfold F32.leb, SFleb, SFcompare, scaled.
  pose proof (canonical_digits _ _ H1) as (Hd1 & He1 & _).
  pose proof (canonical_digits _ _ H2) as (Hd2 & He2 & Hn2).
  destruct (Z.compare_spec e1 e2) as [->|Hlt|Hgt].
  - fold (Pos.compare m1 m2).
    destruct (Pos.compare_spec m1 m2) as [->|Hm|Hm]; try discriminate;
      intros _; [lia|].
    apply Z.mul_le_mono_nonneg_r; [apply Z.pow_nonneg; lia|lia].
  - intros _.
    pose proof (digits_bounds m1) as [_ Hhi1].
    pose proof (digits_bounds m2) as [Hlo2 _].
    rewrite (Hn2 ltac:(lia)) in Hlo2. simpl (24 - 1) in Hlo2.
    assert (Zpos m1 < 2 ^ 24).
    { apply Z.lt_le_trans with (2 ^ digits m1); [exact Hhi1|].
      apply Z.pow_le_mono_r; lia. }
    replace (e2 + 149) with (e2 - e1 + (e1 + 149)) by lia.
    rewrite (Z.pow_add_r 2 (e2 - e1) (e1 + 149)) by lia.
    pose proof (pow2_pos (e1 + 149) ltac:(lia)).
    assert (Ha : 2 ^ 1 <= 2 ^ (e2 - e1)) by (apply Z.pow_le_mono_r; lia).
    change (2 ^ 1) with 2 in Ha.
    assert (Hb : Zpos m1 <= Zpos m2 * 2 ^ (e2 - e1)) by pnia.
    rewrite Z.mul_assoc. apply Z.mul_le_mono_nonneg_r; lia.
  - discriminate.
Qed.

(** *** From a float to an integer *)

Lemma trunc_finite (m : positive) (e n : Z) :
  - 149 <= e -> 0 <= n < 2 ^ 31 ->
  n * 2 ^ 149 <= scaled m e < (n + 1) * 2 ^ 149 ->
  F32.trunc (S754_finite false m e) = Some n.
Proof.
  intros He Hn [Hlo Hhi]. unfold F32.trunc, F32.int_part, scaled in *.
  assert (Hv : (if 0 <=? e then Z.shiftl (Zpos m) e else Z.shiftr (Zpos m) (- e))
               = n).
  { destruct (Z.leb_spec 0 e) as [Hpos|Hneg].
    - rewrite Z.shiftl_mul_pow2 by lia.
      rewrite Z.pow_add_r, Z.mul_assoc in Hlo, Hhi by lia.
      pose proof (pow2_pos 149 ltac:(lia)). pnia.
    - rewrite Z.shiftr_div_pow2 by lia.
      assert (Hp : 2 ^ 149 = 2 ^ (- e) * 2 ^ (e + 149)).
      { rewrite <- Z.pow_add_r by lia. f_equal. lia. }
      rewrite Hp, Z.mul_assoc in Hlo, Hhi. clear Hp.
      pose proof (pow2_pos (e + 149) ltac:(lia)).
      pose proof (pow2_pos (- e) ltac:(lia)).
      symmetry. apply Z.div_unique with (Zpos m - n * 2 ^ (- e)); [|lia].
      left. pnia. }
  rewrite Hv.
  destruct (Z.leb_spec (- 2 ^ 31) n); [|lia].
  destruct (Z.ltb_spec n (2 ^ 31)); [reflexivity|lia].
Qed.

Lemma trunc_of_Z (n : Z) : 0 <= n <= 2 ^ 24 -> F32.trunc (F32.of_Z n) = Some n.
Proof.
  intros [Hn0 Hn]. destruct (Z.eq_dec n 0) as [->|Hne]; [reflexivity|].
  destruct (of_Z_canonical n ltac:(lia)) as (m & e & -> & Hcan & Hs).
  pose proof (canonical_digits _ _ Hcan) as (_ & He & _).
  apply trunc_finite; lia.
Qed.

(** *** Subtraction from one, multiplication by a number below one *)

Lemma shl_align_fst (m : positive) (e e' : Z) :
  e' <= e -> Zpos (fst (shl_align m e e')) = Zpos m * 2 ^ (e - e').
Proof.
  intros Hle. unfold shl_align.
  destruct (e' - e) as [|d|d] eqn:Ed; try lia.
  - replace (e - e') with 0 by lia. simpl fst. lia.
  - simpl fst. rewrite iter_xO. f_equal. f_equal. lia.
Qed.

Lemma canonical_one : canonical (2 ^ 23) (- 23).
Proof. split; [reflexivity|discriminate]. Qed.

Lemma scaled_one : scaled (2 ^ 23) (- 23) = 2 ^ 149.
Proof. reflexivity. Qed.

Lemma below_one (m : positive) (e : Z) :
  canonical m e -> scaled m e <= 2 ^ 149 ->
  e <= - 23 /\ Zpos m <= 2 ^ (- e).
Proof.
  intros Hcan Hs. pose proof (canonical_digits _ _ Hcan) as (Hd & He & Hn).
  unfold scaled in Hs.
  assert (Hle : e <= - 23).
  { destruct (Z.le_gt_cases e (- 23)) as [|Hgt]; [assumption|exfalso].
    pose proof (digits_bounds m) as [Hlo _].
    rewrite (Hn ltac:(lia)) in Hlo. change (24 - 1) with 23 in Hlo.
    assert (H1 : 2 ^ 127 <= 2 ^ (e + 149)) by (apply Z.pow_le_mono_r; lia).
    assert (H2 : 2 ^ 23 * 2 ^ 127 <= Zpos m * 2 ^ (e + 149)).
    { apply Z.mul_le_mono_nonneg; lia. }
    change (2 ^ 23 * 2 ^ 127) with (2 ^ 150) in H2.
    assert (2 ^ 149 < 2 ^ 150) by reflexivity. lia. }
  split; [exact Hle|].
  assert (Hp : 2 ^ 149 = 2 ^ (- e) * 2 ^ (e + 149)).
  { rewrite <- Z.pow_add_r by lia. f_equal. lia. }
  rewrite Hp in Hs.
  apply Z.mul_le_mono_pos_r in Hs; [exact Hs|apply pow2_pos; lia].
Qed.

Lemma sub_one_below (x : float) :
  valid x = true ->
  F32.leb F32.zero x = true -> F32.leb x F32.one = true ->
  below (F32.sub F32.one x) (2 ^ 149).
Proof.
  intros Hv H0 H1. destruct x as [s|s| |s m e].
  - right. exists (2 ^ 23)%positive, (- 23).
    split; [reflexivity|]. split; [exact canonical_one|].
    rewrite scaled_one. lia.
  - destruct s; discriminate.
  - discriminate.
  - destruct s; [discriminate|].
    apply bounded_canonical in Hv.
    pose proof (leb_canonical _ _ _ _ Hv canonical_one H1) as Hs.
    rewrite scaled_one in Hs.
    destruct (below_one m e Hv Hs) as [He Hm].
    pose proof (canonical_digits _ _ Hv) as (Hd & Hlo & _).
    unfold F32.sub, F32.one, SFsub.
    replace (Z.min (- 23) e) with e by lia.
    cbn [cond_Zopp].
    rewrite (shl_align_fst 8388608 (- 23) e) by lia.
    rewrite (shl_align_fst m e e) by lia.
    rewrite Z.sub_diag, Z.mul_1_r.
    assert (Hp : 8388608 * 2 ^ (- 23 - e) = 2 ^ (- e)).
    { change 8388608 with (2 ^ 23).
      rewrite <- Z.pow_add_r by lia. f_equal. lia. }
    rewrite Hp.
    destruct (2 ^ (- e) - Zpos m) as [|D|D] eqn:ED; try lia.
    + now left.
    + unfold binary_normalize. fold (round_ne false D e).
      rewrite <- scaled_one.
      apply round_below; [lia|exact canonical_one|].
      rewrite scaled_one.
      assert (Hq : 2 ^ 149 * 2 ^ 149 = 2 ^ (- e) * 2 ^ (e + 298)).
      { rewrite <- !Z.pow_add_r by lia. f_equal. lia. }
      rewrite Hq.
      apply Z.mul_le_mono_nonneg_r; [apply Z.pow_nonneg; lia|lia].
Qed.

Lemma digits_mul_ge (a b : positive) : digits a <= digits (a * b).
Proof.
  pose proof (digits_bounds a) as [Hlo _]. pose proof (digits_pos a).
  assert (digits a - 1 < digits (a * b)); [|lia].
  apply digits_ge; [lia|]. rewrite Pos2Z.inj_mul. nia.
Qed.

Lemma mul_below (t : float) (mb : positive) (eb : Z) :
  below t (2 ^ 149) -> canonical mb eb ->
  below (F32.mul t (S754_finite false mb eb)) (scaled mb eb).
Proof.
  intros [->|(mt & et & -> & Hcan & Hs)] Hb; [now left|].
  pose proof (canonical_digits _ _ Hcan) as (Hdt & Het & Hnt).
  pose proof (canonical_digits _ _ Hb) as (Hdb & Heb & Hnb).
  unfold F32.mul, SFmul. cbn [xorb]. fold (round_aux false (mt * mb) (et + eb)).
  apply round_aux_below; [lia| |exact Hb|].
  - pose proof (digits_mul_ge mt mb). pose proof (digits_mul_ge mb mt).
    rewrite (Pos.mul_comm mb mt) in *.
    unfold fexp32.
    destruct (Z.eq_dec et (- 149)); destruct (Z.eq_dec eb (- 149)); lia.
  - unfold scaled in *. rewrite Pos2Z.inj_mul.
    replace (et + eb + 298) with (et + 149 + (eb + 149)) by lia.
    rewrite Z.pow_add_r by lia.
    pose proof (pow2_pos (eb + 149) ltac:(lia)). pnia.
Qed.

(** *** Floor, round and the conversion to [int] *)

Lemma int_part_range (m : positive) (e : Z) :
  e < 0 -> digits m <= 24 ->
  0 <= F32.int_part m e < 2 ^ 24 /\
  F32.int_part m e * 2 ^ (- e) <= Zpos m < (F32.int_part m e + 1) * 2 ^ (- e) /\
  F32.frac_part m e = Zpos m - F32.int_part m e * 2 ^ (- e).
Proof.
  intros He Hd. unfold F32.frac_part, F32.int_part.
  rewrite Z.shiftr_div_pow2, Z.shiftl_mul_pow2 by lia.
  pose proof (pow2_pos (- e) ltac:(lia)) as Hp.
  pose proof (Z.div_mod (Zpos m) (2 ^ (- e)) ltac:(lia)) as Hdm.
  pose proof (Z.mod_pos_bound (Zpos m) (2 ^ (- e)) Hp) as Hr.
  assert (Hm : Zpos m < 2 ^ 24).
  { pose proof (digits_bounds m) as [_ Hhi].
    apply Z.lt_le_trans with (2 ^ digits m); [exact Hhi|].
    apply Z.pow_le_mono_r; lia. }
  assert (Hq : 0 <= Zpos m / 2 ^ (- e)) by (apply Z.div_pos; lia).
  assert (Hq' : Zpos m / 2 ^ (- e) <= Zpos m).
  { apply Z.div_le_upper_bound; [lia|]. pnia. }
  repeat split; try lia; pnia.
Qed.

Lemma floor_index (p : float) (k : Z) :
  0 <= k < 2 ^ 31 -> below p (k * 2 ^ 149) ->
  exists n, F32.trunc (F32.floor p) = Some n /\ 0 <= n <= k.
Proof.
  intros Hk [->|(m & e & -> & Hcan & Hs)].
  - exists 0. split; [reflexivity|lia].
  - pose proof (canonical_digits _ _ Hcan) as (Hd & He & _).
    unfold F32.floor, scaled in *.
    destruct (Z.leb_spec 0 e) as [Hpos|Hneg].
    + exists (Zpos m * 2 ^ e).
      rewrite Z.pow_add_r, Z.mul_assoc in Hs by lia.
      pose proof (pow2_pos e Hpos). pose proof (pow2_pos 149 ltac:(lia)).
      assert (Hle : Zpos m * 2 ^ e <= k) by pnia.
      split; [|pnia].
      apply trunc_finite; [lia|pnia|].
      unfold scaled. rewrite Z.pow_add_r, Z.mul_assoc by lia. pnia.
    + destruct (int_part_range m e Hneg Hd) as (Hq & Hqm & _).
      exists (F32.int_part m e). split; [apply trunc_of_Z; lia|].
      split; [lia|].
      assert (Hp : 2 ^ 149 = 2 ^ (- e) * 2 ^ (e + 149)).
      { rewrite <- Z.pow_add_r by lia. f_equal. lia. }
      rewrite Hp, Z.mul_assoc in Hs.
      apply Z.mul_le_mono_pos_r in Hs; [|apply pow2_pos; lia].
      pose proof (pow2_pos (- e) ltac:(lia)). pnia.
Qed.

Lemma round_index (tie : float -> bool) (p : float) (k : Z) :
  0 <= k < 2 ^ 31 -> below p (k * 2 ^ 149) ->
  exists n, F32.trunc (F32.round tie p) = Some n /\ 0 <= n <= k.
Proof.
  intros Hk [->|(m & e & -> & Hcan & Hs)].
  - exists 0. split; [reflexivity|lia].
  - pose proof (canonical_digits _ _ Hcan) as (Hd & He & _).
    unfold F32.round, scaled in *.
    destruct (Z.leb_spec 0 e) as [Hpos|Hneg].
    + exists (Zpos m * 2 ^ e).
      rewrite Z.pow_add_r, Z.mul_assoc in Hs by lia.
      pose proof (pow2_pos e Hpos). pose proof (pow2_pos 149 ltac:(lia)).
      assert (Hle : Zpos m * 2 ^ e <= k) by pnia.
      split; [|pnia].
      apply trunc_finite; [lia|pnia|].
      unfold scaled. rewrite Z.pow_add_r, Z.mul_assoc by lia. pnia.
    + destruct (int_part_range m e Hneg Hd) as (Hq & Hqm & Hfrac).
      assert (Hp : 2 ^ 149 = 2 ^ (- e) * 2 ^ (e + 149)).
      { rewrite <- Z.pow_add_r by lia. f_equal. lia. }
      rewrite Hp, Z.mul_assoc in Hs.
      apply Z.mul_le_mono_pos_r in Hs; [|apply pow2_pos; lia].
      pose proof (pow2_pos (- e) ltac:(lia)) as Hpe.
      assert (Hhalf : 0 < Z.shiftl 1 (- e - 1)).
      { rewrite Z.shiftl_mul_pow2 by lia.
        pose proof (pow2_pos (- e - 1) ltac:(lia)). lia. }
      assert (Hqk : F32.int_part m e <= k) by pnia.
      assert (Hup : 0 < F32.frac_part m e -> F32.int_part m e + 1 <= k).
      { rewrite Hfrac. intros Hf. pnia. }
      set (q := F32.int_part m e) in *.
      set (r := F32.frac_part m e) in *.
      set (half := Z.shiftl 1 (- e - 1)) in *.
      assert (Hn : exists n,
                 (if r <? half then q
                  else if half <? r then q + 1
                  else if tie (S754_finite false m e) then q + 1 else q) = n
                 /\ 0 <= n <= k /\ n <= 2 ^ 24).
      { destruct (Z.ltb_spec r half).
        - exists q. repeat split; lia.
        - assert (q + 1 <= k) by (apply Hup; lia).
          destruct (Z.ltb_spec half r).
          + exists (q + 1). repeat split; lia.
          + destruct (tie _); [exists (q + 1)|exists q]; repeat split; lia. }
      destruct Hn as (n & -> & Hn & Hn24).
      exists n. split; [|exact Hn].
      destruct (Z.eqb_spec n 0) as [->|Hne]; [reflexivity|].
      apply trunc_of_Z. lia.
Qed.

(** *** Exact cases *)

Lemma mul_one_l (m : positive) (e : Z) :
  canonical m e ->
  F32.mul F32.one (S754_finite false m e) = S754_finite false m e.
Proof.
  intros Hcan. pose proof (canonical_digits _ _ Hcan) as (Hd & He & _).
  unfold F32.mul, F32.one, SFmul. cbn [xorb].
  fold (round_aux false (8388608 * m) (- 23 + e)).
  assert (Hdig : digits (8388608 * m) = digits m + 23).
  { apply (digits_shift m); [lia|]. rewrite Pos2Z.inj_mul.
    change (Zpos 8388608) with (2 ^ 23). lia. }
  destruct Hcan as [Hf H104].
  rewrite <- round_noalign.
  - apply (round_exact _ _ _ _ _ (- 23 + e)); [split; assumption|lia|lia|].
    rewrite Pos2Z.inj_mul, Z.sub_diag, Z.mul_1_r.
    replace (e - (- 23 + e)) with 23 by lia. 
    change (Zpos 8388608) with (2 ^ 23). lia.
  - rewrite Hdig. replace (digits m + 23 + (- 23 + e)) with (digits m + e) by lia.
    lia.
Qed.

Lemma of_Z_finite (n : Z) :
  0 < n < 2 ^ 32 -> exists m e, F32.of_Z n = S754_finite false m e.
Proof.
  intros [Hn0 Hn]. destruct n as [|p|p]; try lia.
  destruct (Z.lt_ge_cases (Zpos p) (2 ^ 24)) as [Hlt|Hge].
  - destruct (of_Z_exact p Hlt) as (N & _ & _ & ->). eauto.
  - change (F32.of_Z (Zpos p)) with (round_ne false p 0).
    assert (Hd : 24 < digits p <= 32).
    { split; [apply digits_ge; lia|apply digits_le; lia]. }
    rewrite round_noalign by (unfold fexp32; lia).
    rewrite round_aux_shift by (unfold fexp32; lia).
    replace (fexp32 (digits p + 0)) with (digits p - 24) by (unfold fexp32; lia).
    replace (digits p - 24 - 0) with (digits p - 24) by lia.
    pose proof (round_shift_range (Zpos p) (digits p - 24) ltac:(lia)) as Hr.
    assert (Hq : 2 ^ 23 <= Zpos p / 2 ^ (digits p - 24)).
    { apply Z.div_le_lower_bound; [apply pow2_pos; lia|].
      rewrite Z.mul_comm, <- Z.pow_add_r by lia.
      replace (23 + (digits p - 24)) with (digits p - 1) by lia.
      apply digits_bounds. }
    unfold pack.
    destruct (round_shift (Zpos p) (digits p - 24)) as [|q|q]; try lia.
    destruct (Z.eqb_spec (Zpos q) (2 ^ 24)).
    + destruct (Z.leb_spec (digits p - 24 + 1) 104); [eauto|lia].
    + destruct (Z.leb_spec (digits p - 24) 104); [eauto|lia].
Qed.

Lemma floor_trunc_of_Z (n : Z) :
  0 <= n <= 2 ^ 24 -> F32.trunc (F32.floor (F32.of_Z n)) = Some n.
Proof.
  intros [Hn0 Hn]. destruct (Z.eq_dec n 0) as [->|Hne]; [reflexivity|].
  destruct (of_Z_canonical n ltac:(lia)) as (m & e & Heq & Hcan & Hs).
  rewrite Heq.
  pose proof (canonical_digits _ _ Hcan) as (Hd & He & _).
  unfold F32.floor.
  destruct (Z.leb_spec 0 e) as [Hpos|Hneg].
  - rewrite <- Heq. apply trunc_of_Z. lia.
  - destruct (int_part_range m e Hneg Hd) as (Hq & Hqm & _).
    assert (F32.int_part m e = n).
    { unfold scaled in Hs.
      assert (Hp : 2 ^ 149 = 2 ^ (- e) * 2 ^ (e + 149)).
      { rewrite <- Z.pow_add_r by lia. f_equal. lia. }
      rewrite Hp, Z.mul_assoc in Hs.
      apply Z.mul_cancel_r in Hs;
        [|pose proof (pow2_pos (e + 149) ltac:(lia)); lia].
      pose proof (pow2_pos (- e) ltac:(lia)). pnia. }
    rewrite H. apply trunc_of_Z. lia.
Qed.

Lemma round_trunc_of_Z (tie : float -> bool) (n : Z) :
  0 <= n <= 2 ^ 24 -> F32.trunc (F32.round tie (F32.of_Z n)) = Some n.
Proof.
  intros [Hn0 Hn]. destruct (Z.eq_dec n 0) as [->|Hne]; [reflexivity|].
  destruct (of_Z_canonical n ltac:(lia)) as (m & e & Heq & Hcan & Hs).
  rewrite Heq.
  pose proof (canonical_digits _ _ Hcan) as (Hd & He & _).
  unfold F32.round.
  destruct (Z.leb_spec 0 e) as [Hpos|Hneg].
  - rewrite <- Heq. apply trunc_of_Z. lia.
  - destruct (int_part_range m e Hneg Hd) as (Hq & Hqm & Hfrac).
    assert (Hint : F32.int_part m e = n).
    { unfold scaled in Hs.
      assert (Hp : 2 ^ 149 = 2 ^ (- e) * 2 ^ (e + 149)).
      { rewrite <- Z.pow_add_r by lia. f_equal. lia. }
      rewrite Hp, Z.mul_assoc in Hs.
      apply Z.mul_cancel_r in Hs;
        [|pose proof (pow2_pos (e + 149) ltac:(lia)); lia].
      pose proof (pow2_pos (- e) ltac:(lia)). pnia. }
    assert (Hf0 : F32.frac_part m e = 0).
    { rewrite Hfrac, Hint. unfold scaled in Hs.
      assert (Hp : 2 ^ 149 = 2 ^ (- e) * 2 ^ (e + 149)).
      { rewrite <- Z.pow_add_r by lia. f_equal. lia. }
      rewrite Hp, Z.mul_assoc in Hs.
      apply Z.mul_cancel_r in Hs;
        [|pose proof (pow2_pos (e + 149) ltac:(lia)); lia].
      lia. }
    rewrite Hf0, Hint.
    assert (Hhalf : 0 < Z.shiftl 1 (- e - 1)).
    { rewrite Z.shiftl_mul_pow2 by lia.
      pose proof (pow2_pos (- e - 1) ltac:(lia)). lia. }
    destruct (Z.ltb_spec 0 (Z.shiftl 1 (- e - 1))); [|lia].
    destruct (Z.eqb_spec n 0); [lia|].
    apply trunc_of_Z. lia.
Qed.

(** [(float)width - 1] is [(float)(width - 1)] while the integers are exact. *)
Lemma of_Z_pred (w : Z) :
  1 <= w <= 2 ^ 24 -> F32.sub (F32.of_Z w) F32.one = F32.of_Z (w - 1).
Proof.
  intros [Hw1 Hw].
  destruct (Z.eq_dec w 1) as [->|Hn1]; [reflexivity|].
  destruct (Z.eq_dec w (2 ^ 24)) as [->|Hn24]; [reflexivity|].
  destruct w as [|p|p]; try lia.
  destruct (of_Z_exact p ltac:(lia)) as (N & HN & Hcan & ->).
  pose proof (canonical_digits _ _ Hcan) as (_ & He & _).
  pose proof (digits_pos p) as Hd0.
  assert (Hd : digits p <= 24) by (apply digits_le; lia).
  destruct (Zpos p - 1) as [|p'|p'] eqn:Ep; try lia.
  destruct (of_Z_exact p' ltac:(lia)) as (N' & HN' & Hcan' & ->).
  pose proof (digits_pos p') as Hd0'.
  assert (Hd' : digits p' <= 24) by (apply digits_le; lia).
  unfold F32.sub, F32.one, SFsub.
  replace (Z.min (digits p - 24) (- 23)) with (- 23) by lia.
  cbn [cond_Zopp].
  rewrite (shl_align_fst N (digits p - 24) (- 23)) by lia.
  rewrite (shl_align_fst 8388608 (- 23) (- 23)) by lia.
  rewrite HN, Z.sub_diag, Z.mul_1_r, <- Z.mul_assoc, <- Z.pow_add_r by lia.
  replace (24 - digits p + (digits p - 24 - - 23)) with 23 by lia.
  change 8388608 with (1 * 2 ^ 23). rewrite <- Z.mul_sub_distr_r.
  replace (Zpos p - 1) with (Zpos p') by lia.
  destruct (Zpos p' * 2 ^ 23) as [|D|D] eqn:ED; try lia.
  unfold binary_normalize. fold (round_ne false D (- 23)).
  apply (round_exact _ _ _ _ _ (- 23)); [exact Hcan'|lia|lia|].
  rewrite Z.sub_diag, Z.mul_1_r, <- ED, HN', <- Z.mul_assoc, <- Z.pow_add_r
    by lia.
  f_equal. f_equal. lia.
Qed.



(** ** Escapes at depth 0 *)

Lemma orbit_0 (c : float2) : orbit c 0 = mkLoop 0 c (vmul c c).
Proof. reflexivity. Qed.

Lemma cl_stops_at_once (a : OpenCL.args) (c : float2) :
  F32.ltb (norm2 (orbit c 0)) F32.four = false ->
  OpenCL.iterate a c = orbit c 0.
Proof.
  intros H. unfold OpenCL.iterate, OpenCL.init. rewrite <- orbit_0.
  destruct (Z.to_nat (OpenCL.maxDepth a)) as [|fuel]; [reflexivity|].
  simpl. unfold OpenCL.cond. rewrite H, andb_false_r. reflexivity.
Qed.

Lemma gl_stops_at_once (u : ComputeShader.uniforms) (c : float2) :
  F32.leb (norm2 (orbit c 0)) F32.four = false ->
  ComputeShader.iterate u c = orbit c 0.
Proof.
  intros H. unfold ComputeShader.iterate, ComputeShader.init.
  rewrite <- orbit_0.
  destruct (Z.to_nat (ComputeShader.maxDepth u + 1)) as [|fuel]; [reflexivity|].
  simpl. unfold ComputeShader.cond. rewrite H, andb_false_r. reflexivity.
Qed.

Lemma div_zero_of_Z (n : Z) :
  0 < n < 2 ^ 32 -> F32.div (F32.of_Z 0) (F32.of_Z n) = F32.zero.
Proof.
  intros Hn. destruct (of_Z_finite n Hn) as (m & e & ->). reflexivity.
Qed.

Lemma smoothed_zero (log : float -> float) (sf : float) :
  positive_finite sf = true -> usual_log log sf ->
  is_zero (F32.fmin F32.one
             (F32.div (log (F32.add (F32.mul F32.zero sf) F32.one)) (log sf)))
  = true.
Proof.
  intros Hsf [H1 Hl].
  destruct sf as [| | |[|] ms es]; try discriminate.
  change (F32.add (F32.mul F32.zero (S754_finite false ms es)) F32.one)
    with F32.one.
  destruct (log F32.one) as [s1| | |]; try discriminate.
  destruct (log (S754_finite false ms es)) as [| | |[|] ml el];
    try discriminate.
  destruct s1; reflexivity.
Qed.

Lemma cl_index_of_zero (a : OpenCL.args) (ie : float) :
  is_zero ie = true -> 1 <= OpenCL.paletteSize a <= 2 ^ 24 + 1 ->
  OpenCL.index a ie = Some (OpenCL.paletteSize a - 1).
Proof.
  intros Hz HN. destruct ie as [s| | |]; try discriminate.
  unfold OpenCL.index, OpenCL.position. rewrite to_int_small by lia.
  change (F32.sub F32.one (S754_zero s)) with F32.one.
  destruct (Z.eq_dec (OpenCL.paletteSize a - 1) 0) as [->|Hne];
    [reflexivity|].
  destruct (of_Z_canonical (OpenCL.paletteSize a - 1) ltac:(lia))
    as (m & e & Heq & Hcan & _).
  rewrite Heq, mul_one_l by exact Hcan. rewrite <- Heq.
  apply floor_trunc_of_Z. lia.
Qed.

Lemma gl_index_of_zero (tie : float -> bool) (u : ComputeShader.uniforms)
    (ie : float) :
  is_zero ie = true -> 0 <= ComputeShader.paletteSize u <= 2 ^ 24 ->
  ComputeShader.index tie u ie = Some (ComputeShader.paletteSize u).
Proof.
  intros Hz HN. destruct ie as [s| | |]; try discriminate.
  unfold ComputeShader.index, ComputeShader.position.
  change (F32.sub F32.one (S754_zero s)) with F32.one.
  destruct (Z.eq_dec (ComputeShader.paletteSize u) 0) as [->|Hne];
    [reflexivity|].
  destruct (of_Z_canonical (ComputeShader.paletteSize u) ltac:(lia))
    as (m & e & Heq & Hcan & _).
  rewrite Heq, mul_one_l by exact Hcan. rewrite <- Heq.
  apply round_trunc_of_Z. lia.
Qed.

(** A pixel that leaves the loop at depth 0 of at least 2 is stored the
    last entry of the palette. *)
Lemma cl_shade_depth_0 (log : float -> float) (a : OpenCL.args) (c : float2) :
  OpenCL.iterate a c = orbit c 0 ->
  2 <= OpenCL.maxDepth a < 2 ^ 32 ->
  positive_finite (OpenCL.scaleForce a) = true ->
  usual_log log (OpenCL.scaleForce a) ->
  1 <= OpenCL.paletteSize a <= 2 ^ 24 + 1 ->
  OpenCL.shade_of log a c = Escaped (Some (OpenCL.paletteSize a - 1)).
Proof.
  intros Hit Hmax Hsf Hlog HN.
  unfold OpenCL.shade_of, OpenCL.classify. rewrite Hit. simpl depth.
  change (to_uint 0) with 0.
  destruct (Z.eqb_spec 0 (OpenCL.maxDepth a)); [lia|].
  f_equal. apply cl_index_of_zero; [|exact HN].
  unfold OpenCL.smoothed, OpenCL.normalized.
  rewrite to_uint_small by lia. rewrite div_zero_of_Z by lia.
  now apply smoothed_zero.
Qed.

Lemma gl_shade_depth_0 (log : float -> float) (tie : float -> bool)
    (u : ComputeShader.uniforms) (c : float2) :
  ComputeShader.iterate u c = orbit c 0 ->
  1 <= ComputeShader.maxDepth u < 2 ^ 31 ->
  positive_finite (ComputeShader.scaleForce u) = true ->
  usual_log log (ComputeShader.scaleForce u) ->
  0 <= ComputeShader.paletteSize u <= 2 ^ 24 ->
  ComputeShader.shade_of log tie u c
  = Escaped (Some (ComputeShader.paletteSize u)).
Proof.
  intros Hit Hmax Hsf Hlog HN.
  unfold ComputeShader.shade_of, ComputeShader.classify. rewrite Hit.
  simpl depth.
  destruct (Z.ltb_spec (ComputeShader.maxDepth u) 0); [lia|].
  f_equal. apply gl_index_of_zero; [|exact HN].
  unfold ComputeShader.smoothed, ComputeShader.normalized.
  rewrite div_zero_of_Z by lia. rewrite <- fmin_min_one.
  now apply smoothed_zero.
Qed.



(** ** Not a number *)

Lemma norm2_nan (c : float2) :
  is_nan (vx c) = true \/ is_nan (vy c) = true ->
  norm2 (orbit c 0) = S754_nan.
Proof.
  unfold norm2, orbit. simpl. destruct c as [cx cy]. simpl.
  intros [H|H].
  - destruct cx; try discriminate. reflexivity.
  - destruct cy; try discriminate.
    change (F32.mul S754_nan S754_nan) with S754_nan.
    destruct (F32.mul cx cx); reflexivity.
Qed.

Lemma nan_stops_at_once (a : OpenCL.args) (u : ComputeShader.uniforms)
    (c : float2) :
  is_nan (vx c) = true \/ is_nan (vy c) = true ->
  OpenCL.iterate a c = orbit c 0 /\ ComputeShader.iterate u c = orbit c 0.
Proof.
  intros H. pose proof (norm2_nan c H) as Hn. split.
  - apply cl_stops_at_once. now rewrite Hn.
  - apply gl_stops_at_once. now rewrite Hn.
Qed.

Lemma add_nan_r (x : float) : F32.add x S754_nan = S754_nan.
Proof. destruct x; reflexivity. Qed.

Lemma mul_nan_r (x : float) : F32.mul x S754_nan = S754_nan.
Proof. destruct x; reflexivity. Qed.

(** With a width of 1 the OpenCL kernel divides [0] by [0]. *)
Lemma cl_interpolate_width_1 (a : OpenCL.args) (height y : Z) :
  vx (OpenCL.interpolate a 1 height 0 y) = S754_nan.
Proof.
  unfold OpenCL.interpolate. simpl vx.
  change (F32.div (F32.of_Z 0) (F32.of_Z (to_int (1 - 1)))) with S754_nan.
  now rewrite mul_nan_r, add_nan_r.
Qed.

Lemma cl_interpolate_height_1 (a : OpenCL.args) (width x : Z) :
  vy (OpenCL.interpolate a width 1 x 0) = S754_nan.
Proof.
  unfold OpenCL.interpolate. simpl vy.
  change (F32.div (F32.of_Z 0) (F32.of_Z (to_int (1 - 1)))) with S754_nan.
  now rewrite mul_nan_r, add_nan_r.
Qed.

Lemma div_by_zero_of_zero_product (d : float) :
  F32.div (F32.mul d (F32.of_Z 0)) F32.zero = S754_nan.
Proof. destruct d as [[|]|[|]| |[|] m e]; reflexivity. Qed.

Lemma gl_interpolate_width_1 (u : ComputeShader.uniforms) (y : Z) :
  vx (ComputeShader.size u) = F32.zero ->
  vx (ComputeShader.interpolate u 0 y) = S754_nan.
Proof.
  intros Hs. unfold ComputeShader.interpolate. simpl vx.
  rewrite Hs, div_by_zero_of_zero_product.
  reflexivity.
Qed.

Lemma gl_interpolate_height_1 (u : ComputeShader.uniforms) (x : Z) :
  vy (ComputeShader.size u) = F32.zero ->
  vy (ComputeShader.interpolate u x 0) = S754_nan.
Proof.
  intros Hs. unfold ComputeShader.interpolate. simpl vy.
  rewrite Hs, div_by_zero_of_zero_product.
  reflexivity.
Qed.

Lemma mul_zero_of_Z (n : Z) :
  0 <= n < 2 ^ 32 -> F32.mul F32.zero (F32.of_Z n) = F32.zero.
Proof.
  intros Hn. destruct (Z.eq_dec n 0) as [->|Hne]; [reflexivity|].
  destruct (of_Z_finite n ltac:(lia)) as (m & e & ->). reflexivity.
Qed.

(** With [maxDepth = 1] the escaped branch divides [0] by [0]: [i] is not
    a number, [ie] is [1.0f] and the index is 0. *)
Lemma cl_shade_max_1 (log : float -> float) (a : OpenCL.args) (c : float2) :
  OpenCL.maxDepth a = 1 ->
  log S754_nan = S754_nan ->
  1 <= OpenCL.paletteSize a < 2 ^ 31 ->
  OpenCL.normalized a 0 = S754_nan /\
  (OpenCL.shade_of log a c = Member \/
   OpenCL.shade_of log a c = Escaped (Some 0)).
Proof.
  intros Hmax Hlog HN.
  assert (Hi : OpenCL.normalized a 0 = S754_nan).
  { unfold OpenCL.normalized. rewrite Hmax. reflexivity. }
  split; [exact Hi|].
  destruct (cl_iterate_orbit a c ltac:(lia)) as (k & Hk & Heq & _ & _).
  unfold OpenCL.shade_of, OpenCL.classify. rewrite Heq.
  rewrite uint_depth_orbit, depth_orbit_small by lia.
  destruct (Z.eqb_spec (Z.of_nat k) (OpenCL.maxDepth a)); [now left|right].
  replace (Z.of_nat k) with 0 by lia. rewrite Hi.
  unfold OpenCL.smoothed.
  change (F32.add (F32.mul S754_nan (OpenCL.scaleForce a)) F32.one)
    with S754_nan.
  rewrite Hlog.
  change (F32.fmin F32.one (F32.div S754_nan (log (OpenCL.scaleForce a))))
    with F32.one.
  unfold OpenCL.index, OpenCL.position.
  change (F32.sub F32.one F32.one) with F32.zero.
  rewrite to_int_small by lia. rewrite mul_zero_of_Z by lia. reflexivity.
Qed.

Lemma gl_shade_max_1 (log : float -> float) (tie : float -> bool)
    (u : ComputeShader.uniforms) (c : float2) :
  ComputeShader.maxDepth u = 0 ->
  log S754_nan = S754_nan ->
  0 <= ComputeShader.paletteSize u < 2 ^ 31 ->
  ComputeShader.normalized u 0 = S754_nan /\
  (ComputeShader.shade_of log tie u c = Member \/
   ComputeShader.shade_of log tie u c = Escaped (Some 0)).
Proof.
  intros Hmax Hlog HN.
  assert (Hi : ComputeShader.normalized u 0 = S754_nan).
  { unfold ComputeShader.normalized. rewrite Hmax. reflexivity. }
  split; [exact Hi|].
  destruct (gl_iterate_orbit u c ltac:(lia)) as (k & Hk & Heq & _ & _).
  unfold ComputeShader.shade_of, ComputeShader.classify. rewrite Heq.
  rewrite depth_orbit_small by lia.
  destruct (Z.ltb_spec (ComputeShader.maxDepth u) (Z.of_nat k));
    [now left|right].
  replace (Z.of_nat k) with 0 by lia. rewrite Hi.
  unfold ComputeShader.smoothed.
  change (F32.add (F32.mul S754_nan (ComputeShader.scaleForce u)) F32.one)
    with S754_nan.
  rewrite Hlog.
  change (F32.min F32.one
            (F32.div S754_nan (log (ComputeShader.scaleForce u))))
    with F32.one.
  unfold ComputeShader.index, ComputeShader.position.
  change (F32.sub F32.one F32.one) with F32.zero.
  rewrite mul_zero_of_Z by lia. reflexivity.
Qed.


(** * The claims *)

(** ** C1: the two kernels compared *)




(** ** C2: where the two kernels differ *)


(** The same happens in one work group, at the pixel (7, 16) of 32 by 32. *)
Lemma interpolations_differ_by_rounding :
  OpenCL.interpolate (OpenCL.host_args one_group two_colors) 32 32 7 16
  <> ComputeShader.interpolate
       (ComputeShader.host_uniforms one_group two_colors) 7 16.
Proof. vm_compute. discriminate. Qed.

(** The difference comes from the order of the operations,
    [delta * (x / (width - 1))] in the kernel and [(cdelta * x) / size] in
    the shader, and not from the denominators: for a width and a height
    from 1 to [2 ^ 24] and [1 <= maxDepth < 2 ^ 31], the [size] uniform of
    the shader holds the [(float)(width - 1)] and [(float)(height - 1)] by
    which the OpenCL kernel divides, both kernels interpolate over the same
    window, and they compute the same normalized escape value [i] at every
    depth. *)
Lemma denominators_agree (p : Host.params) (pal : Host.image) :
  1 <= Host.width p <= 2 ^ 24 ->
  1 <= Host.height p <= 2 ^ 24 ->
  1 <= Host.maxDepth p < 2 ^ 31 ->
  ComputeShader.size (ComputeShader.host_uniforms p pal)
  = vec2 (F32.of_Z (to_int (Host.width p - 1)))
         (F32.of_Z (to_int (Host.height p - 1))) /\
  (forall x y,
     OpenCL.interpolate (OpenCL.host_args p pal) (Host.width p) (Host.height p)
       x y
     = vadd (OpenCL.min (OpenCL.host_args p pal))
            (vmul (OpenCL.delta (OpenCL.host_args p pal))
                  (vdiv (vec2 (F32.of_Z x) (F32.of_Z y))
                        (ComputeShader.size (ComputeShader.host_uniforms p pal)))))
  /\
  ComputeShader.cmin (ComputeShader.host_uniforms p pal)
  = OpenCL.min (OpenCL.host_args p pal) /\
  ComputeShader.cdelta (ComputeShader.host_uniforms p pal)
  = OpenCL.delta (OpenCL.host_args p pal) /\
  (forall d,
     ComputeShader.normalized (ComputeShader.host_uniforms p pal) d
     = OpenCL.normalized (OpenCL.host_args p pal) d).
Proof.
  intros Hw Hh Hd.
  assert (Hsize : ComputeShader.size (ComputeShader.host_uniforms p pal)
                  = vec2 (F32.of_Z (to_int (Host.width p - 1)))
                         (F32.of_Z (to_int (Host.height p - 1)))).
  { unfold ComputeShader.host_uniforms. simpl ComputeShader.size.
    rewrite !of_Z_pred by lia. rewrite !to_int_small by lia. reflexivity. }
  split; [exact Hsize|]. split; [|split; [reflexivity|split; [reflexivity|]]].
  - intros x y. rewrite Hsize. reflexivity.
  - intros d. unfold ComputeShader.normalized, OpenCL.normalized.
    unfold ComputeShader.host_uniforms, OpenCL.host_args.
    simpl ComputeShader.maxDepth. simpl OpenCL.maxDepth.
    rewrite (to_uint_small (Host.maxDepth p)) by lia.
    rewrite to_int_small, to_uint_small by lia. reflexivity.
Qed.

(** ** C3: when the loop stops *)

(** C3 at the input where the OpenCL kernel departs from it: in the image
    [odd_size] the pixel (0, 512) is the point [c = (-2, 0)], whose squared
    magnitude is exactly [4.0f].  The OpenCL loop (test [< 4.0f]) stops at
    once, at depth 0 of 1024, on a squared magnitude that does not exceed
    [4.0f]; the loop of the shader (test [<= 4.0f]) goes on to the maximum
    depth from the same point. *)
Theorem opencl_loop_stops_on_the_radius :
  let a := OpenCL.host_args odd_size two_colors in
  let u := ComputeShader.host_uniforms odd_size two_colors in
  let c := OpenCL.interpolate a 1025 1025 0 512 in
  let s := OpenCL.iterate a c in
  c = vec2 (F32.of_Z (-2)) F32.zero /\
  ComputeShader.interpolate u 0 512 = c /\
  OpenCL.maxDepth a = 1024 /\
  depth s = 0 /\
  norm2 s = F32.four /\
  F32.ltb F32.four (norm2 s) = false /\
  depth (ComputeShader.iterate u c) = 1024.
Proof. vm_compute. repeat split. Qed.

(** ** C4: members of the set are stored black *)

(** C4: when the loop of a pixel has run to [maxDepth] (the counter equals
    [maxDepth] on exit; in the shader the uniform holds [maxDepth - 1]), the
    kernel takes the branch of the members of the set and stores opaque
    black [(0, 0, 0, 255)], whatever the palette holds: the palette is not
    read. *)
Theorem member_is_stored_black (log : float -> float) (tie : float -> bool)
    (a : OpenCL.args) (u : ComputeShader.uniforms) (palette : list uchar4)
    (width height x y : Z) :
  (to_uint (depth (OpenCL.iterate a (OpenCL.interpolate a width height x y)))
   = OpenCL.maxDepth a ->
   OpenCL.shade_of log a (OpenCL.interpolate a width height x y) = Member /\
   OpenCL.mandelbrot log a palette width height x y = Some (0, 0, 0, 255)) /\
  (depth (ComputeShader.iterate u (ComputeShader.interpolate u x y))
   = ComputeShader.maxDepth u + 1 ->
   ComputeShader.shade_of log tie u (ComputeShader.interpolate u x y) = Member /\
   ComputeShader.shaderSource log tie u palette x y = Some (0, 0, 0, 255)).
Proof.
  split; intros Hd.
  - assert (Hm : OpenCL.shade_of log a (OpenCL.interpolate a width height x y)
                 = Member).
    { unfold OpenCL.shade_of. now rewrite cl_member_iff. }
    split; [exact Hm|]. unfold OpenCL.mandelbrot. now rewrite Hm.
  - assert (Hm : ComputeShader.shade_of log tie u
                   (ComputeShader.interpolate u x y) = Member).
    { unfold ComputeShader.shade_of. rewrite gl_member_iff. lia. }
    split; [exact Hm|]. unfold ComputeShader.shaderSource. now rewrite Hm.
Qed.

Lemma member_is_stored_black_witness :
  OpenCL.mandelbrot RefLog.log centered_args [] 3 3 1 1 = Some (0, 0, 0, 255) /\
  ComputeShader.shaderSource RefLog.log half_away centered_uniforms [] 1 1
  = Some (0, 0, 0, 255).
Proof.
  destruct (member_is_stored_black RefLog.log half_away centered_args
              centered_uniforms [] 3 3 1 1) as [Hcl Hgl].
  split.
  - apply Hcl. vm_compute. reflexivity.
  - apply Hgl. vm_compute. reflexivity.
Defined.

(** ** C5: the palette index *)

Lemma cl_position_below (a : OpenCL.args) (ie : float) :
  valid ie = true ->
  F32.leb F32.zero ie = true -> F32.leb ie F32.one = true ->
  1 <= OpenCL.paletteSize a <= 2 ^ 24 + 1 ->
  below (OpenCL.position a ie) ((OpenCL.paletteSize a - 1) * 2 ^ 149).
Proof.
  intros Hv H0 H1 HN. unfold OpenCL.position.
  rewrite to_int_small by lia.
  pose proof (sub_one_below ie Hv H0 H1) as Ht.
  destruct (Z.eq_dec (OpenCL.paletteSize a - 1) 0) as [E0|N0].
  - rewrite E0. left.
    destruct Ht as [->|(m & e & -> & _)]; reflexivity.
  - destruct (of_Z_canonical (OpenCL.paletteSize a - 1) ltac:(lia))
      as (m & e & -> & Hcan & <-).
    now apply mul_below.
Qed.

Lemma gl_position_below (u : ComputeShader.uniforms) (ie : float) :
  valid ie = true ->
  F32.leb F32.zero ie = true -> F32.leb ie F32.one = true ->
  0 <= ComputeShader.paletteSize u <= 2 ^ 24 ->
  below (ComputeShader.position u ie) (ComputeShader.paletteSize u * 2 ^ 149).
Proof.
  intros Hv H0 H1 HN. unfold ComputeShader.position.
  pose proof (sub_one_below ie Hv H0 H1) as Ht.
  destruct (Z.eq_dec (ComputeShader.paletteSize u) 0) as [E0|N0].
  - rewrite E0. left.
    destruct Ht as [->|(m & e & -> & _)]; reflexivity.
  - destruct (of_Z_canonical (ComputeShader.paletteSize u) ltac:(lia))
      as (m & e & -> & Hcan & <-).
    now apply mul_below.
Qed.

Lemma color_of_in_range (palette : list uchar4) (n : Z) :
  0 <= n < Z.of_nat (List.length palette) ->
  exists col, color_of palette (Escaped (Some n)) = Some col.
Proof.
  intros Hn. unfold color_of.
  destruct (Z.ltb_spec n 0); [lia|].
  destruct (nth_error palette (Z.to_nat n)) as [col|] eqn:E; [eauto|].
  apply nth_error_None in E. lia.
Qed.

(** C5, as stated, fails: for a palette of [2 ^ 24 + 4] colors the
    conversion of [paletteSize - 1 = 16777219] to [float] rounds up to
    [16777220], so at [ie = 0] both kernels compute the index 16777220, one
    past the last entry of the palette. *)
Lemma palette_index_overflows :
  let a := OpenCL.host_args OpenCL.parameters huge_palette in
  let u := ComputeShader.host_uniforms OpenCL.parameters huge_palette in
  OpenCL.paletteSize a = 16777220 /\
  ComputeShader.paletteSize u = 16777220 - 1 /\
  valid F32.zero = true /\
  F32.leb F32.zero F32.zero = true /\ F32.leb F32.zero F32.one = true /\
  F32.of_Z (16777220 - 1) = F32.of_Z 16777220 /\
  OpenCL.index a F32.zero = Some 16777220 /\
  ComputeShader.index half_away u F32.zero = Some 16777220.
Proof. vm_compute. repeat split. Qed.

(** C5, amended: for a palette of 1 to [2 ^ 24 + 1] colors (so that
    [paletteSize - 1] is a [float]) and every float [ie] with
    [0 <= ie <= 1], the index that a kernel computes in the escaped branch
    is defined and lies in [[0, paletteSize - 1]]: the palette access is in
    range. *)
Theorem palette_index_in_range (tie : float -> bool) (a : OpenCL.args)
    (u : ComputeShader.uniforms) (palette : list uchar4) (ie : float) :
  valid ie = true ->
  F32.leb F32.zero ie = true -> F32.leb ie F32.one = true ->
  1 <= Z.of_nat (List.length palette) <= 2 ^ 24 + 1 ->
  OpenCL.paletteSize a = Z.of_nat (List.length palette) ->
  ComputeShader.paletteSize u = Z.of_nat (List.length palette) - 1 ->
  (exists n col,
     OpenCL.index a ie = Some n /\
     0 <= n <= Z.of_nat (List.length palette) - 1 /\
     color_of palette (Escaped (OpenCL.index a ie)) = Some col) /\
  (exists n col,
     ComputeShader.index tie u ie = Some n /\
     0 <= n <= Z.of_nat (List.length palette) - 1 /\
     color_of palette (Escaped (ComputeShader.index tie u ie)) = Some col).
Proof.
  intros Hv H0 H1 HN Ha Hu. split.
  - destruct (floor_index (OpenCL.position a ie) (OpenCL.paletteSize a - 1))
      as (n & Hn & Hr); [lia|apply cl_position_below; try assumption; lia|].
    destruct (color_of_in_range palette n ltac:(lia)) as (col & Hc).
    exists n, col. unfold OpenCL.index. rewrite Hn.
    split; [reflexivity|]. split; [lia|exact Hc].
  - destruct (round_index tie (ComputeShader.position u ie)
                (ComputeShader.paletteSize u))
      as (n & Hn & Hr); [lia|apply gl_position_below; try assumption; lia|].
    destruct (color_of_in_range palette n ltac:(lia)) as (col & Hc).
    exists n, col. unfold ComputeShader.index. rewrite Hn.
    split; [reflexivity|]. split; [lia|exact Hc].
Qed.

Lemma palette_index_in_range_witness :
  let a := OpenCL.host_args OpenCL.parameters gradient in
  let u := ComputeShader.host_uniforms OpenCL.parameters gradient in
  let ie := F32.div F32.one F32.four in
  (exists n col,
     OpenCL.index a ie = Some n /\ 0 <= n <= 512 - 1 /\
     color_of (Host.texels gradient) (Escaped (OpenCL.index a ie)) = Some col)
  /\
  (exists n col,
     ComputeShader.index half_away u ie = Some n /\ 0 <= n <= 512 - 1 /\
     color_of (Host.texels gradient)
       (Escaped (ComputeShader.index half_away u ie)) = Some col).
Proof.
  intros a u ie.
  apply (palette_index_in_range half_away a u (Host.texels gradient) ie).
  - reflexivity.
  - reflexivity.
  - reflexivity.
  - split; vm_compute; discriminate.
  - reflexivity.
  - reflexivity.
Defined.

(** ** C6: immediate escape *)

(** C6, as stated, fails: with the parameters of the OpenCL program and a
    palette of 512 colors, the point [c = (3, 0)] leaves the loop at depth 0
    and both kernels compute the index 511, the last one of the palette, not
    the first. *)
Lemma immediate_escape_is_at_the_high_end :
  let a := OpenCL.host_args OpenCL.parameters gradient in
  let u := ComputeShader.host_uniforms OpenCL.parameters gradient in
  OpenCL.paletteSize a = 512 /\
  depth (OpenCL.iterate a three) = 0 /\
  depth (ComputeShader.iterate u three) = 0 /\
  OpenCL.shade_of RefLog.log a three = Escaped (Some 511) /\
  ComputeShader.shade_of RefLog.log half_away u three = Escaped (Some 511) /\
  511 <> 0.
Proof. vm_compute. repeat split. discriminate. Qed.

(** C6, amended: for [c = (3, 0)] the squared magnitude is [9 > 4] at the
    first test, so the body of the loop never runs, the loop is left with
    [depth = 0] and, for [maxDepth >= 1], the pixel is classified as escaped.
    For [maxDepth >= 2], a positive [scaleForce], a [log] with [log 1 = 0]
    and [log scaleForce > 0], and a palette of 1 to [2 ^ 24 + 1] colors, the
    palette index is [paletteSize - 1]: the high end of the range. *)
Theorem immediate_escape (log : float -> float) (tie : float -> bool)
    (a : OpenCL.args) (u : ComputeShader.uniforms) :
  norm2 (orbit three 0) = F32.of_Z 9 /\
  F32.ltb F32.four (norm2 (orbit three 0)) = true /\
  OpenCL.iterate a three = orbit three 0 /\
  ComputeShader.iterate u three = orbit three 0 /\
  depth (orbit three 0) = 0 /\
  (1 <= OpenCL.maxDepth a < 2 ^ 32 ->
   OpenCL.shade_of log a three <> Member) /\
  (0 <= ComputeShader.maxDepth u ->
   ComputeShader.shade_of log tie u three <> Member) /\
  (2 <= OpenCL.maxDepth a < 2 ^ 32 ->
   positive_finite (OpenCL.scaleForce a) = true ->
   usual_log log (OpenCL.scaleForce a) ->
   1 <= OpenCL.paletteSize a <= 2 ^ 24 + 1 ->
   OpenCL.shade_of log a three = Escaped (Some (OpenCL.paletteSize a - 1))) /\
  (1 <= ComputeShader.maxDepth u < 2 ^ 31 ->
   positive_finite (ComputeShader.scaleForce u) = true ->
   usual_log log (ComputeShader.scaleForce u) ->
   0 <= ComputeShader.paletteSize u <= 2 ^ 24 ->
   ComputeShader.shade_of log tie u three
   = Escaped (Some (ComputeShader.paletteSize u))).
Proof.
  assert (Hcl : OpenCL.iterate a three = orbit three 0)
    by (apply cl_stops_at_once; reflexivity).
  assert (Hgl : ComputeShader.iterate u three = orbit three 0)
    by (apply gl_stops_at_once; reflexivity).
  split; [reflexivity|]. split; [reflexivity|].
  split; [exact Hcl|]. split; [exact Hgl|]. split; [reflexivity|].
  split; [|split; [|split]].
  - intros Hmax. unfold OpenCL.shade_of. rewrite cl_member_iff, Hcl.
    change (to_uint (depth (orbit three 0))) with 0. lia.
  - intros Hmax. unfold ComputeShader.shade_of. rewrite gl_member_iff, Hgl.
    change (depth (orbit three 0)) with 0. lia.
  - intros. now apply cl_shade_depth_0.
  - intros. now apply gl_shade_depth_0.
Qed.

Lemma immediate_escape_witness :
  let a := OpenCL.host_args OpenCL.parameters gradient in
  let u := ComputeShader.host_uniforms OpenCL.parameters gradient in
  OpenCL.shade_of RefLog.log a three <> Member /\
  ComputeShader.shade_of RefLog.log half_away u three <> Member /\
  OpenCL.shade_of RefLog.log a three
  = Escaped (Some (OpenCL.paletteSize a - 1)) /\
  ComputeShader.shade_of RefLog.log half_away u three
  = Escaped (Some (ComputeShader.paletteSize u)).
Proof.
  intros a u.
  destruct (immediate_escape RefLog.log half_away a u)
    as (_ & _ & _ & _ & _ & Hcl & Hgl & Hicl & Higl).
  split; [|split; [|split]].
  - apply Hcl. split; vm_compute; [discriminate|reflexivity].
  - apply Hgl. vm_compute. discriminate.
  - apply Hicl.
    + split; vm_compute; [discriminate|reflexivity].
    + reflexivity.
    + split; vm_compute; reflexivity.
    + split; vm_compute; discriminate.
  - apply Higl.
    + split; vm_compute; [discriminate|reflexivity].
    + reflexivity.
    + split; vm_compute; reflexivity.
    + split; vm_compute; discriminate.
Defined.

(** ** C7: escape monotonicity *)

(** C7: with all other parameters fixed and [1 <= maxDepth < maxDepth'], a
    point that a kernel classifies as escaped under [maxDepth] is still
    classified as escaped under [maxDepth'], and the loop ends in the same
    state, hence at the same depth ([maxDepth'] a [uint] for OpenCL, an
    [int] for OpenGL). *)
Theorem escape_is_monotone (log : float -> float) (tie : float -> bool)
    (a : OpenCL.args) (u : ComputeShader.uniforms) (c : float2) (n n' : Z) :
  1 <= n -> n < n' ->
  (n' < 2 ^ 32 ->
   OpenCL.shade_of log (cl_with_maxDepth a n) c <> Member ->
   OpenCL.shade_of log (cl_with_maxDepth a n') c <> Member /\
   depth (OpenCL.iterate (cl_with_maxDepth a n') c)
   = depth (OpenCL.iterate (cl_with_maxDepth a n) c)) /\
  (n' < 2 ^ 31 ->
   ComputeShader.shade_of log tie (gl_with_maxDepth u n) c <> Member ->
   ComputeShader.shade_of log tie (gl_with_maxDepth u n') c <> Member /\
   depth (ComputeShader.iterate (gl_with_maxDepth u n') c)
   = depth (ComputeShader.iterate (gl_with_maxDepth u n) c)).
Proof.
  intros H1 Hlt. split; intros Hmax Hesc.
  - destruct (cl_escape_monotone log a c n n' H1 Hlt Hmax Hesc) as [Hm He].
    split; [exact Hm|now rewrite He].
  - destruct (gl_escape_monotone log tie u c n n' H1 Hlt Hmax Hesc) as [Hm He].
    split; [exact Hm|now rewrite He].
Qed.

Lemma escape_is_monotone_witness :
  let a := OpenCL.host_args one_group two_colors in
  let u := ComputeShader.host_uniforms one_group two_colors in
  let c := OpenCL.interpolate a 32 32 1 16 in
  (OpenCL.shade_of RefLog.log (cl_with_maxDepth a 1024) c <> Member /\
   depth (OpenCL.iterate (cl_with_maxDepth a 1024) c)
   = depth (OpenCL.iterate (cl_with_maxDepth a 50) c)) /\
  (ComputeShader.shade_of RefLog.log half_away (gl_with_maxDepth u 1024) c
   <> Member /\
   depth (ComputeShader.iterate (gl_with_maxDepth u 1024) c)
   = depth (ComputeShader.iterate (gl_with_maxDepth u 50) c)).
Proof.
  intros a u c.
  destruct (escape_is_monotone RefLog.log half_away a u c 50 1024) as [Hcl Hgl].
  - lia.
  - lia.
  - split.
    + apply Hcl; [lia|]. vm_compute. discriminate.
    + apply Hgl; [lia|]. vm_compute. discriminate.
Defined.

(** ** C8: the origin *)

(** C8: for [c = 0] (each component a zero of either sign) the squared
    magnitude is [0] in every state of the orbit, so it never exceeds
    [4.0f]; the loop runs its [maxDepth] turns and the kernel stores opaque
    black [(0, 0, 0, 255)], for every [maxDepth] the type of the parameter
    admits and every palette. *)
Theorem origin_is_stored_black (log : float -> float) (tie : float -> bool)
    (a : OpenCL.args) (u : ComputeShader.uniforms) (palette : list uchar4)
    (width height x y : Z) :
  (0 <= OpenCL.maxDepth a < 2 ^ 32 ->
   is_zero (vx (OpenCL.interpolate a width height x y)) = true ->
   is_zero (vy (OpenCL.interpolate a width height x y)) = true ->
   (forall k, norm2 (orbit (OpenCL.interpolate a width height x y) k)
              = F32.zero) /\
   to_uint (depth (OpenCL.iterate a (OpenCL.interpolate a width height x y)))
   = OpenCL.maxDepth a /\
   OpenCL.mandelbrot log a palette width height x y = Some (0, 0, 0, 255)) /\
  (0 <= ComputeShader.maxDepth u + 1 < 2 ^ 31 ->
   is_zero (vx (ComputeShader.interpolate u x y)) = true ->
   is_zero (vy (ComputeShader.interpolate u x y)) = true ->
   (forall k, norm2 (orbit (ComputeShader.interpolate u x y) k) = F32.zero) /\
   depth (ComputeShader.iterate u (ComputeShader.interpolate u x y))
   = ComputeShader.maxDepth u + 1 /\
   ComputeShader.shaderSource log tie u palette x y = Some (0, 0, 0, 255)).
Proof.
  split; intros Hmax Hx Hy.
  - destruct (cl_origin_member log a _ Hmax Hx Hy) as [Hrun Hm].
    split; [|split].
    + intros k. apply at_origin_norm2. now apply at_origin_orbit.
    + rewrite Hrun. rewrite uint_depth_orbit; lia.
    + unfold OpenCL.mandelbrot. now rewrite Hm.
  - destruct (gl_origin_member log tie u _ ltac:(lia) Hx Hy) as [Hrun Hm].
    split; [|split].
    + intros k. apply at_origin_norm2. now apply at_origin_orbit.
    + rewrite Hrun. rewrite depth_orbit_small; lia.
    + unfold ComputeShader.shaderSource. now rewrite Hm.
Qed.

Lemma origin_is_stored_black_witness :
  OpenCL.mandelbrot RefLog.log centered_args [white; black] 3 3 1 1
  = Some (0, 0, 0, 255) /\
  ComputeShader.shaderSource RefLog.log half_away centered_uniforms
    [white; black] 1 1 = Some (0, 0, 0, 255).
Proof.
  destruct (origin_is_stored_black RefLog.log half_away centered_args
              centered_uniforms [white; black] 3 3 1 1) as [Hcl Hgl].
  split.
  - apply Hcl; [split; vm_compute; [discriminate|reflexivity]| |];
      vm_compute; reflexivity.
  - apply Hgl; [split; vm_compute; [discriminate|reflexivity]| |];
      vm_compute; reflexivity.
Defined.

(** ** C9: what the host programs check *)




(** ** C10: the divisions by zero *)

(** C10, as stated, fails: an image of one pixel makes both kernels divide
    [0] by [0] and interpolate a [c] that is not a number, and yet each stores
    an entry of the palette [two_colors]: the first one with [maxDepth = 1],
    the last one with [maxDepth = 50]. *)
Lemma one_pixel_gets_a_palette_entry :
  let a := OpenCL.host_args one_pixel two_colors in
  let u := ComputeShader.host_uniforms one_pixel two_colors in
  let a' := OpenCL.host_args one_pixel_deep two_colors in
  let u' := ComputeShader.host_uniforms one_pixel_deep two_colors in
  OpenCL.interpolate a 1 1 0 0 = vec2 S754_nan S754_nan /\
  ComputeShader.interpolate u 0 0 = vec2 S754_nan S754_nan /\
  OpenCL.mandelbrot RefLog.log a [white; black] 1 1 0 0 = Some white /\
  ComputeShader.shaderSource RefLog.log half_away u [white; black] 0 0
  = Some white /\
  OpenCL.mandelbrot RefLog.log a' [white; black] 1 1 0 0 = Some black /\
  ComputeShader.shaderSource RefLog.log half_away u' [white; black] 0 0
  = Some black.
Proof. vm_compute. repeat split. Qed.

(** C10, amended: with a width of 1, a height of 1 or [maxDepth = 1] a
    kernel does divide by zero, in floating point: the divisor is [0.0f]
    and the quotient of [0] by it is not a number.  The kernel stays total.
    A coordinate [c] with such a component fails the test of the loop at
    once, so the loop is left at depth 0; then, for [maxDepth >= 2] and
    under the conditions of C6, the pixel is stored the last entry of the
    palette.  With [maxDepth = 1] the normalized depth [i] of an escaped
    pixel is not a number and, for a [log] that maps it to itself, the pixel
    is stored the first entry of the palette; the other pixels are stored
    black. *)
Theorem division_by_zero_is_total (log : float -> float)
    (tie : float -> bool) (a : OpenCL.args) (u : ComputeShader.uniforms) :
  (* the divisors and the quotient *)
  (F32.of_Z (to_int (1 - 1)) = F32.zero /\
   F32.sub (F32.of_Z 1) F32.one = F32.zero /\
   F32.div (F32.of_Z 0) F32.zero = S754_nan) /\
  (* a width or a height of 1 *)
  ((forall height y, vx (OpenCL.interpolate a 1 height 0 y) = S754_nan) /\
   (forall width x, vy (OpenCL.interpolate a width 1 x 0) = S754_nan) /\
   (vx (ComputeShader.size u) = F32.zero ->
    forall y, vx (ComputeShader.interpolate u 0 y) = S754_nan) /\
   (vy (ComputeShader.size u) = F32.zero ->
    forall x, vy (ComputeShader.interpolate u x 0) = S754_nan)) /\
  (* what becomes of such a coordinate *)
  (forall c,
     is_nan (vx c) = true \/ is_nan (vy c) = true ->
     OpenCL.iterate a c = orbit c 0 /\
     ComputeShader.iterate u c = orbit c 0 /\
     (2 <= OpenCL.maxDepth a < 2 ^ 32 ->
      positive_finite (OpenCL.scaleForce a) = true ->
      usual_log log (OpenCL.scaleForce a) ->
      1 <= OpenCL.paletteSize a <= 2 ^ 24 + 1 ->
      OpenCL.shade_of log a c = Escaped (Some (OpenCL.paletteSize a - 1))) /\
     (1 <= ComputeShader.maxDepth u < 2 ^ 31 ->
      positive_finite (ComputeShader.scaleForce u) = true ->
      usual_log log (ComputeShader.scaleForce u) ->
      0 <= ComputeShader.paletteSize u <= 2 ^ 24 ->
      ComputeShader.shade_of log tie u c
      = Escaped (Some (ComputeShader.paletteSize u)))) /\
  (* a maximum depth of 1 *)
  (forall c,
     log S754_nan = S754_nan ->
     (OpenCL.maxDepth a = 1 ->
      1 <= OpenCL.paletteSize a < 2 ^ 31 ->
      OpenCL.normalized a 0 = S754_nan /\
      (OpenCL.shade_of log a c = Member \/
       OpenCL.shade_of log a c = Escaped (Some 0))) /\
     (ComputeShader.maxDepth u = 0 ->
      0 <= ComputeShader.paletteSize u < 2 ^ 31 ->
      ComputeShader.normalized u 0 = S754_nan /\
      (ComputeShader.shade_of log tie u c = Member \/
       ComputeShader.shade_of log tie u c = Escaped (Some 0)))).
Proof.
  split; [repeat split|]. split; [|split].
  - split; [intros; apply cl_interpolate_width_1|].
    split; [intros; apply cl_interpolate_height_1|].
    split; intros Hs n.
    + now apply gl_interpolate_width_1.
    + now apply gl_interpolate_height_1.
  - intros c Hnan.
    destruct (nan_stops_at_once a u c Hnan) as [Hcl Hgl].
    split; [exact Hcl|]. split; [exact Hgl|]. split; intros.
    + now apply cl_shade_depth_0.
    + now apply gl_shade_depth_0.
  - intros c Hlog. split; intros Hmax HN.
    + now apply cl_shade_max_1.
    + now apply gl_shade_max_1.
Qed.

Lemma division_by_zero_is_total_witness :
  let a := OpenCL.host_args one_pixel_deep two_colors in
  let u := ComputeShader.host_uniforms one_pixel_deep two_colors in
  let a1 := OpenCL.host_args one_pixel two_colors in
  let u1 := ComputeShader.host_uniforms one_pixel two_colors in
  OpenCL.shade_of RefLog.log a (OpenCL.interpolate a 1 1 0 0)
  = Escaped (Some (OpenCL.paletteSize a - 1)) /\
  ComputeShader.shade_of RefLog.log half_away u
    (ComputeShader.interpolate u 0 0)
  = Escaped (Some (ComputeShader.paletteSize u)) /\
  (OpenCL.shade_of RefLog.log a1 (OpenCL.interpolate a1 1 1 0 0) = Member \/
   OpenCL.shade_of RefLog.log a1 (OpenCL.interpolate a1 1 1 0 0)
   = Escaped (Some 0)) /\
  (ComputeShader.shade_of RefLog.log half_away u1
     (ComputeShader.interpolate u1 0 0) = Member \/
   ComputeShader.shade_of RefLog.log half_away u1
     (ComputeShader.interpolate u1 0 0) = Escaped (Some 0)).
Proof.
  intros a u a1 u1.
  destruct (division_by_zero_is_total RefLog.log half_away a u)
    as (_ & (Hw & _ & _ & _) & Hc & _).
  destruct (Hc (OpenCL.interpolate a 1 1 0 0)) as (_ & _ & Hcl & _).
  { left. now rewrite Hw. }
  destruct (Hc (ComputeShader.interpolate u 0 0)) as (_ & _ & _ & Hgl).
  { left. reflexivity. }
  destruct (division_by_zero_is_total RefLog.log half_away a1 u1)
    as (_ & _ & _ & H1).
  destruct (H1 (OpenCL.interpolate a1 1 1 0 0) eq_refl) as (Hcl1 & _).
  destruct (H1 (ComputeShader.interpolate u1 0 0) eq_refl) as (_ & Hgl1).
  split; [|split; [|split]].
  - apply Hcl.
    + split; vm_compute; [discriminate|reflexivity].
    + reflexivity.
    + split; vm_compute; reflexivity.
    + split; vm_compute; discriminate.
  - apply Hgl.
    + split; vm_compute; [discriminate|reflexivity].
    + reflexivity.
    + split; vm_compute; reflexivity.
    + split; vm_compute; discriminate.
  - apply Hcl1; [reflexivity|]. split; vm_compute; [discriminate|reflexivity].
  - apply Hgl1; [reflexivity|]. split; vm_compute; [discriminate|reflexivity].
Defined.

(** * Further properties of the two programs *)

(** ** The state the loop is left in *)

(** The loop keeps [z2 = z * z]. *)
Lemma orbit_squares (c : float2) (k : nat) :
  z2 (orbit c k) = vmul (z (orbit c k)) (z (orbit c k)).
Proof.
  destruct k as [|k]; [reflexivity|]. now rewrite orbit_succ.
Qed.

(** X1: the OpenCL loop, for every [uint] value of [maxDepth], is left
    with a counter [d] between 0 and [maxDepth] (read as a [uint]), in the
    state the orbit of [c] has after [d] turns, with [z2] the squares of the
    components of [z]; the test [z2.x + z2.y < 4.0f] held at each of the [d]
    states before, and when [d] is less than [maxDepth] it fails in the state
    the loop is left in. *)
Theorem opencl_loop_exit (a : OpenCL.args) (c : float2) :
  0 <= OpenCL.maxDepth a < 2 ^ 32 ->
  let s := OpenCL.iterate a c in
  let d := to_uint (depth s) in
  0 <= d <= OpenCL.maxDepth a /\
  s = orbit c (Z.to_nat d) /\
  z2 s = vmul (z s) (z s) /\
  (forall j, (j < Z.to_nat d)%nat ->
             F32.ltb (norm2 (orbit c j)) F32.four = true) /\
  (d < OpenCL.maxDepth a -> F32.ltb (norm2 s) F32.four = false).
Proof.
  intros Hmax s d.
  destruct (cl_iterate_orbit a c Hmax) as (k & Hk & Heq & Hbefore & Hend).
  assert (Hd : d = Z.of_nat k).
  { unfold d, s. rewrite Heq. apply uint_depth_orbit. lia. }
  assert (Hk' : Z.to_nat d = k) by lia.
  split; [lia|]. split; [now rewrite Hk'|]. split.
  - unfold s. rewrite Heq. apply orbit_squares.
  - split.
    + rewrite Hk'. exact Hbefore.
    + intros Hlt. destruct Hend as [Hend|[_ Hend]]; [lia|].
      unfold s. now rewrite Heq.
Qed.

Lemma opencl_loop_exit_witness :
  let a := OpenCL.host_args one_group two_colors in
  let c := OpenCL.interpolate a 32 32 1 16 in
  let s := OpenCL.iterate a c in
  0 <= to_uint (depth s) <= OpenCL.maxDepth a /\
  s = orbit c (Z.to_nat (to_uint (depth s))) /\
  z2 s = vmul (z s) (z s) /\
  (forall j, (j < Z.to_nat (to_uint (depth s)))%nat ->
             F32.ltb (norm2 (orbit c j)) F32.four = true) /\
  (to_uint (depth s) < OpenCL.maxDepth a ->
   F32.ltb (norm2 s) F32.four = false).
Proof.
  apply (opencl_loop_exit (OpenCL.host_args one_group two_colors)
           (OpenCL.interpolate (OpenCL.host_args one_group two_colors)
              32 32 1 16)).
  vm_compute. split; [discriminate|reflexivity].
Defined.

(** X2: the loop of the shader, for a uniform [maxDepth] from -1 to
    [2 ^ 31 - 2], is left with a counter between 0 and [maxDepth + 1], in the
    state the orbit of [c] has after that many turns, with [z2] the squares
    of the components of [z]; the test [z2.x + z2.y <= 4.0f] held at each
    state before, and when the counter is at most [maxDepth] it fails in the
    state the loop is left in. *)
Theorem shader_loop_exit (u : ComputeShader.uniforms) (c : float2) :
  - 1 <= ComputeShader.maxDepth u < 2 ^ 31 - 1 ->
  let s := ComputeShader.iterate u c in
  0 <= depth s <= ComputeShader.maxDepth u + 1 /\
  s = orbit c (Z.to_nat (depth s)) /\
  z2 s = vmul (z s) (z s) /\
  (forall j, (j < Z.to_nat (depth s))%nat ->
             F32.leb (norm2 (orbit c j)) F32.four = true) /\
  (depth s <= ComputeShader.maxDepth u ->
   F32.leb (norm2 s) F32.four = false).
Proof.
  intros Hmax s.
  destruct (gl_iterate_orbit u c Hmax) as (k & Hk & Heq & Hbefore & Hend).
  assert (Hd : depth s = Z.of_nat k).
  { unfold s. rewrite Heq. apply depth_orbit_small. lia. }
  assert (Hk' : Z.to_nat (depth s) = k) by lia.
  split; [lia|]. split; [now rewrite Hk'|]. split.
  - unfold s. rewrite Heq. apply orbit_squares.
  - split.
    + rewrite Hk'. exact Hbefore.
    + intros Hle. destruct Hend as [Hend|[_ Hend]]; [lia|].
      unfold s. now rewrite Heq.
Qed.

Lemma shader_loop_exit_witness :
  let u := ComputeShader.host_uniforms one_group two_colors in
  let c := ComputeShader.interpolate u 1 16 in
  let s := ComputeShader.iterate u c in
  0 <= depth s <= ComputeShader.maxDepth u + 1 /\
  s = orbit c (Z.to_nat (depth s)) /\
  z2 s = vmul (z s) (z s) /\
  (forall j, (j < Z.to_nat (depth s))%nat ->
             F32.leb (norm2 (orbit c j)) F32.four = true) /\
  (depth s <= ComputeShader.maxDepth u ->
   F32.leb (norm2 s) F32.four = false).
Proof.
  apply (shader_loop_exit (ComputeShader.host_uniforms one_group two_colors)
           (ComputeShader.interpolate
              (ComputeShader.host_uniforms one_group two_colors) 1 16)).
  vm_compute. split; [discriminate|reflexivity].
Defined.

(** ** The clamp *)

Lemma ltb_leb (x y : float) : F32.ltb x y = true -> F32.leb x y = true.
Proof.
  unfold F32.ltb, F32.leb, SFltb, SFleb.
  destruct (SFcompare x y) as [[| |]|]; intros H; try discriminate; reflexivity.
Qed.

Lemma min_one_le (q : float) : F32.leb (F32.min F32.one q) F32.one = true.
Proof.
  unfold F32.min. destruct (F32.ltb q F32.one) eqn:Hq.
  - now apply ltb_leb.
  - reflexivity.
Qed.

(** X3: whatever the [log] of the device returns (a NaN, an infinity),
    the value [ie] of either kernel is a number that is at most [1.0f]: the
    clamp [fmin(1.0f, .)] of OpenCL and [min(1.0f, .)] of GLSL never let a
    NaN through. *)
Theorem smoothed_is_clamped (log : float -> float) (a : OpenCL.args)
    (u : ComputeShader.uniforms) (i : float) :
  F32.leb (OpenCL.smoothed log a i) F32.one = true /\
  is_nan (OpenCL.smoothed log a i) = false /\
  F32.leb (ComputeShader.smoothed log u i) F32.one = true /\
  is_nan (ComputeShader.smoothed log u i) = false.
Proof.
  assert (Hnan : forall x, F32.leb x F32.one = true -> is_nan x = false).
  { intros x. destruct x; try reflexivity. discriminate. }
  unfold OpenCL.smoothed, ComputeShader.smoothed. rewrite fmin_min_one.
  repeat split; try apply min_one_le; apply Hnan, min_one_le.
Qed.

(** ** No iteration *)

(** X4: with [maxDepth = 0] in [main] both kernels store opaque
    black at every pixel, whatever the window, the palette and the [log]:
    the loop body and the palette are never reached. *)
Theorem no_iteration_is_black (log : float -> float) (tie : float -> bool)
    (p : Host.params) (pal : Host.image) (palette : list uchar4)
    (width height x y : Z) :
  Host.maxDepth p = 0 ->
  OpenCL.mandelbrot log (OpenCL.host_args p pal) palette width height x y
  = Some black /\
  ComputeShader.shaderSource log tie (ComputeShader.host_uniforms p pal)
    palette x y
  = Some black.
Proof.
  intros H0.
  unfold OpenCL.mandelbrot, OpenCL.shade_of, OpenCL.iterate, OpenCL.classify,
    ComputeShader.shaderSource, ComputeShader.shade_of, ComputeShader.iterate,
    ComputeShader.classify, OpenCL.host_args, ComputeShader.host_uniforms.
  cbn [OpenCL.maxDepth ComputeShader.maxDepth]. rewrite H0.
  split; reflexivity.
Qed.

Lemma no_iteration_is_black_witness :
  OpenCL.mandelbrot RefLog.log (OpenCL.host_args degenerate Host.no_image)
    [] 1024 1024 3 5 = Some black /\
  ComputeShader.shaderSource RefLog.log half_away
    (ComputeShader.host_uniforms degenerate Host.no_image) [] 3 5 = Some black.
Proof.
  apply (no_iteration_is_black RefLog.log half_away degenerate Host.no_image
           [] 1024 1024 3 5).
  reflexivity.
Defined.

(** ** The image buffer of the OpenCL program *)

Lemma offset_small (width height x y : Z) :
  width * height <= 2 ^ 31 ->
  0 <= x < width -> 0 <= y < height ->
  OpenCL.offset width x y = y * width + x /\ 0 <= y * width + x < width * height.
Proof.
  intros Hwh Hx Hy.
  assert (Hr : 0 <= y * width + x < width * height) by nia.
  split; [|exact Hr].
  unfold OpenCL.offset. rewrite to_int_add. apply to_int_small. lia.
Qed.

(** X5: for an image of at most [2 ^ 31] pixels the element
    [y * width + x] that a work item writes lies inside the [width * height]
    elements of the image, two different work items never write the same
    element, and every element is written by some work item. *)
Theorem image_layout (width height : Z) :
  1 <= width -> 1 <= height -> width * height <= 2 ^ 31 ->
  (forall x y, 0 <= x < width -> 0 <= y < height ->
     0 <= OpenCL.offset width x y < width * height) /\
  (forall x y x' y',
     0 <= x < width -> 0 <= y < height ->
     0 <= x' < width -> 0 <= y' < height ->
     OpenCL.offset width x y = OpenCL.offset width x' y' ->
     x = x' /\ y = y') /\
  (forall i, 0 <= i < width * height ->
     exists x y, 0 <= x < width /\ 0 <= y < height /\
                 OpenCL.offset width x y = i).
Proof.
  intros Hw Hh Hwh. split; [|split].
  - intros x y Hx Hy.
    destruct (offset_small width height x y Hwh Hx Hy) as [-> Hr]. exact Hr.
  - intros x y x' y' Hx Hy Hx' Hy'.
    destruct (offset_small width height x y Hwh Hx Hy) as [-> _].
    destruct (offset_small width height x' y' Hwh Hx' Hy') as [-> _].
    intros Heq. assert (y = y') by nia. subst y'. split; [lia|reflexivity].
  - intros i Hi. exists (i mod width), (i / width).
    assert (Hm : 0 <= i mod width < width) by (apply Z.mod_pos_bound; lia).
    assert (Hd : 0 <= i / width < height).
    { split; [apply Z.div_pos; lia|].
      apply Z.div_lt_upper_bound; [lia|]. lia. }
    split; [exact Hm|]. split; [exact Hd|].
    destruct (offset_small width height _ _ Hwh Hm Hd) as [-> _].
    pose proof (Z.div_mod i width). lia.
Qed.

Lemma image_layout_witness :
  (forall x y, 0 <= x < 1024 -> 0 <= y < 1024 ->
     0 <= OpenCL.offset 1024 x y < 1024 * 1024) /\
  (forall x y x' y',
     0 <= x < 1024 -> 0 <= y < 1024 ->
     0 <= x' < 1024 -> 0 <= y' < 1024 ->
     OpenCL.offset 1024 x y = OpenCL.offset 1024 x' y' ->
     x = x' /\ y = y') /\
  (forall i, 0 <= i < 1024 * 1024 ->
     exists x y, 0 <= x < 1024 /\ 0 <= y < 1024 /\
                 OpenCL.offset 1024 x y = i).
Proof. apply (image_layout 1024 1024); lia. Defined.

(** *** Stores *)

Lemma store_spec (img img' : OpenCL.buffer) (i : Z) (v : uchar4) :
  OpenCL.store img i v = Some img' ->
  List.length img' = List.length img /\
  nth_error img' (Z.to_nat i) = Some (Some v) /\
  (forall j, j <> Z.to_nat i -> nth_error img' j = nth_error img j).
Proof.
  unfold OpenCL.store.
  destruct ((0 <=? i) && (i <? Z.of_nat (List.length img))) eqn:Hr;
    [|discriminate].
  apply andb_true_iff in Hr. destruct Hr as [H0 Hlt].
  apply Z.leb_le in H0. apply Z.ltb_lt in Hlt.
  remember (skipn (S (Z.to_nat i)) img) as rest eqn:Hrest.
  assert (Hlen : List.length rest = (List.length img - S (Z.to_nat i))%nat).
  { subst rest. apply length_skipn. }
  assert (Hnth : forall k, nth_error rest k
                           = nth_error img (S (Z.to_nat i) + k)).
  { intros k. subst rest. apply nth_error_skipn. }
  clear Hrest. intros H. injection H as <-.
  assert (Hn : (Z.to_nat i < List.length img)%nat) by lia.
  assert (Hf : List.length (firstn (Z.to_nat i) img) = Z.to_nat i).
  { rewrite length_firstn. lia. }
  split; [|split].
  - rewrite length_app, Hf. cbn [List.length]. rewrite Hlen. lia.
  - rewrite nth_error_app2 by lia. rewrite Hf, Nat.sub_diag. reflexivity.
  - intros j Hj. destruct (Nat.lt_ge_cases j (Z.to_nat i)) as [Hlo|Hhi].
    + rewrite nth_error_app1 by lia. rewrite nth_error_firstn.
      destruct (Nat.ltb_spec j (Z.to_nat i)); [reflexivity|lia].
    + rewrite nth_error_app2 by lia. rewrite Hf.
      destruct (j - Z.to_nat i)%nat as [|d] eqn:Hd; [lia|].
      cbn [nth_error]. rewrite Hnth. f_equal. lia.
Qed.

Lemma store_in_range (img : OpenCL.buffer) (i : Z) (v : uchar4) :
  0 <= i < Z.of_nat (List.length img) ->
  exists img', OpenCL.store img i v = Some img'.
Proof.
  intros Hi. unfold OpenCL.store.
  destruct (Z.leb_spec 0 i); [|lia].
  destruct (Z.ltb_spec i (Z.of_nat (List.length img))); [|lia].
  simpl. eexists. reflexivity.
Qed.

Section Run.

Variable log : float -> float.
Variable a : OpenCL.args.
Variable palette : list uchar4.
Variables width height : Z.

(** Work items that write distinct elements inside the buffer, each with a
    defined color, leave their colors there and nothing else changed. *)
Lemma run_spec (items : list (Z * Z)) (img : OpenCL.buffer) :
  (forall id, In id items ->
     0 <= place width id < Z.of_nat (List.length img) /\
     color log a palette width height id <> None) ->
  NoDup (List.map (place width) items) ->
  exists img',
    OpenCL.run log a palette width height items img = Some img' /\
    List.length img' = List.length img /\
    (forall id, In id items ->
       nth_error img' (Z.to_nat (place width id))
       = Some (color log a palette width height id)) /\
    (forall j, ~ In j (List.map (fun id => Z.to_nat (place width id)) items) ->
       nth_error img' j = nth_error img j).
Proof.
  revert img. induction items as [|id rest IH]; intros img Hin Hnd.
  - exists img. split; [reflexivity|]. split; [reflexivity|].
    split; [intros id []|]. intros j _. reflexivity.
  - destruct (Hin id (or_introl eq_refl)) as [Hr Hc].
    destruct (color log a palette width height id) as [col|] eqn:Hcol;
      [clear Hc|now elim Hc].
    destruct (store_in_range img (place width id) col Hr) as [img1 H1].
    destruct (store_spec _ _ _ _ H1) as (Hlen & Hsame & Hother).
    inversion Hnd as [|? ? Hnot Hnd']; subst.
    destruct (IH img1) as (img' & Hrun & Hlen' & Hdone & Hrest).
    { intros id' Hid'. rewrite Hlen. apply Hin. now right. }
    { exact Hnd'. }
    exists img'. split; [|split; [|split]].
    + cbn [OpenCL.run]. unfold OpenCL.work_item.
      fold (color log a palette width height id). fold (place width id).
      rewrite Hcol, H1. exact Hrun.
    + congruence.
    + intros id' [<-|Hid'].
      * rewrite Hrest, Hsame, Hcol; [reflexivity|].
        intros Hj. apply in_map_iff in Hj. destruct Hj as (id2 & Heq & Hin2).
        apply Hnot. apply in_map_iff. exists id2. split; [|exact Hin2].
        destruct (Hin id2 (or_intror Hin2)) as [Hr2 _]. lia.
      * now apply Hdone.
    + intros j Hj. rewrite Hrest.
      * apply Hother. intros ->. apply Hj. now left.
      * intros Hj'. apply Hj. now right.
Qed.

End Run.

(** *** The work items of a range *)

Lemma in_ids (n k : Z) : In k (OpenCL.ids n) <-> 0 <= k < n.
Proof.
  unfold OpenCL.ids. rewrite in_map_iff. split.
  - intros (j & <- & Hj). apply in_seq in Hj. lia.
  - intros Hk. exists (Z.to_nat k). split; [lia|]. apply in_seq. lia.
Qed.

Lemma in_NDRange (w h x y : Z) :
  In (x, y) (OpenCL.NDRange (w, h)) <-> 0 <= x < w /\ 0 <= y < h.
Proof.
  unfold OpenCL.NDRange. cbn [fst snd]. rewrite in_flat_map. split.
  - intros (y' & Hy & Hin). apply in_map_iff in Hin.
    destruct Hin as (x' & Heq & Hx). injection Heq as <- <-.
    apply in_ids in Hy. apply in_ids in Hx. tauto.
  - intros [Hx Hy]. exists y. split; [now apply in_ids|].
    apply in_map_iff. exists x. split; [reflexivity|now apply in_ids].
Qed.

Lemma NoDup_ids (n : Z) : NoDup (OpenCL.ids n).
Proof.
  unfold OpenCL.ids. apply Finite.Injective_map_NoDup.
  - intros i j H. lia.
  - apply seq_NoDup.
Qed.

Lemma NoDup_NDRange (w h : Z) : NoDup (OpenCL.NDRange (w, h)).
Proof.
  unfold OpenCL.NDRange. cbn [fst snd].
  generalize (NoDup_ids h). generalize (OpenCL.ids h) as ys.
  induction ys as [|y ys IH]; intros Hnd; [constructor|].
  inversion Hnd as [|? ? Hnot Hnd']; subst.
  cbn [flat_map]. apply NoDup_app.
  - apply Finite.Injective_map_NoDup; [|apply NoDup_ids].
    intros i j H. now injection H.
  - now apply IH.
  - intros [x y'] Hin1 Hin2.
    apply in_map_iff in Hin1. destruct Hin1 as (x' & Heq & _).
    injection Heq as <- <-.
    apply in_flat_map in Hin2. destruct Hin2 as (y2 & Hy2 & Hin2).
    apply in_map_iff in Hin2. destruct Hin2 as (x2 & Heq & _).
    injection Heq as <- <-. now apply Hnot.
Qed.

Lemma imgBuffer_length (p : Host.params) :
  0 <= Host.width p * Host.height p < 2 ^ 30 ->
  Z.of_nat (List.length (OpenCL.imgBuffer p)) = Host.width p * Host.height p.
Proof.
  intros H. unfold OpenCL.imgBuffer. rewrite repeat_length.
  rewrite to_uint_small by lia. rewrite Z.div_mul by lia. lia.
Qed.

(** The work items of a range, in any order, on a buffer of one element
    per pixel. *)
Lemma run_NDRange (log : float -> float) (a : OpenCL.args)
    (palette : list uchar4) (w h : Z) (items : list (Z * Z))
    (img : OpenCL.buffer) :
  1 <= w -> 1 <= h -> w * h <= 2 ^ 31 ->
  Z.of_nat (List.length img) = w * h ->
  Permutation items (OpenCL.NDRange (w, h)) ->
  (forall x y, 0 <= x < w -> 0 <= y < h ->
     OpenCL.mandelbrot log a palette w h x y <> None) ->
  exists img',
    OpenCL.run log a palette w h items img = Some img' /\
    Z.of_nat (List.length img') = w * h /\
    forall x y, 0 <= x < w -> 0 <= y < h ->
      nth_error img' (Z.to_nat (y * w + x))
      = Some (OpenCL.mandelbrot log a palette w h x y).
Proof.
  intros Hw Hh Hwh' Hlen Hperm Hdef.
  assert (Hin : forall x y, In (x, y) items <-> 0 <= x < w /\ 0 <= y < h).
  { intros x y. rewrite <- in_NDRange. split; apply Permutation_in;
      [exact Hperm|now apply Permutation_sym]. }
  destruct (run_spec log a palette w h items img)
    as (img' & Hrun & Hl & Hdone & _).
  - intros [x y] Hid. apply Hin in Hid. destruct Hid as [Hx Hy].
    unfold place, color. cbn [fst snd]. split; [|now apply Hdef].
    rewrite Hlen.
    destruct (offset_small w h x y Hwh' Hx Hy) as [-> Hr]. exact Hr.
  - apply (Permutation_NoDup
             (l := List.map (place w) (OpenCL.NDRange (w, h)))).
    + apply Permutation_map. now apply Permutation_sym.
    + apply Finite.Injective_map_NoDup_in; [|apply NoDup_NDRange].
      intros [x y] [x' y'] H1 H2. unfold place. cbn [fst snd].
      apply in_NDRange in H1. apply in_NDRange in H2.
      destruct H1 as [Hx Hy]. destruct H2 as [Hx' Hy'].
      destruct (offset_small w h x y Hwh' Hx Hy) as [-> _].
      destruct (offset_small w h x' y' Hwh' Hx' Hy') as [-> _].
      intros Heq. assert (y = y') by nia. subst y'. f_equal. lia.
  - exists img'. split; [exact Hrun|]. split; [congruence|].
    intros x y Hx Hy.
    assert (Hid : In (x, y) items) by (apply Hin; tauto).
    specialize (Hdone (x, y) Hid). unfold place, color in Hdone.
    cbn [fst snd] in Hdone.
    destruct (offset_small w h x y Hwh' Hx Hy) as [Heq _].
    rewrite Heq in Hdone. exact Hdone.
Qed.

(** X6: the OpenCL program on an image of fewer than [2 ^ 30] pixels:
    when the palette access of every pixel is in bounds, the work items of
    the range [global(width, height)], run in any order on the buffer
    [main] allocates, all store inside that buffer, which then has
    [width * height] elements and holds at [y * width + x] the color the
    kernel computes for the pixel [(x, y)]. *)
Theorem kernel_fills_the_image (log : float -> float) (p : Host.params)
    (pal : Host.image) (items : list (Z * Z)) :
  let a := OpenCL.host_args p pal in
  let w := Host.width p in
  let h := Host.height p in
  1 <= w -> 1 <= h -> w * h < 2 ^ 30 ->
  Permutation items (OpenCL.NDRange (w, h)) ->
  (forall x y, 0 <= x < w -> 0 <= y < h ->
     OpenCL.mandelbrot log a (Host.texels pal) w h x y <> None) ->
  exists img,
    OpenCL.run log a (Host.texels pal) w h items (OpenCL.imgBuffer p)
    = Some img /\
    Z.of_nat (List.length img) = w * h /\
    forall x y, 0 <= x < w -> 0 <= y < h ->
      nth_error img (Z.to_nat (y * w + x))
      = Some (OpenCL.mandelbrot log a (Host.texels pal) w h x y).
Proof.
  intros a w h Hw Hh Hwh Hperm Hdef.
  apply run_NDRange; try assumption; [lia|].
  apply imgBuffer_length. fold w h. nia.
Qed.

Lemma kernel_fills_the_image_witness :
  exists img,
    OpenCL.run RefLog.log (OpenCL.host_args tiny two_colors) [white; black]
      2 2 [(1, 1); (0, 0); (1, 0); (0, 1)] (OpenCL.imgBuffer tiny)
    = Some img /\
    Z.of_nat (List.length img) = 2 * 2 /\
    forall x y, 0 <= x < 2 -> 0 <= y < 2 ->
      nth_error img (Z.to_nat (y * 2 + x))
      = Some (OpenCL.mandelbrot RefLog.log (OpenCL.host_args tiny two_colors)
                [white; black] 2 2 x y).
Proof.
  apply (kernel_fills_the_image RefLog.log tiny two_colors
           [(1, 1); (0, 0); (1, 0); (0, 1)]).
  - simpl. lia.
  - simpl. lia.
  - vm_compute. reflexivity.
  - vm_compute.
    apply (perm_trans (l' := [(0, 0); (1, 1); (1, 0); (0, 1)]));
      [apply perm_swap|].
    apply perm_skip.
    apply (perm_trans (l' := [(1, 0); (1, 1); (0, 1)])); [apply perm_swap|].
    apply perm_skip. apply perm_swap.
  - intros x y Hx Hy. simpl in Hx, Hy.
    assert (Hx' : x = 0 \/ x = 1) by lia.
    assert (Hy' : y = 0 \/ y = 1) by lia.
    destruct Hx' as [->| ->], Hy' as [->| ->]; vm_compute; discriminate.
Defined.

(** ** The dispatch of the shader *)

Lemma invoked_iff (l : ComputeShader.launch) (x y : Z) :
  ComputeShader.invoked l x y = true
  <-> 0 <= x < 32 * fst (ComputeShader.groups l) /\
      0 <= y < 32 * snd (ComputeShader.groups l).
Proof.
  unfold ComputeShader.invoked, ComputeShader.invocations,
    ComputeShader.local_size. cbn [fst snd].
  rewrite !andb_true_iff, !Z.leb_le, !Z.ltb_lt. tauto.
Qed.

(** What [main] dispatches. *)
Lemma main_launch (glfw_init glad_load : bool) (p : Host.params)
    (pal : Host.image) (l : ComputeShader.launch) :
  ComputeShader.main glfw_init glad_load p pal = Host.Dispatched l ->
  l = ComputeShader.mkLaunch (ComputeShader.host_uniforms p pal)
        (Host.texels pal)
        (Z.quot (Host.width p) (Host.localGroupSize p),
         Z.quot (Host.height p) (Host.localGroupSize p)).
Proof.
  unfold ComputeShader.main. intros Hmain.
  destruct (ComputeShader.img_size p <? 0); [discriminate|].
  destruct glfw_init, glad_load; try discriminate.
  destruct (_ || _); [discriminate|].
  injection Hmain as <-. reflexivity.
Qed.

(** Groups of 32 by 32 invocations cover an image exactly when its sizes
    are multiples of 32. *)
Lemma all_invoked (l : ComputeShader.launch) (w h : Z) :
  1 <= w -> 1 <= h ->
  ComputeShader.groups l = (Z.quot w 32, Z.quot h 32) ->
  (forall x y, 0 <= x < w -> 0 <= y < h -> ComputeShader.invoked l x y = true)
  <-> w mod 32 = 0 /\ h mod 32 = 0.
Proof.
  intros Hw Hh Hl. rewrite !Z.quot_div_nonneg in Hl by lia.
  pose proof (Z.div_mod w 32) as Hdw. pose proof (Z.div_mod h 32) as Hdh.
  pose proof (Z.mod_pos_bound w 32) as Hmw.
  pose proof (Z.mod_pos_bound h 32) as Hmh.
  split.
  - intros Hall. specialize (Hall (w - 1) (h - 1)).
    rewrite invoked_iff, Hl in Hall. cbn [fst snd] in Hall. lia.
  - intros [Hmw0 Hmh0] x y Hx Hy.
    rewrite invoked_iff, Hl. cbn [fst snd]. lia.
Qed.

(** X7: the shader fixes the work group at 32 by 32 invocations
    and [main] dispatches [width / localGroupSize] by
    [height / localGroupSize] groups.  With [localGroupSize = 32] the shader
    is invoked at every pixel of the image exactly when the width and the
    height are multiples of 32; with a larger [localGroupSize] the last
    pixel of the image is never computed. *)
Theorem dispatch_covers_the_image (glfw_init glad_load : bool)
    (p : Host.params) (pal : Host.image) (l : ComputeShader.launch) :
  ComputeShader.main glfw_init glad_load p pal = Host.Dispatched l ->
  1 <= Host.width p -> 1 <= Host.height p ->
  (Host.localGroupSize p = 32 ->
   ((forall x y, 0 <= x < Host.width p -> 0 <= y < Host.height p ->
                 ComputeShader.invoked l x y = true)
    <-> Host.width p mod 32 = 0 /\ Host.height p mod 32 = 0)) /\
  (32 < Host.localGroupSize p ->
   ComputeShader.invoked l (Host.width p - 1) (Host.height p - 1) = false).
Proof.
  intros Hmain Hw Hh. apply main_launch in Hmain. subst l. split.
  - intros HL. apply all_invoked; [exact Hw|exact Hh|].
    cbn [ComputeShader.groups]. now rewrite HL.
  - intros HL.
    set (l := ComputeShader.mkLaunch _ _ _).
    destruct (ComputeShader.invoked l (Host.width p - 1) (Host.height p - 1))
      eqn:Hinv; [|reflexivity].
    apply invoked_iff in Hinv. unfold l in Hinv.
    cbn [ComputeShader.groups fst snd] in Hinv.
    rewrite !Z.quot_div_nonneg in Hinv by lia.
    assert (Hq : Host.localGroupSize p * (Host.width p / Host.localGroupSize p)
                 <= Host.width p).
    { apply Z.mul_div_le. lia. }
    assert (H0 : 0 <= Host.width p / Host.localGroupSize p).
    { apply Z.div_pos; lia. }
    nia.
Qed.

Lemma dispatch_covers_the_image_witness :
  let l := ComputeShader.mkLaunch
             (ComputeShader.host_uniforms ComputeShader.parameters gradient)
             (Host.texels gradient) (256, 256) in
  (32 = 32 ->
   ((forall x y, 0 <= x < 8192 -> 0 <= y < 8192 ->
                 ComputeShader.invoked l x y = true)
    <-> 8192 mod 32 = 0 /\ 8192 mod 32 = 0)) /\
  (32 < 32 -> ComputeShader.invoked l (8192 - 1) (8192 - 1) = false).
Proof.
  apply (dispatch_covers_the_image true true ComputeShader.parameters gradient).
  - reflexivity.
  - simpl. lia.
  - simpl. lia.
Defined.

(** ** The errors of OpenGL *)

(** X8: [__checkOpenGLError] returns [GL_NO_ERROR] whatever
    errors were recorded: the value returned is the one that ended the
    loop, so it tells a caller nothing. *)
Theorem checkOpenGLError_returns_no_error (file : string) (line : Z)
    (recorded : list ComputeShader.GLenum) :
  fst (fst (ComputeShader.checkOpenGLError file line recorded))
  = ComputeShader.GL_NO_ERROR.
Proof.
  induction recorded as [|errorCode rest IH]; [reflexivity|].
  cbn [ComputeShader.checkOpenGLError].
  destruct (Z.eqb_spec errorCode ComputeShader.GL_NO_ERROR) as [->|Hne];
    [reflexivity|].
  destruct (ComputeShader.checkOpenGLError file line rest) as [[code left] lines].
  exact IH.
Qed.

(** X9: [__checkOpenGLError] clears every error the context
    has recorded and prints one line for each, oldest first: the name of the
    error (empty for a code without a [case]), the file and the line. *)
Theorem checkOpenGLError_reports_every_error (file : string) (line : Z)
    (recorded : list ComputeShader.GLenum) :
  (forall e, In e recorded -> e <> ComputeShader.GL_NO_ERROR) ->
  ComputeShader.checkOpenGLError file line recorded
  = (ComputeShader.GL_NO_ERROR, [],
     List.map (fun e => ComputeShader.error_name e ++ " | " ++ file ++ " ("
                        ++ ComputeShader.decimal line ++ ")")
              recorded).
Proof.
  induction recorded as [|errorCode rest IH]; intros Hne; [reflexivity|].
  cbn [ComputeShader.checkOpenGLError].
  destruct (Z.eqb_spec errorCode ComputeShader.GL_NO_ERROR) as [He|_].
  - elim (Hne errorCode (or_introl eq_refl) He).
  - rewrite IH; [reflexivity|]. intros e He. apply Hne. now right.
Qed.

Lemma checkOpenGLError_reports_every_error_witness :
  ComputeShader.checkOpenGLError "mandelbrot.cpp" 231
    [ComputeShader.GL_INVALID_OPERATION; 1287; ComputeShader.GL_OUT_OF_MEMORY]
  = (ComputeShader.GL_NO_ERROR, [],
     ["INVALID_OPERATION | mandelbrot.cpp (231)";
      " | mandelbrot.cpp (231)";
      "OUT_OF_MEMORY | mandelbrot.cpp (231)"]).
Proof.
  apply (checkOpenGLError_reports_every_error "mandelbrot.cpp" 231
           [ComputeShader.GL_INVALID_OPERATION; 1287;
            ComputeShader.GL_OUT_OF_MEMORY]).
  intros e [<-|[<-|[<-|[]]]]; discriminate.
Defined.

(** ** The device information *)

(** X10: what [printDeviceInfo] of the OpenGL program prints does
    not depend on the limits of the z dimension: it queries index 1 twice,
    so two contexts that differ only at index 2 give the same lines. *)
Theorem printDeviceInfo_leaves_out_z (gl gl' : ComputeShader.context) :
  (forall name, ComputeShader.glGetString gl name
                = ComputeShader.glGetString gl' name) ->
  (forall target, ComputeShader.glGetIntegerv gl target
                  = ComputeShader.glGetIntegerv gl' target) ->
  (forall target index, index <> 2 ->
     ComputeShader.glGetIntegeri_v gl target index
     = ComputeShader.glGetIntegeri_v gl' target index) ->
  ComputeShader.printDeviceInfo gl = ComputeShader.printDeviceInfo gl'.
Proof.
  intros Hs Hv Hi. unfold ComputeShader.printDeviceInfo.
  rewrite !Hs, Hv. rewrite !(Hi _ 0), !(Hi _ 1) by discriminate. reflexivity.
Qed.

Lemma printDeviceInfo_leaves_out_z_witness :
  ComputeShader.printDeviceInfo (some_context 65535 64)
  = ComputeShader.printDeviceInfo (some_context 1 1).
Proof.
  apply (printDeviceInfo_leaves_out_z (some_context 65535 64)
           (some_context 1 1)).
  - reflexivity.
  - reflexivity.
  - intros target index Hne. simpl.
    destruct (Z.eqb_spec index 2); [contradiction|reflexivity].
Defined.

(** ** Floor against round *)

Lemma floor_round_index (tie : float -> bool) (p : float) (k : Z) :
  0 <= k < 2 ^ 31 -> below p (k * 2 ^ 149) ->
  exists n,
    F32.trunc (F32.floor p) = Some n /\ 0 <= n <= k /\
    (F32.trunc (F32.round tie p) = Some n \/
     (n + 1 <= k /\ F32.trunc (F32.round tie p) = Some (n + 1))).
Proof.
  intros Hk [->|(m & e & -> & Hcan & Hs)].
  - exists 0. split; [reflexivity|]. split; [lia|]. left. reflexivity.
  - pose proof (canonical_digits _ _ Hcan) as (Hd & He & _).
    unfold F32.floor, F32.round, scaled in *.
    destruct (Z.leb_spec 0 e) as [Hpos|Hneg].
    + exists (Zpos m * 2 ^ e).
      rewrite Z.pow_add_r, Z.mul_assoc in Hs by lia.
      pose proof (pow2_pos e Hpos). pose proof (pow2_pos 149 ltac:(lia)).
      assert (Hle : Zpos m * 2 ^ e <= k) by pnia.
      assert (Ht : F32.trunc (S754_finite false m e) = Some (Zpos m * 2 ^ e)).
      { apply trunc_finite; [lia|pnia|].
        unfold scaled. rewrite Z.pow_add_r, Z.mul_assoc by lia. pnia. }
      split; [exact Ht|]. split; [pnia|]. left. exact Ht.
    + destruct (int_part_range m e Hneg Hd) as (Hq & Hqm & Hfrac).
      assert (Hp : 2 ^ 149 = 2 ^ (- e) * 2 ^ (e + 149)).
      { rewrite <- Z.pow_add_r by lia. f_equal. lia. }
      rewrite Hp, Z.mul_assoc in Hs.
      apply Z.mul_le_mono_pos_r in Hs; [|apply pow2_pos; lia].
      pose proof (pow2_pos (- e) ltac:(lia)) as Hpe.
      assert (Hhalf : 0 < Z.shiftl 1 (- e - 1)).
      { rewrite Z.shiftl_mul_pow2 by lia.
        pose proof (pow2_pos (- e - 1) ltac:(lia)). lia. }
      assert (Hqk : F32.int_part m e <= k) by pnia.
      assert (Hup : 0 < F32.frac_part m e -> F32.int_part m e + 1 <= k).
      { rewrite Hfrac. intros Hf. pnia. }
      set (q := F32.int_part m e) in *.
      set (r := F32.frac_part m e) in *.
      set (half := Z.shiftl 1 (- e - 1)) in *.
      exists q. split; [apply trunc_of_Z; lia|]. split; [lia|].
      assert (Ht : forall n, 0 <= n <= 2 ^ 24 ->
                 F32.trunc (if n =? 0 then S754_zero false
                            else F32.of_Z (if false then - n else n))
                 = Some n).
      { intros n Hn. destruct (Z.eqb_spec n 0) as [->|_]; [reflexivity|].
        apply trunc_of_Z. lia. }
      cbv zeta. fold q r half.
      destruct (Z.ltb_spec r half).
      * left. apply Ht. lia.
      * assert (q + 1 <= k) by (apply Hup; lia).
        destruct (Z.ltb_spec half r).
        -- right. split; [lia|]. apply Ht. lia.
        -- destruct (tie _).
           ++ right. split; [lia|]. apply Ht. lia.
           ++ left. apply Ht. lia.
Qed.

(** X11: for one configuration, a palette of 1 to [2 ^ 24 + 1]
    colors and a value [ie] between 0 and 1, the palette index of the shader
    ([round]) is the index of the OpenCL kernel ([floor]) or the next one,
    and both are in the palette. *)
Theorem shader_index_is_floor_or_next (tie : float -> bool)
    (a : OpenCL.args) (u : ComputeShader.uniforms) (ie : float) :
  same_setup a u ->
  1 <= OpenCL.paletteSize a <= 2 ^ 24 + 1 ->
  valid ie = true ->
  F32.leb F32.zero ie = true -> F32.leb ie F32.one = true ->
  exists n,
    OpenCL.index a ie = Some n /\ 0 <= n <= OpenCL.paletteSize a - 1 /\
    (ComputeShader.index tie u ie = Some n \/
     (n + 1 <= OpenCL.paletteSize a - 1 /\
      ComputeShader.index tie u ie = Some (n + 1))).
Proof.
  intros (_ & Hpal & _) HN Hv H0 H1.
  assert (Hpos : ComputeShader.position u ie = OpenCL.position a ie).
  { unfold ComputeShader.position, OpenCL.position. now rewrite Hpal. }
  unfold OpenCL.index, ComputeShader.index. rewrite Hpos.
  apply floor_round_index; [lia|].
  now apply cl_position_below.
Qed.

Lemma shader_index_is_floor_or_next_witness :
  let a := OpenCL.host_args one_group gradient in
  let u := ComputeShader.host_uniforms one_group gradient in
  exists n,
    OpenCL.index a one_half = Some n /\ 0 <= n <= OpenCL.paletteSize a - 1 /\
    (ComputeShader.index half_away u one_half = Some n \/
     (n + 1 <= OpenCL.paletteSize a - 1 /\
      ComputeShader.index half_away u one_half = Some (n + 1))).
Proof.
  apply (shader_index_is_floor_or_next half_away
           (OpenCL.host_args one_group gradient)
           (ComputeShader.host_uniforms one_group gradient) one_half).
  - repeat split.
  - split; vm_compute; discriminate.
  - reflexivity.
  - reflexivity.
  - reflexivity.
Defined.

(** ** The first pixel *)

Lemma add_finite_zero (x y : float) :
  is_finite x = true -> is_zero y = true -> F32.add x y = x.
Proof. destruct x, y; try discriminate; reflexivity. Qed.

Lemma add_zero_finite (x y : float) :
  is_zero x = true -> is_finite y = true -> F32.add x y = y.
Proof. destruct x, y; try discriminate; reflexivity. Qed.

Lemma mul_finite_zero (x y : float) :
  is_finite x = true -> is_zero y = true -> is_zero (F32.mul x y) = true.
Proof. destruct x, y; try discriminate; reflexivity. Qed.

Lemma div_zero_finite (x y : float) :
  is_zero x = true -> is_finite y = true -> is_zero (F32.div x y) = true.
Proof. destruct x, y; try discriminate; reflexivity. Qed.

(** X12: in an image at least two pixels wide and high, with a
    window of finite non-zero numbers, both kernels give the first column
    exactly the real part [min.x] and the first row exactly the imaginary
    part [min.y] of the corner of the window. *)
Theorem first_pixel_is_the_window_corner (a : OpenCL.args)
    (u : ComputeShader.uniforms) (width height : Z) :
  2 <= width <= 2 ^ 31 -> 2 <= height <= 2 ^ 31 ->
  finite2 (OpenCL.min a) -> finite2 (OpenCL.delta a) ->
  finite2 (ComputeShader.cmin u) -> finite2 (ComputeShader.cdelta u) ->
  finite2 (ComputeShader.size u) ->
  (forall y, vx (OpenCL.interpolate a width height 0 y) = vx (OpenCL.min a)) /\
  (forall x, vy (OpenCL.interpolate a width height x 0) = vy (OpenCL.min a)) /\
  (forall y, vx (ComputeShader.interpolate u 0 y) = vx (ComputeShader.cmin u)) /\
  (forall x, vy (ComputeShader.interpolate u x 0) = vy (ComputeShader.cmin u)).
Proof.
  intros Hw Hh [Hmx Hmy] [Hdx Hdy] [Hcx Hcy] [Hex Hey] [Hsx Hsy].
  assert (Hz : forall n, 2 <= n <= 2 ^ 31 ->
                 is_zero (F32.div (F32.of_Z 0) (F32.of_Z (to_int (n - 1))))
                 = true).
  { intros n Hn. rewrite to_int_small by lia.
    rewrite div_zero_of_Z by lia. reflexivity. }
  unfold OpenCL.interpolate, ComputeShader.interpolate, vadd, vmul, vdiv.
  cbn [vx vy].
  split; [|split; [|split]]; intros k.
  - apply add_finite_zero; [exact Hmx|].
    apply mul_finite_zero; [exact Hdx|]. now apply Hz.
  - apply add_finite_zero; [exact Hmy|].
    apply mul_finite_zero; [exact Hdy|]. now apply Hz.
  - apply add_zero_finite; [|exact Hcx].
    apply div_zero_finite; [|exact Hsx].
    now apply mul_finite_zero.
  - apply add_zero_finite; [|exact Hcy].
    apply div_zero_finite; [|exact Hsy].
    now apply mul_finite_zero.
Qed.

Lemma first_pixel_is_the_window_corner_witness :
  let a := OpenCL.host_args one_group two_colors in
  let u := ComputeShader.host_uniforms one_group two_colors in
  (forall y, vx (OpenCL.interpolate a 32 32 0 y) = vx (OpenCL.min a)) /\
  (forall x, vy (OpenCL.interpolate a 32 32 x 0) = vy (OpenCL.min a)) /\
  (forall y, vx (ComputeShader.interpolate u 0 y) = vx (ComputeShader.cmin u)) /\
  (forall x, vy (ComputeShader.interpolate u x 0) = vy (ComputeShader.cmin u)).
Proof.
  apply (first_pixel_is_the_window_corner
           (OpenCL.host_args one_group two_colors)
           (ComputeShader.host_uniforms one_group two_colors) 32 32).
  - lia.
  - lia.
  - split; reflexivity.
  - split; reflexivity.
  - split; reflexivity.
  - split; reflexivity.
  - split; reflexivity.
Defined.

(** ** Every result of a rounding is a binary32 number *)

Lemma shr_1_m (r : shr_record) :
  0 <= shr_m r -> shr_m (shr_1 r) = shr_m r / 2.
Proof.
  destruct r as [m r s]. cbn [shr_m]. intros Hm.
  now rewrite shr_1_spec.
Qed.

Lemma iter_shr_m (p : positive) (r : shr_record) :
  0 <= shr_m r -> shr_m (iter_pos shr_1 p r) = shr_m r / 2 ^ Zpos p.
Proof.
  revert r. induction p as [p IH|p IH|]; intros r Hr; cbn [iter_pos].
  - assert (Hpp : 0 < 2 ^ Zpos p) by (apply Z.pow_pos_nonneg; lia).
    assert (H1 : 0 <= shr_m (shr_1 r)).
    { rewrite shr_1_m by exact Hr. apply Z.div_pos; lia. }
    assert (H2 : 0 <= shr_m (iter_pos shr_1 p (shr_1 r))).
    { rewrite IH by exact H1. apply Z.div_pos; lia. }
    rewrite IH, IH, shr_1_m by assumption.
    rewrite !Z.div_div by lia.
    f_equal. replace (Zpos p~1) with (1 + Zpos p + Zpos p) by lia.
    rewrite !Z.pow_add_r by lia. change (2 ^ 1) with 2. ring.
  - assert (Hpp : 0 < 2 ^ Zpos p) by (apply Z.pow_pos_nonneg; lia).
    assert (H2 : 0 <= shr_m (iter_pos shr_1 p r)).
    { rewrite IH by exact Hr. apply Z.div_pos; lia. }
    rewrite IH, IH by assumption.
    rewrite !Z.div_div by lia.
    f_equal. replace (Zpos p~0) with (Zpos p + Zpos p) by lia.
    rewrite !Z.pow_add_r by lia. ring.
  - now apply shr_1_m.
Qed.

(** The first shift of a rounding: the mantissa is divided by a power of
    two and the exponent becomes the one of the format. *)
Lemma shr_fexp_m (m e : Z) (l : location) :
  0 <= m -> e <= fexp32 (Zdigits2 m + e) ->
  exists r,
    shr_fexp F32.prec F32.emax m e l = (r, fexp32 (Zdigits2 m + e)) /\
    shr_m r = m / 2 ^ (fexp32 (Zdigits2 m + e) - e).
Proof.
  intros Hm He. unfold shr_fexp. fold_fexp32.
  assert (Hr : shr_m (shr_record_of_loc m l) = m) by (destruct l as [|[]]; reflexivity).
  destruct (fexp32 (Zdigits2 m + e) - e) as [|p|p] eqn:Ek; try lia.
  - exists (shr_record_of_loc m l). cbn [shr]. split.
    + f_equal. lia.
    + rewrite Hr. simpl (2 ^ 0). now rewrite Z.div_1_r.
  - exists (iter_pos shr_1 p (shr_record_of_loc m l)). cbn [shr]. split.
    + f_equal. lia.
    + rewrite iter_shr_m by lia. now rewrite Hr.
Qed.

Lemma round_nearest_even_range (m : Z) (l : location) :
  m <= round_nearest_even m l <= m + 1.
Proof.
  unfold round_nearest_even. destruct l as [|[]]; try lia.
  destruct (Z.even m); lia.
Qed.

Lemma Zdigits2_pos (q : positive) : Zdigits2 (Zpos q) = digits q.
Proof. reflexivity. Qed.

Lemma digits_le_24 (q : positive) : Zpos q < 2 ^ 24 -> digits q <= 24.
Proof.
  intros Hq. pose proof (digits_bounds q) as Hb. pose proof (digits_pos q).
  assert (Hlt : 2 ^ (digits q - 1) < 2 ^ 24) by lia.
  apply Z.pow_lt_mono_r_iff in Hlt; lia.
Qed.

Lemma digits_ge_24 (q : positive) : 2 ^ 23 <= Zpos q -> 24 <= digits q.
Proof.
  intros Hq. pose proof (digits_bounds q) as Hb. pose proof (digits_pos q).
  assert (Hlt : 2 ^ 23 < 2 ^ digits q) by lia.
  apply Z.pow_lt_mono_r_iff in Hlt; lia.
Qed.

Lemma valid_finite (s : bool) (m : positive) (e : Z) :
  fexp32 (digits m + e) = e -> e <= 104 ->
  valid (S754_finite s m e) = true.
Proof.
  intros Hc He. unfold valid, valid_binary, bounded, canonical_mantissa.
  fold (digits m). fold_fexp32. rewrite Hc, Z.eqb_refl.
  apply Z.leb_le. exact He.
Qed.

(** The second shift of a rounding, after the mantissa was rounded. *)
Lemma rounded_pack (s : bool) (q e1 : Z) :
  - 149 <= e1 -> 0 <= q <= 2 ^ 24 ->
  (let '(r, e2) := shr_fexp F32.prec F32.emax q e1 loc_Exact in
   match shr_m r with
   | Z0 => S754_zero s
   | Zpos m => if e2 <=? F32.emax - F32.prec then S754_finite s m e2
               else S754_infinity s
   | Zneg _ => S754_nan
   end) = pack s q e1.
Proof.
  intros He1 Hq. unfold shr_fexp, pack. fold_fexp32.
  change (F32.emax - F32.prec) with 104.
  destruct q as [|q|q]; [| |lia].
  - cbn [Zdigits2 shr_record_of_loc].
    rewrite shr_nop by (unfold fexp32; lia). reflexivity.
  - cbn [Zdigits2 shr_record_of_loc]. fold (digits q).
    destruct (Z.eqb_spec (Zpos q) (2 ^ 24)) as [E24|N24].
    + assert (Hdq : digits q = 25).
      { apply digits_unique. rewrite E24. split; [discriminate|reflexivity]. }
      rewrite Hdq.
      replace (fexp32 (25 + e1) - e1) with 1 by (unfold fexp32; lia).
      injection E24 as ->. reflexivity.
    + assert (Hdq : digits q <= 24) by (apply digits_le_24; lia).
      rewrite shr_nop by (unfold fexp32; lia). reflexivity.
Qed.

(** A rounded mantissa at the exponent of the format is a binary32 number. *)
Lemma pack_valid (s : bool) (q e1 : Z) :
  - 149 <= e1 -> 0 <= q <= 2 ^ 24 -> e1 = - 149 \/ 2 ^ 23 <= q ->
  valid (pack s q e1) = true /\ signed s (pack s q e1) = true.
Proof.
  intros He1 Hq Hn. unfold pack.
  assert (Hs : Bool.eqb s s = true) by (destruct s; reflexivity).
  destruct q as [|q|q]; [split; [reflexivity|exact Hs]| |lia].
  destruct (Z.eqb_spec (Zpos q) (2 ^ 24)) as [E24|N24].
  - destruct (Z.leb_spec (e1 + 1) 104); [|split; [reflexivity|exact Hs]].
    split; [|exact Hs]. apply valid_finite; [|lia].
    change (digits (2 ^ 23)) with 24. unfold fexp32. lia.
  - assert (Hdq : digits q <= 24) by (apply digits_le_24; lia).
    destruct (Z.leb_spec e1 104); [|split; [reflexivity|exact Hs]].
    split; [|exact Hs]. apply valid_finite; [|lia].
    destruct Hn as [->|Hn]; [unfold fexp32; lia|].
    pose proof (digits_ge_24 q Hn). unfold fexp32. lia.
Qed.

(** A rounding of a mantissa [m] that has the digits of the format, or
    more: [m] is shifted to the exponent of the format and the result is
    the quotient, or the next integer. *)
Lemma round_aux_floor (s : bool) (m e : Z) (l : location) :
  0 <= m -> e <= fexp32 (Zdigits2 m + e) ->
  exists q,
    m / 2 ^ (fexp32 (Zdigits2 m + e) - e) <= q
    <= m / 2 ^ (fexp32 (Zdigits2 m + e) - e) + 1 /\
    0 <= q <= 2 ^ 24 /\
    (fexp32 (Zdigits2 m + e) = - 149 \/ 2 ^ 23 <= q) /\
    binary_round_aux F32.prec F32.emax s m e l
    = pack s q (fexp32 (Zdigits2 m + e)).
Proof.
  intros Hm He. unfold binary_round_aux.
  destruct (shr_fexp_m m e l Hm He) as (r & -> & Hr).
  remember (fexp32 (Zdigits2 m + e)) as e1 eqn:E1.
  assert (Hlo : - 149 <= e1) by (subst e1; unfold fexp32; lia).
  assert (Hfe : Zdigits2 m + e - 24 <= e1) by (subst e1; unfold fexp32; lia).
  assert (Hcase : e1 = - 149 \/ e1 = Zdigits2 m + e - 24)
    by (subst e1; unfold fexp32; lia).
  clear E1.
  pose proof (round_nearest_even_range (shr_m r) (loc_of_shr_record r)) as Hq.
  assert (Hp : 0 < 2 ^ (e1 - e)) by (apply Z.pow_pos_nonneg; lia).
  assert (Hd0 : 0 <= m / 2 ^ (e1 - e)) by (apply Z.div_pos; lia).
  assert (Hd1 : m / 2 ^ (e1 - e) < 2 ^ 24).
  { destruct m as [|p|p]; [|  |lia].
    - rewrite Z.div_0_l by lia. reflexivity.
    - rewrite Zdigits2_pos in *.
      pose proof (digits_bounds p).
      apply (div_pow_lt _ (digits p)); lia. }
  exists (round_nearest_even (shr_m r) (loc_of_shr_record r)).
  split; [lia|]. split; [lia|]. split.
  - destruct Hcase as [E|E]; [now left|right].
    destruct m as [|p|p]; [|  |lia].
    + destruct (Z.eq_dec e1 (- 149)) as [E'|N]; [|cbn [Zdigits2] in *; lia].
      exfalso. cbn [Zdigits2] in *. lia.
    + rewrite Zdigits2_pos in *.
      assert (Hk : e1 - e = digits p - 24) by lia.
      rewrite Hk in *.
      assert (2 ^ 23 <= Zpos p / 2 ^ (digits p - 24)); [|lia].
      apply Z.div_le_lower_bound; [lia|].
      rewrite <- Z.pow_add_r by lia.
      replace (digits p - 24 + 23) with (digits p - 1) by lia.
      apply digits_bounds.
  - apply rounded_pack; [exact Hlo|lia].
Qed.

(** Such a rounding gives a binary32 number of the sign asked for. *)
Lemma round_aux_valid (s : bool) (m e : Z) (l : location) :
  0 <= m -> e <= fexp32 (Zdigits2 m + e) ->
  valid (binary_round_aux F32.prec F32.emax s m e l) = true /\
  signed s (binary_round_aux F32.prec F32.emax s m e l) = true.
Proof.
  intros Hm He.
  destruct (round_aux_floor s m e l Hm He) as (q & _ & Hq & Hn & ->).
  apply pack_valid; [unfold fexp32; lia|exact Hq|exact Hn].
Qed.

(** ** Division *)

(** The quotient and the remainder that [SFdiv] rounds. *)
Lemma div_core_spec (m1 : positive) (e1 : Z) (m2 : positive) (e2 : Z) :
  exists q r,
    SFdiv_core_binary F32.prec F32.emax (Zpos m1) e1 (Zpos m2) e2
    = (q, Z.min (fexp32 (digits m1 + e1 - (digits m2 + e2))) (e1 - e2),
       new_location (Zpos m2) r) /\
    Zpos m1
    * 2 ^ (e1 - e2
           - Z.min (fexp32 (digits m1 + e1 - (digits m2 + e2))) (e1 - e2))
    = q * Zpos m2 + r /\
    0 <= r < Zpos m2.
Proof.
  unfold SFdiv_core_binary. cbn [Zdigits2]. fold (digits m1) (digits m2).
  fold_fexp32.
  set (e' := Z.min (fexp32 (digits m1 + e1 - (digits m2 + e2))) (e1 - e2)).
  assert (Hs : 0 <= e1 - e2 - e') by (unfold e'; lia).
  set (m' := match e1 - e2 - e' with
             | 0 => Zpos m1
             | Zpos _ => Z.shiftl (Zpos m1) (e1 - e2 - e')
             | Zneg _ => 0
             end).
  assert (Hm' : m' = Zpos m1 * 2 ^ (e1 - e2 - e')).
  { unfold m'. destruct (e1 - e2 - e') as [|p|p] eqn:Es; [|  |lia].
    - simpl (2 ^ 0). lia.
    - now rewrite Z.shiftl_mul_pow2. }
  pose proof (Z_div_mod m' (Zpos m2) ltac:(lia)) as Hdm.
  destruct (Z.div_eucl m' (Zpos m2)) as [q r].
  exists q, r. split; [reflexivity|]. rewrite <- Hm'. lia.
Qed.

Lemma fexp32_mono (a b : Z) : a <= b -> fexp32 a <= fexp32 b.
Proof. unfold fexp32. lia. Qed.

(** The quotient has the digits of the format, or more. *)
Lemma div_core_digits (m1 : positive) (e1 : Z) (m2 : positive) (e2 q r : Z) :
  let e' := Z.min (fexp32 (digits m1 + e1 - (digits m2 + e2))) (e1 - e2) in
  Zpos m1 * 2 ^ (e1 - e2 - e') = q * Zpos m2 + r ->
  0 <= r < Zpos m2 ->
  0 <= q /\ e' <= fexp32 (Zdigits2 q + e').
Proof.
  intros e' Hqr Hr.
  assert (Hs : 0 <= e1 - e2 - e') by (unfold e'; lia).
  pose proof (pow2_pos _ Hs) as Hp.
  assert (Hq0 : 0 <= q) by nia.
  split; [exact Hq0|].
  destruct (Z.le_gt_cases e' (- 149)) as [Hsub|Hnorm];
    [unfold fexp32; lia|].
  pose proof (digits_bounds m1) as Hb1. pose proof (digits_bounds m2) as Hb2.
  pose proof (digits_pos m1). pose proof (digits_pos m2).
  assert (He' : e' <= digits m1 + e1 - (digits m2 + e2) - 24)
    by (unfold e', fexp32 in *; lia).
  remember (e1 - e2 - e') as sh eqn:Esh.
  assert (Hsh : digits m2 - digits m1 + 24 <= sh) by lia.
  assert (Hlow : 2 ^ (digits m1 - digits m2 + sh - 1) <= q).
  { assert (Hm' : 2 ^ (digits m1 - digits m2 + sh - 1) * 2 ^ digits m2
                  <= Zpos m1 * 2 ^ sh).
    { rewrite <- Z.pow_add_r by lia.
      replace (digits m1 - digits m2 + sh - 1 + digits m2)
        with (digits m1 - 1 + sh) by lia.
      rewrite Z.pow_add_r by lia.
      apply Z.mul_le_mono_nonneg_r; lia. }
    pose proof (pow2_pos (digits m1 - digits m2 + sh - 1) ltac:(lia)).
    nia. }
  destruct q as [|q|q]; [| |lia].
  - pose proof (pow2_pos (digits m1 - digits m2 + sh - 1) ltac:(lia)). lia.
  - rewrite Zdigits2_pos.
    pose proof (digits_ge q (digits m1 - digits m2 + sh - 1) ltac:(lia) Hlow).
    apply Z.le_trans with (fexp32 (digits m1 + e1 - (digits m2 + e2)));
      [unfold e'; lia|].
    apply fexp32_mono. lia.
Qed.

(** Every quotient is a binary32 number, whatever its operands. *)
Lemma div_valid (x y : float) : valid (F32.div x y) = true.
Proof.
  destruct x as [sx|sx| |sx mx ex], y as [sy|sy| |sy my ey]; try reflexivity.
  unfold F32.div, SFdiv.
  destruct (div_core_spec mx ex my ey) as (q & r & -> & Hqr & Hr).
  destruct (div_core_digits mx ex my ey q r Hqr Hr) as [Hq He].
  now apply round_aux_valid.
Qed.

(** The quotient of a number that is not negative by a positive one. *)
Lemma div_nonneg (x y : float) :
  nonneg x = true -> positive_finite y = true -> nonneg (F32.div x y) = true.
Proof.
  destruct x as [sx|sx| |sx mx ex], y as [sy|sy| |sy my ey];
    try discriminate; destruct sy; try discriminate.
  - reflexivity.
  - destruct sx; [discriminate|reflexivity].
  - destruct sx; [discriminate|]. intros _ _.
    unfold F32.div, SFdiv. cbn [xorb].
    destruct (div_core_spec mx ex my ey) as (q & r & -> & Hqr & Hr).
    destruct (div_core_digits mx ex my ey q r Hqr Hr) as [Hq He].
    destruct (round_aux_valid false q _ (new_location (Zpos my) r) Hq He)
      as [_ Hs].
    destruct (binary_round_aux _ _ _ _ _ _) as [s|s| |s m e];
      try discriminate; destruct s; try discriminate; reflexivity.
Qed.

(** ** The palette access of every pixel *)

Lemma clamp_range (q : float) :
  valid q = true -> nonneg q = true ->
  valid (F32.min F32.one q) = true /\
  F32.leb F32.zero (F32.min F32.one q) = true /\
  F32.leb (F32.min F32.one q) F32.one = true.
Proof.
  intros Hv Hn. split; [|split; [|apply min_one_le]].
  - unfold F32.min. destruct (F32.ltb q F32.one); [exact Hv|reflexivity].
  - unfold F32.min. destruct (F32.ltb q F32.one) eqn:Hq; [|reflexivity].
    destruct q as [s|s| |s m e]; try discriminate;
      destruct s; try discriminate; reflexivity.
Qed.

Section Pixel.

Variable log : float -> float.
Variable palette : list uchar4.
Variable c : float2.

(** A pixel of the OpenCL kernel for which [log] returns numbers that are
    not negative is stored black or a color of the palette. *)
Lemma cl_pixel_defined (a : OpenCL.args) :
  2 <= OpenCL.maxDepth a < 2 ^ 31 ->
  1 <= OpenCL.paletteSize a <= 2 ^ 24 + 1 ->
  Z.of_nat (List.length palette) = OpenCL.paletteSize a ->
  positive_finite (log (OpenCL.scaleForce a)) = true ->
  (forall d, 0 <= d < OpenCL.maxDepth a ->
     nonneg (log (F32.add (F32.mul (OpenCL.normalized a d)
                                   (OpenCL.scaleForce a)) F32.one)) = true) ->
  exists col, color_of palette (OpenCL.shade_of log a c) = Some col.
Proof.
  intros Hmax HN Hlen Hsf Hlog.
  destruct (cl_iterate_orbit a c ltac:(lia)) as (k & Hk & Heq & _ & _).
  unfold OpenCL.shade_of, OpenCL.classify. rewrite Heq.
  rewrite uint_depth_orbit, depth_orbit_small by lia.
  destruct (Z.eqb_spec (Z.of_nat k) (OpenCL.maxDepth a)) as [_|Hne].
  - exists black. reflexivity.
  - unfold OpenCL.smoothed. rewrite fmin_min_one.
    set (q := F32.div _ _).
    assert (Hq : valid q = true /\ nonneg q = true).
    { split; [apply div_valid|]. apply div_nonneg; [|exact Hsf].
      apply Hlog. lia. }
    destruct (clamp_range q (proj1 Hq) (proj2 Hq)) as (Hv & H0 & H1).
    destruct (floor_index (OpenCL.position a (F32.min F32.one q))
                (OpenCL.paletteSize a - 1))
      as (n & Hn & Hr); [lia|now apply cl_position_below|].
    unfold OpenCL.index. rewrite Hn. apply color_of_in_range. lia.
Qed.

(** The same for the shader. *)
Lemma gl_pixel_defined (tie : float -> bool) (u : ComputeShader.uniforms) :
  1 <= ComputeShader.maxDepth u < 2 ^ 31 - 1 ->
  0 <= ComputeShader.paletteSize u <= 2 ^ 24 ->
  Z.of_nat (List.length palette) = ComputeShader.paletteSize u + 1 ->
  positive_finite (log (ComputeShader.scaleForce u)) = true ->
  (forall d, 0 <= d <= ComputeShader.maxDepth u ->
     nonneg (log (F32.add (F32.mul (ComputeShader.normalized u d)
                                   (ComputeShader.scaleForce u)) F32.one))
     = true) ->
  exists col, color_of palette (ComputeShader.shade_of log tie u c) = Some col.
Proof.
  intros Hmax HN Hlen Hsf Hlog.
  destruct (gl_iterate_orbit u c ltac:(lia)) as (k & Hk & Heq & _ & _).
  unfold ComputeShader.shade_of, ComputeShader.classify. rewrite Heq.
  rewrite depth_orbit_small by lia.
  destruct (Z.ltb_spec (ComputeShader.maxDepth u) (Z.of_nat k)) as [_|Hle].
  - exists black. reflexivity.
  - unfold ComputeShader.smoothed.
    set (q := F32.div _ _).
    assert (Hq : valid q = true /\ nonneg q = true).
    { split; [apply div_valid|]. apply div_nonneg; [|exact Hsf].
      apply Hlog. lia. }
    destruct (clamp_range q (proj1 Hq) (proj2 Hq)) as (Hv & H0 & H1).
    destruct (round_index tie (ComputeShader.position u (F32.min F32.one q))
                (ComputeShader.paletteSize u))
      as (n & Hn & Hr); [lia|now apply gl_position_below|].
    unfold ComputeShader.index. rewrite Hn. apply color_of_in_range. lia.
Qed.

End Pixel.

(** The arguments and the uniforms that [main] sets. *)
Lemma host_sizes (p : Host.params) (pal : Host.image) :
  2 <= Host.maxDepth p < 2 ^ 31 ->
  1 <= Host.h_palette pal <= 2 ^ 24 + 1 ->
  OpenCL.maxDepth (OpenCL.host_args p pal) = Host.maxDepth p /\
  ComputeShader.maxDepth (ComputeShader.host_uniforms p pal)
  = Host.maxDepth p - 1 /\
  OpenCL.paletteSize (OpenCL.host_args p pal) = Host.h_palette pal /\
  ComputeShader.paletteSize (ComputeShader.host_uniforms p pal)
  = Host.h_palette pal - 1.
Proof.
  intros Hmax HN.
  unfold OpenCL.host_args, ComputeShader.host_uniforms.
  cbn [OpenCL.maxDepth ComputeShader.maxDepth OpenCL.paletteSize
       ComputeShader.paletteSize].
  rewrite (to_uint_small (Host.maxDepth p)) by lia.
  rewrite (to_uint_small (Host.h_palette pal)) by lia.
  rewrite !to_int_small by lia. repeat split.
Qed.

Lemma cl_host_pixel_defined (log : float -> float) (p : Host.params)
    (pal : Host.image) (width height x y : Z) :
  2 <= Host.maxDepth p < 2 ^ 31 ->
  1 <= Host.h_palette pal <= 2 ^ 24 + 1 ->
  Z.of_nat (List.length (Host.texels pal)) = Host.h_palette pal ->
  log_fits log p ->
  exists col,
    OpenCL.mandelbrot log (OpenCL.host_args p pal) (Host.texels pal)
      width height x y = Some col.
Proof.
  intros Hmax HN Hlen [Hsf Hlog].
  destruct (host_sizes p pal Hmax HN) as (Hmd & _ & Hpa & _).
  unfold OpenCL.mandelbrot. apply cl_pixel_defined.
  - rewrite Hmd. exact Hmax.
  - rewrite Hpa. exact HN.
  - rewrite Hpa. exact Hlen.
  - exact Hsf.
  - rewrite Hmd. intros d Hd. specialize (Hlog d Hd).
    unfold log_argument in Hlog. unfold OpenCL.normalized.
    rewrite Hmd, to_uint_small by lia. exact Hlog.
Qed.

Lemma gl_host_pixel_defined (log : float -> float) (tie : float -> bool)
    (p : Host.params) (pal : Host.image) (x y : Z) :
  2 <= Host.maxDepth p < 2 ^ 31 ->
  1 <= Host.h_palette pal <= 2 ^ 24 + 1 ->
  Z.of_nat (List.length (Host.texels pal)) = Host.h_palette pal ->
  log_fits log p ->
  exists col,
    ComputeShader.shaderSource log tie (ComputeShader.host_uniforms p pal)
      (Host.texels pal) x y = Some col.
Proof.
  intros Hmax HN Hlen [Hsf Hlog].
  destruct (host_sizes p pal Hmax HN) as (_ & Hmu & _ & Hpu).
  unfold ComputeShader.shaderSource. apply gl_pixel_defined.
  - rewrite Hmu. lia.
  - rewrite Hpu. lia.
  - rewrite Hpu. lia.
  - exact Hsf.
  - rewrite Hmu. intros d Hd. specialize (Hlog d ltac:(lia)).
    unfold log_argument in Hlog. unfold ComputeShader.normalized.
    rewrite Hmu. exact Hlog.
Qed.

(** X13: both programs, with [2 <= maxDepth < 2 ^ 31], a palette
    image one pixel wide of 1 to [2 ^ 24 + 1] colors and a [log] that fits
    the configuration ([log scaleForce] positive, no negative number and no
    NaN at the [maxDepth] arguments a kernel can pass it): at every pixel
    each kernel stores a defined color, opaque black or an entry of the
    palette; no palette access is out of bounds. *)
Theorem palette_access_is_in_bounds (log : float -> float)
    (tie : float -> bool) (p : Host.params) (pal : Host.image)
    (width height x y : Z) :
  2 <= Host.maxDepth p < 2 ^ 31 ->
  1 <= Host.h_palette pal <= 2 ^ 24 + 1 ->
  Z.of_nat (List.length (Host.texels pal)) = Host.h_palette pal ->
  log_fits log p ->
  (exists col,
     OpenCL.mandelbrot log (OpenCL.host_args p pal) (Host.texels pal)
       width height x y = Some col) /\
  (exists col,
     ComputeShader.shaderSource log tie (ComputeShader.host_uniforms p pal)
       (Host.texels pal) x y = Some col).
Proof.
  intros Hmax HN Hlen Hfit.
  split; [now apply cl_host_pixel_defined|now apply gl_host_pixel_defined].
Qed.

Lemma palette_access_is_in_bounds_witness :
  (exists col,
     OpenCL.mandelbrot RefLog.log (OpenCL.host_args shallow two_colors)
       [white; black] 32 32 3 5 = Some col) /\
  (exists col,
     ComputeShader.shaderSource RefLog.log half_away
       (ComputeShader.host_uniforms shallow two_colors) [white; black] 3 5
     = Some col).
Proof.
  apply (palette_access_is_in_bounds RefLog.log half_away shallow two_colors
           32 32 3 5).
  - vm_compute. split; [discriminate|reflexivity].
  - vm_compute. split; discriminate.
  - reflexivity.
  - split; [reflexivity|].
    intros d Hd. change (Host.maxDepth shallow) with 4 in Hd.
    assert (Hc : d = 0 \/ d = 1 \/ d = 2 \/ d = 3) by lia.
    destruct Hc as [->|[->|[->| ->]]]; vm_compute; reflexivity.
Defined.

(** What [main] enqueues. *)
Lemma cl_main_launch (rt : OpenCL.runtime) (p : Host.params)
    (pal : Host.image) (l : OpenCL.launch) :
  OpenCL.main rt p pal = Host.Dispatched l ->
  l = OpenCL.mkLaunch (OpenCL.host_args p pal) (Host.texels pal)
        (to_uint (Host.width p), to_uint (Host.height p))
        (to_uint (Host.localGroupSize p), to_uint (Host.localGroupSize p)).
Proof.
  unfold OpenCL.main, OpenCL.checkCLError. intros Hmain.
  destruct rt as [[|] [|] [|] [|] [|] [|]]; cbn in Hmain; try discriminate.
  injection Hmain as <-. reflexivity.
Qed.

(** X14: the OpenCL program on a valid configuration (an image
    of fewer than [2 ^ 30] pixels, [2 <= maxDepth < 2 ^ 31], a palette one
    pixel wide of 1 to [2 ^ 24 + 1] colors, a [log] that fits): when [main]
    enqueues the kernel, whatever the order in which the work items of the
    range run, no access is out of bounds and the buffer is left with a
    defined color for every pixel, the one the kernel computes for it. *)
Theorem opencl_image_is_defined (log : float -> float) (rt : OpenCL.runtime)
    (p : Host.params) (pal : Host.image) (l : OpenCL.launch)
    (items : list (Z * Z)) :
  let w := Host.width p in
  let h := Host.height p in
  OpenCL.main rt p pal = Host.Dispatched l ->
  1 <= w -> 1 <= h -> w * h < 2 ^ 30 ->
  2 <= Host.maxDepth p < 2 ^ 31 ->
  1 <= Host.h_palette pal <= 2 ^ 24 + 1 ->
  Z.of_nat (List.length (Host.texels pal)) = Host.h_palette pal ->
  log_fits log p ->
  Permutation items (OpenCL.NDRange (OpenCL.global l)) ->
  exists img,
    OpenCL.run log (OpenCL.kernel_args l) (OpenCL.kernel_palette l)
      (fst (OpenCL.global l)) (snd (OpenCL.global l)) items
      (OpenCL.imgBuffer p)
    = Some img /\
    forall x y, 0 <= x < w -> 0 <= y < h ->
      exists col,
        nth_error img (Z.to_nat (y * w + x)) = Some (Some col) /\
        OpenCL.mandelbrot log (OpenCL.kernel_args l) (OpenCL.kernel_palette l)
          w h x y = Some col.
Proof.
  intros w h Hmain Hw Hh Hwh Hmax HN Hlen Hlog.
  apply cl_main_launch in Hmain. subst l.
  cbn [OpenCL.global OpenCL.kernel_args OpenCL.kernel_palette fst snd].
  fold w h. rewrite (to_uint_small w), (to_uint_small h) by nia.
  intros Hperm.
  set (a := OpenCL.host_args p pal).
  assert (Hdef : forall x y,
             exists col,
               OpenCL.mandelbrot log a (Host.texels pal) w h x y = Some col).
  { intros x y. now apply cl_host_pixel_defined. }
  destruct (run_NDRange log a (Host.texels pal) w h items (OpenCL.imgBuffer p))
    as (img & Hrun & _ & Hdone); try assumption.
  - lia.
  - apply imgBuffer_length. fold w h. nia.
  - intros x y _ _. destruct (Hdef x y) as [col ->]. discriminate.
  - exists img. split; [exact Hrun|]. intros x y Hx Hy.
    destruct (Hdef x y) as [col Hcol]. exists col.
    rewrite (Hdone x y Hx Hy), Hcol. split; reflexivity.
Qed.

Lemma opencl_image_is_defined_witness :
  let l := OpenCL.mkLaunch (OpenCL.host_args tiny two_colors) [white; black]
             (2, 2) (1, 1) in
  exists img,
    OpenCL.run RefLog.log (OpenCL.kernel_args l) (OpenCL.kernel_palette l)
      (fst (OpenCL.global l)) (snd (OpenCL.global l))
      [(0, 1); (1, 0); (0, 0); (1, 1)] (OpenCL.imgBuffer tiny)
    = Some img /\
    forall x y, 0 <= x < 2 -> 0 <= y < 2 ->
      exists col,
        nth_error img (Z.to_nat (y * 2 + x)) = Some (Some col) /\
        OpenCL.mandelbrot RefLog.log (OpenCL.kernel_args l)
          (OpenCL.kernel_palette l) 2 2 x y = Some col.
Proof.
  apply (opencl_image_is_defined RefLog.log all_success tiny two_colors
           (OpenCL.mkLaunch (OpenCL.host_args tiny two_colors) [white; black]
              (2, 2) (1, 1))
           [(0, 1); (1, 0); (0, 0); (1, 1)]).
  - reflexivity.
  - simpl. lia.
  - simpl. lia.
  - vm_compute. reflexivity.
  - vm_compute. split; [discriminate|reflexivity].
  - vm_compute. split; discriminate.
  - reflexivity.
  - split; [reflexivity|].
    intros d Hd. change (Host.maxDepth tiny) with 4 in Hd.
    assert (Hc : d = 0 \/ d = 1 \/ d = 2 \/ d = 3) by lia.
    destruct Hc as [->|[->|[->| ->]]]; vm_compute; reflexivity.
  - vm_compute.
    apply (perm_trans (l' := [(1, 0); (0, 1); (0, 0); (1, 1)]));
      [apply perm_swap|].
    apply (perm_trans (l' := [(1, 0); (0, 0); (0, 1); (1, 1)]));
      [apply perm_skip, perm_swap|].
    apply perm_swap.
Defined.

(** X15: the OpenGL program on a valid configuration
    ([localGroupSize = 32], a width and a height that are multiples of 32,
    [2 <= maxDepth < 2 ^ 31], a palette one pixel wide of 1 to
    [2 ^ 24 + 1] colors, a [log] that fits): when [main] dispatches the
    shader, it is invoked at every pixel of the image and stores there a
    defined color, opaque black or an entry of the palette. *)
Theorem shader_image_is_defined (log : float -> float) (tie : float -> bool)
    (glfw_init glad_load : bool) (p : Host.params) (pal : Host.image)
    (l : ComputeShader.launch) :
  ComputeShader.main glfw_init glad_load p pal = Host.Dispatched l ->
  Host.localGroupSize p = 32 ->
  1 <= Host.width p -> 1 <= Host.height p ->
  Host.width p mod 32 = 0 -> Host.height p mod 32 = 0 ->
  2 <= Host.maxDepth p < 2 ^ 31 ->
  1 <= Host.h_palette pal <= 2 ^ 24 + 1 ->
  Z.of_nat (List.length (Host.texels pal)) = Host.h_palette pal ->
  log_fits log p ->
  forall x y, 0 <= x < Host.width p -> 0 <= y < Host.height p ->
    ComputeShader.invoked l x y = true /\
    exists col,
      ComputeShader.shaderSource log tie (ComputeShader.shader_uniforms l)
        (ComputeShader.shader_palette l) x y = Some col.
Proof.
  intros Hmain HL Hw Hh Hmw Hmh Hmax HN Hlen Hlog x y Hx Hy.
  apply main_launch in Hmain. subst l.
  cbn [ComputeShader.shader_uniforms ComputeShader.shader_palette].
  split; [|now apply gl_host_pixel_defined].
  apply (all_invoked _ (Host.width p) (Host.height p)); try assumption.
  - cbn [ComputeShader.groups]. now rewrite HL.
  - split; assumption.
Qed.

Lemma shader_image_is_defined_witness :
  let l := ComputeShader.mkLaunch
             (ComputeShader.host_uniforms shallow two_colors)
             [white; black] (1, 1) in
  ComputeShader.invoked l 31 5 = true /\
  exists col,
    ComputeShader.shaderSource RefLog.log half_away
      (ComputeShader.shader_uniforms l) (ComputeShader.shader_palette l)
      31 5 = Some col.
Proof.
  apply (shader_image_is_defined RefLog.log half_away true true shallow
           two_colors).
  - reflexivity.
  - reflexivity.
  - simpl. lia.
  - simpl. lia.
  - reflexivity.
  - reflexivity.
  - vm_compute. split; [discriminate|reflexivity].
  - vm_compute. split; discriminate.
  - reflexivity.
  - split; [reflexivity|].
    intros d Hd. change (Host.maxDepth shallow) with 4 in Hd.
    assert (Hc : d = 0 \/ d = 1 \/ d = 2 \/ d = 3) by lia.
    destruct Hc as [->|[->|[->| ->]]]; vm_compute; reflexivity.
  - simpl. lia.
  - simpl. lia.
Defined.

(** ** Exact products and quotients *)

Lemma canonical_product (m1 : positive) (e1 : Z) (m2 : positive) (e2 : Z) :
  canonical m1 e1 -> canonical m2 e2 ->
  e1 + e2 <= fexp32 (digits (m1 * m2) + (e1 + e2)).
Proof.
  intros H1 H2.
  pose proof (canonical_digits _ _ H1) as (Hd1 & He1 & Hn1).
  pose proof (canonical_digits _ _ H2) as (Hd2 & He2 & Hn2).
  pose proof (digits_mul_ge m1 m2). pose proof (digits_mul_ge m2 m1).
  rewrite (Pos.mul_comm m2 m1) in *.
  unfold fexp32.
  destruct (Z.eq_dec e1 (- 149)); destruct (Z.eq_dec e2 (- 149)); lia.
Qed.

(** A product whose value is a binary32 number is that number. *)
Lemma mul_exact (s1 s2 : bool) (m1 : positive) (e1 : Z) (m2 : positive)
    (e2 : Z) (mq : positive) (eq : Z) :
  canonical m1 e1 -> canonical m2 e2 -> canonical mq eq ->
  scaled mq eq * 2 ^ 149 = scaled m1 e1 * scaled m2 e2 ->
  F32.mul (S754_finite s1 m1 e1) (S754_finite s2 m2 e2)
  = S754_finite (xorb s1 s2) mq eq.
Proof.
  intros H1 H2 Hq Hval.
  pose proof (canonical_digits _ _ H1) as (_ & He1 & _).
  pose proof (canonical_digits _ _ H2) as (_ & He2 & _).
  pose proof (canonical_digits _ _ Hq) as (_ & Heq & _).
  unfold F32.mul, SFmul.
  fold (round_aux (xorb s1 s2) (m1 * m2) (e1 + e2)).
  rewrite <- round_noalign by now apply canonical_product.
  apply (round_exact _ _ _ _ _ (- 298)); [exact Hq|lia|lia|].
  unfold scaled in Hval. rewrite Pos2Z.inj_mul.
  replace (e1 + e2 - - 298) with (e1 + 149 + (e2 + 149)) by lia.
  replace (eq - - 298) with (eq + 149 + 149) by lia.
  rewrite (Z.pow_add_r 2 (e1 + 149) (e2 + 149)) by lia.
  rewrite (Z.pow_add_r 2 (eq + 149) 149) by lia.
  transitivity (Zpos m1 * 2 ^ (e1 + 149) * (Zpos m2 * 2 ^ (e2 + 149)));
    [ring|rewrite <- Hval; ring].
Qed.

Lemma digits_mul_le (a b : positive) : digits (a * b) <= digits a + digits b.
Proof.
  pose proof (digits_bounds a) as [_ Ha]. pose proof (digits_bounds b) as [_ Hb].
  pose proof (digits_pos a). pose proof (digits_pos b).
  apply digits_le; [lia|]. rewrite Pos2Z.inj_mul, Z.pow_add_r by lia. nia.
Qed.

Lemma new_location_0 (n : Z) : new_location n 0 = loc_Exact.
Proof.
  unfold new_location, new_location_even, new_location_odd.
  destruct (Z.even n); reflexivity.
Qed.

(** A quotient whose value is a binary32 number is that number. *)
Lemma div_exact (s1 s2 : bool) (m1 : positive) (e1 : Z) (m2 : positive)
    (e2 : Z) (mq : positive) (eq : Z) :
  - 149 <= e1 -> - 149 <= e2 -> canonical mq eq ->
  scaled m1 e1 * 2 ^ 149 = scaled mq eq * scaled m2 e2 ->
  F32.div (S754_finite s1 m1 e1) (S754_finite s2 m2 e2)
  = S754_finite (xorb s1 s2) mq eq.
Proof.
  intros He1 He2 Hq Hval.
  pose proof (canonical_digits _ _ Hq) as (_ & Heq & _).
  assert (Hv : Zpos m1 * 2 ^ (e1 + 298)
               = Zpos (mq * m2) * 2 ^ (eq + e2 + 298)).
  { unfold scaled in Hval. rewrite Pos2Z.inj_mul.
    replace (e1 + 298) with (e1 + 149 + 149) by lia.
    replace (eq + e2 + 298) with (eq + 149 + (e2 + 149)) by lia.
    rewrite (Z.pow_add_r 2 (e1 + 149) 149) by lia.
    rewrite (Z.pow_add_r 2 (eq + 149) (e2 + 149)) by lia.
    transitivity (Zpos m1 * 2 ^ (e1 + 149) * 2 ^ 149);
      [ring|rewrite Hval; ring]. }
  assert (Hmag : digits m1 + e1 = digits (mq * m2) + (eq + e2)).
  { apply Z.le_antisymm; apply (magnitude_le _ _ _ _ (- 298)); try lia.
    - replace (e1 - - 298) with (e1 + 298) by lia.
      replace (eq + e2 - - 298) with (eq + e2 + 298) by lia. lia.
    - replace (e1 - - 298) with (e1 + 298) by lia.
      replace (eq + e2 - - 298) with (eq + e2 + 298) by lia. lia. }
  pose proof (digits_mul_le mq m2) as Hdm.
  set (X := digits m1 + e1 - (digits m2 + e2)) in *.
  assert (HX : X <= digits mq + eq) by (unfold X; lia).
  assert (Hfq : fexp32 (digits mq + eq) = eq) by (destruct Hq; assumption).
  assert (Hfe : fexp32 X <= eq).
  { rewrite <- Hfq. now apply fexp32_mono. }
  unfold F32.div, SFdiv.
  destruct (div_core_spec m1 e1 m2 e2) as (q & r & -> & Hqr & Hr).
  destruct (div_core_digits m1 e1 m2 e2 q r Hqr Hr) as [Hq0 Hdig].
  fold X in Hqr, Hdig |- *.
  remember (Z.min (fexp32 X) (e1 - e2)) as e' eqn:Ee'.
  assert (He' : e' <= eq /\ e' <= e1 - e2 /\ - 149 - 149 <= e' + e2).
  { assert (- 149 <= fexp32 X) by (unfold fexp32; lia). subst e'. lia. }
  destruct He' as (Hle & Hle' & Hlo).
  (* the quotient is exact *)
  assert (Hm : Zpos m1 * 2 ^ (e1 - e2 - e')
               = Zpos mq * 2 ^ (eq - e') * Zpos m2).
  { assert (Hs : 2 ^ (e1 + 298) = 2 ^ (e1 - e2 - e') * 2 ^ (e2 + e' + 298)).
    { rewrite <- Z.pow_add_r by lia. f_equal. lia. }
    assert (Ht : 2 ^ (eq + e2 + 298) = 2 ^ (eq - e') * 2 ^ (e2 + e' + 298)).
    { rewrite <- Z.pow_add_r by lia. f_equal. lia. }
    rewrite Hs, Ht, Pos2Z.inj_mul in Hv.
    pose proof (pow2_pos (e2 + e' + 298) ltac:(lia)) as Hp.
    apply (Z.mul_cancel_r _ _ (2 ^ (e2 + e' + 298))); [lia|].
    transitivity (Zpos m1 * (2 ^ (e1 - e2 - e') * 2 ^ (e2 + e' + 298)));
      [ring|rewrite Hv; ring]. }
  pose proof (pow2_pos (eq - e') ltac:(lia)) as Hpq.
  assert (Hqv : q = Zpos mq * 2 ^ (eq - e') /\ r = 0).
  { rewrite Hm in Hqr.
    assert (Hq' : q = Zpos mq * 2 ^ (eq - e')) by nia.
    split; [exact Hq'|]. subst q. lia. }
  destruct Hqv as [Hqv ->]. rewrite new_location_0.
  destruct q as [|Q|Q]; [lia| |lia].
  rewrite Zdigits2_pos in Hdig.
  fold (round_aux (xorb s1 s2) Q e').
  rewrite <- round_noalign by exact Hdig.
  apply (round_exact _ _ _ _ _ e'); [exact Hq|lia|lia|].
  rewrite Z.sub_diag, Z.mul_1_r. exact Hqv.
Qed.

Lemma of_Z_div_self (n : Z) :
  0 < n <= 2 ^ 24 -> F32.div (F32.of_Z n) (F32.of_Z n) = F32.one.
Proof.
  intros Hn. destruct (of_Z_canonical n Hn) as (m & e & -> & Hcan & Hs).
  pose proof (canonical_digits _ _ Hcan) as (_ & He & _).
  apply (div_exact false false m e m e (2 ^ 23) (- 23));
    [lia|lia|apply canonical_one|].
  rewrite scaled_one. ring.
Qed.

Lemma canonical_three : canonical 12582912 (- 22).
Proof. split; [reflexivity|discriminate]. Qed.

Lemma scaled_three : scaled 12582912 (- 22) = 3 * 2 ^ 149.
Proof. reflexivity. Qed.

Lemma mul_three_of_Z (n : Z) :
  0 < n -> 3 * n <= 2 ^ 24 -> F32.mul three_f (F32.of_Z n) = F32.of_Z (3 * n).
Proof.
  intros Hn H3.
  destruct (of_Z_canonical n ltac:(lia)) as (m & e & -> & Hcan & Hs).
  destruct (of_Z_canonical (3 * n) ltac:(lia)) as (mq & eq & -> & Hq & Hsq).
  apply (mul_exact false false 12582912 (- 22) m e mq eq);
    [apply canonical_three|exact Hcan|exact Hq|].
  rewrite scaled_three, Hs, Hsq. ring.
Qed.

Lemma div_three_of_Z (n : Z) :
  0 < n -> 3 * n <= 2 ^ 24 ->
  F32.div (F32.of_Z (3 * n)) (F32.of_Z n) = three_f.
Proof.
  intros Hn H3.
  destruct (of_Z_canonical n ltac:(lia)) as (m & e & -> & Hcan & Hs).
  destruct (of_Z_canonical (3 * n) ltac:(lia)) as (mq & eq & -> & Hq & Hsq).
  pose proof (canonical_digits _ _ Hcan) as (_ & He & _).
  pose proof (canonical_digits _ _ Hq) as (_ & Heq & _).
  apply (div_exact false false mq eq m e 12582912 (- 22));
    [lia|lia|apply canonical_three|].
  rewrite scaled_three, Hs, Hsq. ring.
Qed.

(** ** The window of a square image *)

Lemma window_real (p : Host.params) :
  vx (Host.window_min p) = Host.min_real /\ vx (Host.window_delta p) = three_f.
Proof. split; reflexivity. Qed.

Lemma window_square (p : Host.params) :
  Host.height p = Host.width p -> 1 <= Host.width p -> 3 * Host.width p <= 2 ^ 24 ->
  vy (Host.window_min p) = minus_three_halves /\
  vy (Host.window_delta p) = three_f.
Proof.
  intros Hsq Hw H3.
  assert (Hmin : Host.min_imag p = minus_three_halves).
  { unfold Host.min_imag. rewrite Hsq.
    change (F32.sub Host.max_real Host.min_real) with three_f.
    rewrite mul_three_of_Z, div_three_of_Z by lia. reflexivity. }
  unfold Host.window_min, Host.window_delta, Host.max_imag. cbn [vy].
  rewrite Hmin. split; reflexivity.
Qed.

(** The ends of a row or of a column of [n] pixels over a range of [3.0]
    that starts at [lo], in the order of operations of each kernel. *)
Lemma cl_ends (lo : float) (n : Z) :
  2 <= n -> 3 * n <= 2 ^ 24 -> is_finite lo = true ->
  F32.add lo (F32.mul three_f
                (F32.div (F32.of_Z 0) (F32.of_Z (to_int (n - 1))))) = lo /\
  F32.add lo (F32.mul three_f
                (F32.div (F32.of_Z (n - 1)) (F32.of_Z (to_int (n - 1)))))
  = F32.add lo three_f.
Proof.
  intros Hn H3 Hlo. rewrite to_int_small by lia. split.
  - rewrite div_zero_of_Z by lia.
    destruct lo; try discriminate; reflexivity.
  - rewrite of_Z_div_self by lia. reflexivity.
Qed.

Lemma gl_ends (lo : float) (n : Z) :
  2 <= n -> 3 * n <= 2 ^ 24 -> is_finite lo = true ->
  F32.add (F32.div (F32.mul three_f (F32.of_Z 0))
                   (F32.sub (F32.of_Z n) F32.one)) lo = lo /\
  F32.add (F32.div (F32.mul three_f (F32.of_Z (n - 1)))
                   (F32.sub (F32.of_Z n) F32.one)) lo
  = F32.add three_f lo.
Proof.
  intros Hn H3 Hlo. rewrite of_Z_pred by lia. split.
  - destruct (of_Z_canonical (n - 1) ltac:(lia)) as (m & e & -> & _).
    destruct lo; try discriminate; reflexivity.
  - rewrite mul_three_of_Z, div_three_of_Z by lia. reflexivity.
Qed.

(** X16: both programs, for an image 2 to [2 ^ 22] pixels wide and
    high: the first column is exactly at the real part [-2] and the last
    column exactly at [1]; when the image is square the first row is
    exactly at the imaginary part [-1.5] and the last row exactly at
    [1.5].  The image shows the window [-2, 1] x [-1.5, 1.5] from edge to
    edge, without a rounding error at the edges. *)
Theorem image_spans_the_window (p : Host.params) (pal : Host.image) :
  let a := OpenCL.host_args p pal in
  let u := ComputeShader.host_uniforms p pal in
  let w := Host.width p in
  let h := Host.height p in
  2 <= w <= 2 ^ 22 -> 2 <= h <= 2 ^ 22 ->
  (forall y,
     vx (OpenCL.interpolate a w h 0 y) = F32.of_Z (- 2) /\
     vx (OpenCL.interpolate a w h (w - 1) y) = F32.one /\
     vx (ComputeShader.interpolate u 0 y) = F32.of_Z (- 2) /\
     vx (ComputeShader.interpolate u (w - 1) y) = F32.one) /\
  (h = w ->
   forall x,
     vy (OpenCL.interpolate a w h x 0) = minus_three_halves /\
     vy (OpenCL.interpolate a w h x (h - 1)) = three_halves /\
     vy (ComputeShader.interpolate u x 0) = minus_three_halves /\
     vy (ComputeShader.interpolate u x (h - 1)) = three_halves).
Proof.
  intros a u w h Hw Hh.
  destruct (window_real p) as [Hmx Hdx].
  unfold a, u, OpenCL.interpolate, ComputeShader.interpolate, vadd, vmul, vdiv,
    OpenCL.host_args, ComputeShader.host_uniforms.
  cbn [vx vy OpenCL.min OpenCL.delta ComputeShader.cmin ComputeShader.cdelta
       ComputeShader.size].
  fold w h. split.
  - intros _. rewrite Hmx, Hdx.
    destruct (cl_ends Host.min_real w) as [-> ->]; [lia|lia|reflexivity|].
    destruct (gl_ends Host.min_real w) as [-> ->]; [lia|lia|reflexivity|].
    repeat split.
  - intros Hsq x.
    destruct (window_square p) as [-> ->]; [exact Hsq|fold w; lia|fold w; lia|].
    destruct (cl_ends minus_three_halves h) as [-> ->]; [lia|lia|reflexivity|].
    destruct (gl_ends minus_three_halves h) as [-> ->]; [lia|lia|reflexivity|].
    repeat split.
Qed.

Lemma image_spans_the_window_witness :
  let a := OpenCL.host_args ComputeShader.parameters gradient in
  let u := ComputeShader.host_uniforms ComputeShader.parameters gradient in
  (forall y,
     vx (OpenCL.interpolate a 8192 8192 0 y) = F32.of_Z (- 2) /\
     vx (OpenCL.interpolate a 8192 8192 (8192 - 1) y) = F32.one /\
     vx (ComputeShader.interpolate u 0 y) = F32.of_Z (- 2) /\
     vx (ComputeShader.interpolate u (8192 - 1) y) = F32.one) /\
  (8192 = 8192 ->
   forall x,
     vy (OpenCL.interpolate a 8192 8192 x 0) = minus_three_halves /\
     vy (OpenCL.interpolate a 8192 8192 x (8192 - 1)) = three_halves /\
     vy (ComputeShader.interpolate u x 0) = minus_three_halves /\
     vy (ComputeShader.interpolate u x (8192 - 1)) = three_halves).
Proof.
  apply (image_spans_the_window ComputeShader.parameters gradient).
  - simpl. lia.
  - simpl. lia.
Defined.

(** ** Symmetry in the real axis *)

Lemma round_aux_opp (s : bool) (m e : Z) (l : location) :
  binary_round_aux F32.prec F32.emax (negb s) m e l
  = SFopp (binary_round_aux F32.prec F32.emax s m e l).
Proof.
  unfold binary_round_aux.
  destruct (shr_fexp F32.prec F32.emax m e l) as [r1 e1].
  destruct (shr_fexp F32.prec F32.emax _ e1 loc_Exact) as [r2 e2].
  destruct (shr_m r2); [reflexivity| |reflexivity].
  destruct (e2 <=? F32.emax - F32.prec); reflexivity.
Qed.

Lemma mul_opp_r (x y : float) : F32.mul x (SFopp y) = SFopp (F32.mul x y).
Proof.
  unfold F32.mul.
  destruct x as [sx|sx| |sx mx ex], y as [sy|sy| |sy my ey];
    cbn [SFmul SFopp]; try reflexivity;
    try (destruct sx, sy; reflexivity).
  rewrite <- round_aux_opp. destruct sx, sy; reflexivity.
Qed.

Lemma mul_opp_opp (x : float) : F32.mul (SFopp x) (SFopp x) = F32.mul x x.
Proof.
  unfold F32.mul. destruct x as [s|s| |s m e]; cbn [SFmul SFopp];
    try reflexivity; destruct s; reflexivity.
Qed.

Lemma normalize_opp (n e : Z) :
  mirrored (binary_normalize F32.prec F32.emax n e false)
           (binary_normalize F32.prec F32.emax (- n) e false).
Proof.
  destruct n as [|p|p]; cbn [Z.opp binary_normalize].
  - right. split; reflexivity.
  - left. unfold binary_round.
    destruct (shl_align p e _) as [mz ez]. apply (round_aux_opp false).
  - left. unfold binary_round.
    destruct (shl_align p e _) as [mz ez].
    rewrite <- (round_aux_opp true). reflexivity.
Qed.

Lemma add_opp (x y : float) :
  mirrored (F32.add x y) (F32.add (SFopp x) (SFopp y)).
Proof.
  unfold F32.add.
  destruct x as [sx|sx| |sx mx ex], y as [sy|sy| |sy my ey];
    cbn [SFadd SFopp];
    try (left; reflexivity);
    try (destruct sx, sy; (left; reflexivity) || (right; split; reflexivity)).
  set (ez := Z.min ex ey).
  replace (cond_Zopp (negb sx) (Zpos (fst (shl_align mx ex ez)))
           + cond_Zopp (negb sy) (Zpos (fst (shl_align my ey ez))))
    with (- (cond_Zopp sx (Zpos (fst (shl_align mx ex ez)))
             + cond_Zopp sy (Zpos (fst (shl_align my ey ez)))))
    by (destruct sx, sy; cbn [cond_Zopp negb]; lia).
  apply normalize_opp.
Qed.

Lemma add_zeros (x x' y : float) :
  is_zero x = true -> is_zero x' = true ->
  mirrored (F32.add x y) (F32.add x' (SFopp y)).
Proof.
  unfold F32.add.
  destruct x as [sx|sx| |sx mx ex]; try discriminate.
  destruct x' as [sx'|sx'| |sx' mx' ex']; try discriminate.
  intros _ _. destruct y as [sy|sy| |sy my ey]; cbn [SFadd SFopp].
  - right. destruct sx, sx', sy; split; reflexivity.
  - left. reflexivity.
  - left. reflexivity.
  - left. reflexivity.
Qed.

Lemma mul_zeros (t x x' : float) :
  is_zero x = true -> is_zero x' = true ->
  mirrored (F32.mul t x) (F32.mul t x').
Proof.
  unfold F32.mul.
  destruct x as [sx|sx| |sx mx ex]; try discriminate.
  destruct x' as [sx'|sx'| |sx' mx' ex']; try discriminate.
  intros _ _. destruct t as [st|st| |st mt et]; cbn [SFmul].
  - right. split; reflexivity.
  - left. reflexivity.
  - left. reflexivity.
  - right. split; reflexivity.
Qed.

Lemma mirrored_square (y y' : float) :
  mirrored y y' -> F32.mul y' y' = F32.mul y y.
Proof.
  intros [->|[Hy Hy']]; [apply mul_opp_opp|].
  destruct y as [s|s| |s m e]; try discriminate.
  destruct y' as [s'|s'| |s' m' e']; try discriminate.
  destruct s, s'; reflexivity.
Qed.

Lemma mirrored_step (t y y' cy : float) :
  mirrored y y' ->
  mirrored (F32.add (F32.mul t y) cy) (F32.add (F32.mul t y') (SFopp cy)).
Proof.
  intros [->|[Hy Hy']].
  - rewrite mul_opp_r. apply add_opp.
  - destruct (mul_zeros t y y' Hy Hy') as [->|[Hp Hp']].
    + apply add_opp.
    + now apply add_zeros.
Qed.

Lemma mirror_body (c : float2) (s s' : loop_state) :
  mirror_states s s' ->
  mirror_states (incr (body c s)) (incr (body (conjugate c) s')).
Proof.
  intros (Hd & Hx & Hy & H2).
  unfold mirror_states, incr, body, vadd, vmul, conjugate.
  cbn [depth z z2 vx vy]. rewrite Hd, Hx, H2.
  pose proof (mirrored_step (F32.mul F32.two (vx (z s))) _ _ (vy c) Hy) as Hm.
  split; [reflexivity|]. split; [reflexivity|]. split; [exact Hm|].
  f_equal. now apply mirrored_square.
Qed.

Lemma mirror_init (c : float2) :
  mirror_states (mkLoop 0 c (vmul c c))
                (mkLoop 0 (conjugate c) (vmul (conjugate c) (conjugate c))).
Proof.
  unfold mirror_states, conjugate, vmul. cbn [depth z z2 vx vy].
  split; [reflexivity|]. split; [reflexivity|].
  split; [left; reflexivity|]. f_equal. apply mul_opp_opp.
Qed.

Lemma mirror_loop (cond : loop_state -> bool) (c : float2) (fuel : nat)
    (s s' : loop_state) :
  (forall t t', mirror_states t t' -> cond t' = cond t) ->
  mirror_states s s' ->
  mirror_states (for_loop cond (body c) fuel s)
                (for_loop cond (body (conjugate c)) fuel s').
Proof.
  intros Hcond. revert s s'.
  induction fuel as [|fuel IH]; intros s s' Hs; [exact Hs|].
  cbn [for_loop]. rewrite (Hcond s s' Hs).
  destruct (cond s); [|exact Hs].
  apply IH. now apply mirror_body.
Qed.

(** X17: both kernels treat a point [c] and its complex conjugate
    alike: the loop is left at the same depth and the pixel is classified
    and colored the same, in single precision as in exact arithmetic. *)
Theorem conjugate_has_the_same_color (log : float -> float)
    (tie : float -> bool) (a : OpenCL.args) (u : ComputeShader.uniforms)
    (c : float2) :
  depth (OpenCL.iterate a (conjugate c)) = depth (OpenCL.iterate a c) /\
  OpenCL.shade_of log a (conjugate c) = OpenCL.shade_of log a c /\
  depth (ComputeShader.iterate u (conjugate c)) = depth (ComputeShader.iterate u c) /\
  ComputeShader.shade_of log tie u (conjugate c) = ComputeShader.shade_of log tie u c.
Proof.
  assert (Hcl : mirror_states (OpenCL.iterate a c) (OpenCL.iterate a (conjugate c))).
  { apply mirror_loop; [|apply mirror_init].
    intros t t' (Hd & _ & _ & H2). unfold OpenCL.cond, norm2.
    now rewrite Hd, H2. }
  assert (Hgl : mirror_states (ComputeShader.iterate u c)
                              (ComputeShader.iterate u (conjugate c))).
  { apply mirror_loop; [|apply mirror_init].
    intros t t' (Hd & _ & _ & H2). unfold ComputeShader.cond, norm2.
    now rewrite Hd, H2. }
  destruct Hcl as (Hd1 & _). destruct Hgl as (Hd2 & _).
  unfold OpenCL.shade_of, OpenCL.classify, ComputeShader.shade_of,
    ComputeShader.classify.
  rewrite Hd1, Hd2. repeat split.
Qed.

(** ** Where the clamp is reached *)

Lemma pack_ge_one (q e : Z) :
  - 23 <= e -> 2 ^ 23 <= q <= 2 ^ 24 ->
  F32.ltb (pack false q e) F32.one = false.
Proof.
  intros He Hq. unfold pack. destruct q as [|q|q]; try lia.
  unfold F32.ltb, SFltb, F32.one.
  destruct (Z.eqb_spec (Zpos q) (2 ^ 24)) as [E|N].
  - destruct (Z.leb_spec (e + 1) 104); [|reflexivity].
    cbn [SFcompare].
    destruct (Z.compare_spec (e + 1) (- 23)) as [Hc|Hc|Hc];
      try reflexivity; lia.
  - destruct (Z.leb_spec e 104); [|reflexivity].
    cbn [SFcompare].
    destruct (Z.compare_spec e (- 23)) as [Hc|Hc|Hc];
      [|lia|reflexivity].
    rewrite Pos.compare_cont_spec. cbn [Pos.switch_Eq].
    destruct (Pos.compare_spec q 8388608) as [H'|H'|H']; try reflexivity.
    apply Pos2Z.pos_lt_pos in H'. change (Zpos 8388608) with (2 ^ 23) in H'.
    lia.
Qed.

(** The quotient of a number by a smaller positive one is not below 1. *)
Lemma div_ge_one (m1 : positive) (e1 : Z) (m2 : positive) (e2 : Z) :
  canonical m1 e1 -> canonical m2 e2 -> scaled m2 e2 <= scaled m1 e1 ->
  F32.ltb (F32.div (S754_finite false m1 e1) (S754_finite false m2 e2))
          F32.one = false.
Proof.
  intros H1 H2 Hle.
  pose proof (canonical_digits _ _ H1) as (Hd1 & He1 & _).
  pose proof (canonical_digits _ _ H2) as (Hd2 & He2 & _).
  pose proof (digits_pos m1) as Hp1. pose proof (digits_pos m2) as Hp2.
  assert (Hmag : digits m2 + e2 <= digits m1 + e1).
  { apply (magnitude_le _ _ _ _ (- 149)); try lia.
    unfold scaled in Hle.
    replace (e2 - - 149) with (e2 + 149) by lia.
    replace (e1 - - 149) with (e1 + 149) by lia. exact Hle. }
  unfold F32.div, SFdiv. cbn [xorb].
  destruct (div_core_spec m1 e1 m2 e2) as (q & r & -> & Hqr & Hr).
  destruct (div_core_digits m1 e1 m2 e2 q r Hqr Hr) as [Hq0 Hdig].
  remember (Z.min (fexp32 (digits m1 + e1 - (digits m2 + e2))) (e1 - e2))
    as e' eqn:Ee'.
  assert (He' : - 24 <= e') by (subst e'; unfold fexp32; lia).
  (* the quotient has 24 digits or more *)
  assert (Hq24 : 24 <= Zdigits2 q).
  { unfold fexp32 in Hdig. lia. }
  destruct q as [|q|q]; [cbn [Zdigits2] in Hq24; lia| |lia].
  rewrite Zdigits2_pos in *.
  (* and its value is at least 1 *)
  assert (Hone : 1 <= digits q + e').
  { destruct (Z.le_gt_cases e' 0) as [Hneg|Hpos]; [|lia].
    assert (Hs : 0 <= e1 - e2 - e') by (subst e'; lia).
    assert (Hv : Zpos m2 * 2 ^ (- e') <= Zpos m1 * 2 ^ (e1 - e2 - e')).
    { unfold scaled in Hle.
      destruct (Z.le_gt_cases 0 (e2 + e' + 149)) as [HA|HA].
      - assert (Ha : 2 ^ (e1 + 149)
                     = 2 ^ (e1 - e2 - e') * 2 ^ (e2 + e' + 149)).
        { rewrite <- Z.pow_add_r by lia. f_equal. lia. }
        assert (Hb : 2 ^ (e2 + 149) = 2 ^ (- e') * 2 ^ (e2 + e' + 149)).
        { rewrite <- Z.pow_add_r by lia. f_equal. lia. }
        rewrite Ha, Hb, !Z.mul_assoc in Hle.
        apply Z.mul_le_mono_pos_r in Hle; [exact Hle|].
        apply pow2_pos. lia.
      - assert (Ha : 2 ^ (e1 - e2 - e')
                     = 2 ^ (e1 + 149) * 2 ^ (- (e2 + e' + 149))).
        { rewrite <- Z.pow_add_r by lia. f_equal. lia. }
        assert (Hb : 2 ^ (- e')
                     = 2 ^ (e2 + 149) * 2 ^ (- (e2 + e' + 149))).
        { rewrite <- Z.pow_add_r by lia. f_equal. lia. }
        rewrite Ha, Hb, !Z.mul_assoc.
        apply Z.mul_le_mono_nonneg_r; [|exact Hle].
        apply Z.lt_le_incl, pow2_pos. lia. }
    pose proof (pow2_pos (- e') ltac:(lia)) as Hpe.
    assert (Hq : 2 ^ (- e') <= Zpos q) by nia.
    pose proof (digits_ge q (- e') ltac:(lia) Hq). lia. }
  destruct (round_aux_floor false (Zpos q) e' (new_location (Zpos m2) r))
    as (Q & _ & HQ & Hn & ->); [lia|exact Hdig|].
  rewrite Zdigits2_pos in *.
  assert (Hf : - 23 <= fexp32 (digits q + e')) by (unfold fexp32; lia).
  apply pack_ge_one; [exact Hf|].
  destruct Hn as [Hn|Hn]; lia.
Qed.

(** [log t / log scaleForce] is not below 1 when [log scaleForce] is a
    positive number and [log t] is not less. *)
Lemma quotient_ge_one (x y : float) :
  valid x = true -> valid y = true -> positive_finite y = true ->
  F32.leb y x = true ->
  F32.ltb (F32.div x y) F32.one = false.
Proof.
  intros Hx Hy Hpos Hle.
  destruct y as [| | |sy my ey]; try discriminate.
  destruct sy; [discriminate|].
  destruct x as [sx|sx| |sx mx ex]; try discriminate.
  - destruct sx; [discriminate|reflexivity].
  - destruct sx; [discriminate|].
    apply bounded_canonical in Hx. apply bounded_canonical in Hy.
    apply div_ge_one; [exact Hx|exact Hy|].
    now apply leb_canonical.
Qed.

(** The palette index when the clamp is reached. *)
Lemma index_of_one (tie : float -> bool) (a : OpenCL.args)
    (u : ComputeShader.uniforms) :
  0 <= OpenCL.paletteSize a - 1 < 2 ^ 31 ->
  0 <= ComputeShader.paletteSize u < 2 ^ 32 ->
  OpenCL.index a F32.one = Some 0 /\
  ComputeShader.index tie u F32.one = Some 0.
Proof.
  intros Ha Hu.
  unfold OpenCL.index, OpenCL.position, ComputeShader.index,
    ComputeShader.position.
  rewrite to_int_small by lia.
  change (F32.sub F32.one F32.one) with F32.zero.
  rewrite !mul_zero_of_Z by lia. split; reflexivity.
Qed.

(** X18: at a depth where the [log] of the numerator is not less
    than [log scaleForce] (a positive number), the quotient is at least 1,
    the clamp returns exactly [1.0f] and both kernels compute the palette
    index 0: all these depths share the first entry of the palette. *)
Theorem saturated_depth_gets_the_first_color (log : float -> float)
    (tie : float -> bool) (p : Host.params) (pal : Host.image) (d : Z) :
  let a := OpenCL.host_args p pal in
  let u := ComputeShader.host_uniforms p pal in
  2 <= Host.maxDepth p < 2 ^ 31 ->
  1 <= Host.h_palette pal < 2 ^ 31 ->
  valid (log (Host.scaleForce p)) = true ->
  positive_finite (log (Host.scaleForce p)) = true ->
  valid (log (log_argument p d)) = true ->
  F32.leb (log (Host.scaleForce p)) (log (log_argument p d)) = true ->
  OpenCL.smoothed log a (OpenCL.normalized a d) = F32.one /\
  OpenCL.index a (OpenCL.smoothed log a (OpenCL.normalized a d)) = Some 0 /\
  ComputeShader.smoothed log u (ComputeShader.normalized u d) = F32.one /\
  ComputeShader.index tie u
    (ComputeShader.smoothed log u (ComputeShader.normalized u d)) = Some 0.
Proof.
  intros a u Hmax HN Hvs Hps Hvt Hle.
  assert (Hq : F32.ltb (F32.div (log (log_argument p d))
                                (log (Host.scaleForce p))) F32.one = false).
  { now apply quotient_ge_one. }
  assert (Hcl : OpenCL.smoothed log a (OpenCL.normalized a d) = F32.one).
  { unfold OpenCL.smoothed, OpenCL.normalized, a, OpenCL.host_args.
    cbn [OpenCL.maxDepth OpenCL.scaleForce].
    rewrite (to_uint_small (Host.maxDepth p)) by lia.
    rewrite to_uint_small by lia.
    fold (log_argument p d). rewrite fmin_min_one. unfold F32.min.
    now rewrite Hq. }
  assert (Hgl : ComputeShader.smoothed log u (ComputeShader.normalized u d)
                = F32.one).
  { unfold ComputeShader.smoothed, ComputeShader.normalized, u,
      ComputeShader.host_uniforms.
    cbn [ComputeShader.maxDepth ComputeShader.scaleForce].
    rewrite to_int_small by lia.
    fold (log_argument p d). unfold F32.min. now rewrite Hq. }
  rewrite Hcl, Hgl.
  destruct (index_of_one tie a u) as [Hi Hj].
  - unfold a, OpenCL.host_args. cbn [OpenCL.paletteSize].
    rewrite to_int_small by lia. lia.
  - unfold u, ComputeShader.host_uniforms. cbn [ComputeShader.paletteSize].
    rewrite to_uint_small by lia. rewrite to_int_small by lia. lia.
  - repeat split; assumption.
Qed.

Lemma saturated_depth_gets_the_first_color_witness :
  let a := OpenCL.host_args one_group gradient in
  let u := ComputeShader.host_uniforms one_group gradient in
  OpenCL.smoothed RefLog.log a (OpenCL.normalized a 49) = F32.one /\
  OpenCL.index a (OpenCL.smoothed RefLog.log a (OpenCL.normalized a 49))
  = Some 0 /\
  ComputeShader.smoothed RefLog.log u (ComputeShader.normalized u 49)
  = F32.one /\
  ComputeShader.index half_away u
    (ComputeShader.smoothed RefLog.log u (ComputeShader.normalized u 49))
  = Some 0.
Proof.
  apply (saturated_depth_gets_the_first_color RefLog.log half_away one_group
           gradient 49).
  - vm_compute. split; [discriminate|reflexivity].
  - vm_compute. split; [discriminate|reflexivity].
  - vm_compute. reflexivity.
  - vm_compute. reflexivity.
  - vm_compute. reflexivity.
  - vm_compute. reflexivity.
Defined.

(** ** [scaleForce = 1] *)

Lemma div_by_plus_zero (x : float) :
  nonneg x = true ->
  F32.ltb (F32.div x (S754_zero false)) F32.one = false.
Proof.
  destruct x as [s|s| |s m e]; try discriminate;
    destruct s; try discriminate; reflexivity.
Qed.

(** X19: with [scaleForce = 1.0f] and [log 1 = +0] the kernels
    divide by zero, in floating point: the quotient is plus infinity or a
    NaN, the clamp returns [1.0f] in both cases, and every depth at which
    [log] returns a number that is not negative gets the palette index 0. *)
Theorem scale_force_one_gets_the_first_color (log : float -> float)
    (tie : float -> bool) (p : Host.params) (pal : Host.image) (d : Z) :
  let a := OpenCL.host_args p pal in
  let u := ComputeShader.host_uniforms p pal in
  Host.scaleForce p = F32.one ->
  log F32.one = S754_zero false ->
  nonneg (log (log_argument p d)) = true ->
  2 <= Host.maxDepth p < 2 ^ 31 ->
  1 <= Host.h_palette pal < 2 ^ 31 ->
  OpenCL.smoothed log a (OpenCL.normalized a d) = F32.one /\
  OpenCL.index a (OpenCL.smoothed log a (OpenCL.normalized a d)) = Some 0 /\
  ComputeShader.smoothed log u (ComputeShader.normalized u d) = F32.one /\
  ComputeShader.index tie u
    (ComputeShader.smoothed log u (ComputeShader.normalized u d)) = Some 0.
Proof.
  intros a u Hsf Hlog Hn Hmax HN.
  assert (Hq : F32.ltb (F32.div (log (log_argument p d))
                                (log (Host.scaleForce p))) F32.one = false).
  { rewrite Hsf, Hlog. now apply div_by_plus_zero. }
  assert (Hcl : OpenCL.smoothed log a (OpenCL.normalized a d) = F32.one).
  { unfold OpenCL.smoothed, OpenCL.normalized, a, OpenCL.host_args.
    cbn [OpenCL.maxDepth OpenCL.scaleForce].
    rewrite (to_uint_small (Host.maxDepth p)) by lia.
    rewrite to_uint_small by lia.
    fold (log_argument p d). rewrite fmin_min_one. unfold F32.min.
    now rewrite Hq. }
  assert (Hgl : ComputeShader.smoothed log u (ComputeShader.normalized u d)
                = F32.one).
  { unfold ComputeShader.smoothed, ComputeShader.normalized, u,
      ComputeShader.host_uniforms.
    cbn [ComputeShader.maxDepth ComputeShader.scaleForce].
    rewrite to_int_small by lia.
    fold (log_argument p d). unfold F32.min. now rewrite Hq. }
  rewrite Hcl, Hgl.
  destruct (index_of_one tie a u) as [Hi Hj].
  - unfold a, OpenCL.host_args. cbn [OpenCL.paletteSize].
    rewrite to_int_small by lia. lia.
  - unfold u, ComputeShader.host_uniforms. cbn [ComputeShader.paletteSize].
    rewrite to_uint_small by lia. rewrite to_int_small by lia. lia.
  - repeat split; assumption.
Qed.

Lemma scale_force_one_gets_the_first_color_witness :
  let a := OpenCL.host_args flat gradient in
  let u := ComputeShader.host_uniforms flat gradient in
  OpenCL.smoothed RefLog.log a (OpenCL.normalized a 7) = F32.one /\
  OpenCL.index a (OpenCL.smoothed RefLog.log a (OpenCL.normalized a 7))
  = Some 0 /\
  ComputeShader.smoothed RefLog.log u (ComputeShader.normalized u 7)
  = F32.one /\
  ComputeShader.index half_away u
    (ComputeShader.smoothed RefLog.log u (ComputeShader.normalized u 7))
  = Some 0.
Proof.
  apply (scale_force_one_gets_the_first_color RefLog.log half_away flat
           gradient 7).
  - reflexivity.
  - vm_compute. reflexivity.
  - vm_compute. reflexivity.
  - vm_compute. split; [discriminate|reflexivity].
  - vm_compute. split; [discriminate|reflexivity].
Defined.

(** ** Rounding is monotone *)

Lemma round_shift_scale (m j k : Z) :
  0 <= j -> 0 <= k -> round_shift (m * 2 ^ j) (k + j) = round_shift m k.
Proof.
  intros Hj Hk. unfold round_shift.
  assert (Hs : shifted (2 * (m * 2 ^ j)) (k + j) = shifted (2 * m) k).
  { unfold shifted.
    pose proof (pow2_pos j Hj) as Hpj. pose proof (pow2_pos k Hk) as Hpk.
    pose proof (pow2_pos (k + 1) ltac:(lia)) as Hpk1.
    replace (2 * (m * 2 ^ j)) with (2 * m * 2 ^ j) by ring.
    replace (k + j + 1) with (k + 1 + j) by lia.
    rewrite (Z.pow_add_r 2 (k + 1) j), (Z.pow_add_r 2 k j) by lia.
    rewrite !Z.div_mul_cancel_r by lia.
    rewrite Z.mul_mod_distr_r by lia.
    f_equal. f_equal.
    destruct (Z.eqb_spec (2 * m mod 2 ^ k) 0) as [->|Hne].
    - reflexivity.
    - destruct (Z.eqb_spec (2 * m mod 2 ^ k * 2 ^ j) 0) as [E|_];
        [|reflexivity].
      apply Z.mul_eq_0 in E. lia. }
  now rewrite Hs.
Qed.

Lemma round_shift_mono (x x' k : Z) :
  0 <= k -> 0 <= x <= x' -> round_shift x k <= round_shift x' k.
Proof.
  intros Hk [Hx Hxx].
  pose proof (pow2_pos k Hk) as Hpk.
  unfold round_shift, shifted. cbn [shr_m loc_of_shr_record].
  rewrite (Z.pow_add_r 2 k 1) by lia. change (2 ^ 1) with 2.
  rewrite <- !Z.div_div by lia.
  set (y := 2 * x / 2 ^ k). set (y' := 2 * x' / 2 ^ k).
  assert (Hy : 0 <= y <= y').
  { split; [apply Z.div_pos; lia|apply Z.div_le_mono; lia]. }
  pose proof (Z.div_mod y 2 ltac:(lia)) as Hdy.
  pose proof (Z.div_mod y' 2 ltac:(lia)) as Hdy'.
  pose proof (Z.mod_pos_bound y 2 ltac:(lia)) as Hmy.
  pose proof (Z.mod_pos_bound y' 2 ltac:(lia)) as Hmy'.
  assert (Ho : forall t, Z.odd t = true <-> t mod 2 = 1).
  { intros t. rewrite Zodd_mod. apply Z.eqb_eq. }
  assert (Hlow : y = y' -> 2 * x mod 2 ^ k <= 2 * x' mod 2 ^ k).
  { intros E. pose proof (Z.div_mod (2 * x) (2 ^ k) ltac:(lia)).
    pose proof (Z.div_mod (2 * x') (2 ^ k) ltac:(lia)).
    fold y in H. fold y' in H0. rewrite <- E in H0. lia. }
  pose proof (Z.mod_pos_bound (2 * x) (2 ^ k) Hpk) as Hl.
  pose proof (Z.mod_pos_bound (2 * x') (2 ^ k) Hpk) as Hl'.
  assert (Hq : y / 2 <= y' / 2) by (apply Z.div_le_mono; lia).
  assert (He : forall t, Z.odd t = false -> t mod 2 = 0).
  { intros t Ht. destruct (Z.eq_dec (t mod 2) 1) as [E|E];
      [apply Ho in E; congruence|].
    pose proof (Z.mod_pos_bound t 2 ltac:(lia)). lia. }
  destruct (Z.eq_dec y y') as [E|E].
  - specialize (Hlow E). rewrite <- E.
    destruct (Z.odd y);
      destruct (Z.eqb_spec (2 * x mod 2 ^ k) 0) as [E0|N0];
      destruct (Z.eqb_spec (2 * x' mod 2 ^ k) 0) as [E0'|N0'];
      cbn [negb round_nearest_even];
      try destruct (Z.even (y / 2)); lia.
  - destruct (Z.odd y) eqn:Eb, (Z.odd y') eqn:Eb';
      try (apply Ho in Eb); try (apply Ho in Eb');
      try (apply He in Eb); try (apply He in Eb');
      destruct (Z.eqb_spec (2 * x mod 2 ^ k) 0) as [E0|N0];
      destruct (Z.eqb_spec (2 * x' mod 2 ^ k) 0) as [E0'|N0'];
      cbn [negb round_nearest_even];
      try destruct (Z.even (y / 2)); try destruct (Z.even (y' / 2));
      lia.
Qed.

Lemma round_shift_0 (m : Z) : round_shift m 0 = m.
Proof.
  rewrite round_shift_exact by (try lia; simpl (2 ^ 0); apply Z.mod_1_r).
  simpl (2 ^ 0). apply Z.div_1_r.
Qed.

(** [round_ne] in terms of the value of its argument. *)
Lemma round_ne_nearest (M : positive) (E : Z) (A : positive) :
  - 298 <= E -> Zpos A = Zpos M * 2 ^ (E + 298) ->
  round_ne false M E = nearest A.
Proof.
  intros HE HA. unfold nearest.
  assert (Hd : digits A - 298 = digits M + E).
  { rewrite (digits_shift M A (E + 298)); [lia|lia|exact HA]. }
  rewrite Hd. remember (fexp32 (digits M + E)) as e1 eqn:He1.
  assert (Hlo : - 149 <= e1) by (subst e1; unfold fexp32; lia).
  assert (Hdg : e1 = - 149 \/ e1 = digits M + E - 24)
    by (subst e1; unfold fexp32; lia).
  assert (Hge : digits M + E - 24 <= e1) by (subst e1; unfold fexp32; lia).
  destruct (Z.lt_trichotomy E e1) as [Hlt|[Heq|Hgt]].
  - rewrite round_noalign by (rewrite <- He1; lia).
    rewrite round_aux_shift by (rewrite <- He1; lia). rewrite <- He1.
    rewrite HA.
    replace (e1 + 298) with (e1 - E + (E + 298)) by lia.
    rewrite round_shift_scale by lia. reflexivity.
  - rewrite round_noalign by (rewrite <- He1; lia).
    rewrite round_aux_noshift by (rewrite <- He1; lia).
    rewrite HA, <- Heq.
    replace (E + 298) with (0 + (E + 298)) at 2 by lia.
    rewrite round_shift_scale, round_shift_0 by lia.
    assert (Hm : digits M <= 24) by lia.
    pose proof (digits_bounds M) as [_ Hhi].
    assert (Zpos M < 2 ^ 24).
    { apply Z.lt_le_trans with (2 ^ digits M); [exact Hhi|].
      apply Z.pow_le_mono_r; lia. }
    unfold pack. destruct (Z.eqb_spec (Zpos M) (2 ^ 24)); [lia|reflexivity].
  - destruct (round_align false M E ltac:(rewrite <- He1; lia))
      as (M' & HM' & ->).
    rewrite <- He1 in HM' |- *.
    assert (Hd' : digits M' + e1 = digits M + E).
    { rewrite (digits_shift M M' (E - e1)); [lia|lia|exact HM']. }
    rewrite round_aux_noshift by (rewrite Hd', <- He1; lia).
    assert (HA' : Zpos A = Zpos M' * 2 ^ (e1 + 298)).
    { rewrite HA, HM', <- Z.mul_assoc, <- Z.pow_add_r by lia.
      f_equal. f_equal. lia. }
    rewrite HA'.
    replace (e1 + 298) with (0 + (e1 + 298)) at 2 by lia.
    rewrite round_shift_scale, round_shift_0 by lia.
    assert (Hm : digits M' <= 24) by lia.
    pose proof (digits_bounds M') as [_ Hhi].
    assert (Zpos M' < 2 ^ 24).
    { apply Z.lt_le_trans with (2 ^ digits M'); [exact Hhi|].
      apply Z.pow_le_mono_r; lia. }
    unfold pack. destruct (Z.eqb_spec (Zpos M') (2 ^ 24)); [lia|reflexivity].
Qed.

Lemma units_pack (q e : Z) :
  - 149 <= e <= 103 -> 0 <= q <= 2 ^ 24 ->
  units (pack false q e) = q * 2 ^ (e + 149).
Proof.
  intros He Hq. unfold pack. destruct q as [|q|q]; [reflexivity| |lia].
  destruct (Z.eqb_spec (Zpos q) (2 ^ 24)) as [->|_].
  - destruct (Z.leb_spec (e + 1) 104); [|lia].
    cbn [units]. unfold scaled.
    replace (e + 1 + 149) with (1 + (e + 149)) by lia.
    rewrite Z.pow_add_r by lia.
    change (Zpos (2 ^ 23)) with (2 ^ 23). change (2 ^ 24) with (2 ^ 23 * 2 ^ 1).
    ring.
  - destruct (Z.leb_spec e 104); [|lia]. reflexivity.
Qed.

Lemma digits_mono (a b : positive) : Zpos a <= Zpos b -> digits a <= digits b.
Proof.
  intros H. pose proof (magnitude_le a 0 b 0 0) as Hm.
  rewrite !Z.sub_diag in Hm. simpl (2 ^ 0) in Hm. lia.
Qed.

(** The rounded mantissa of [nearest]. *)
Lemma nearest_mantissa (a : positive) :
  let e1 := fexp32 (digits a - 298) in
  0 <= round_shift (Zpos a) (e1 + 298) <= 2 ^ 24 /\
  (- 149 < e1 -> 2 ^ 23 <= round_shift (Zpos a) (e1 + 298)).
Proof.
  intros e1.
  assert (Hk : 0 <= e1 + 298) by (unfold e1, fexp32; lia).
  pose proof (round_shift_range (Zpos a) (e1 + 298) Hk) as Hr.
  pose proof (digits_bounds a) as Hb. pose proof (digits_pos a) as Hp.
  pose proof (pow2_pos _ Hk) as Hpk.
  assert (H0 : 0 <= Zpos a / 2 ^ (e1 + 298)) by (apply Z.div_pos; lia).
  assert (H1 : Zpos a / 2 ^ (e1 + 298) < 2 ^ 24).
  { apply (div_pow_lt _ (digits a)); [lia|lia|unfold e1, fexp32; lia]. }
  split; [lia|]. intros Hn.
  assert (Hk' : e1 + 298 = digits a - 24) by (unfold e1, fexp32 in *; lia).
  rewrite Hk' in *.
  assert (2 ^ 23 <= Zpos a / 2 ^ (digits a - 24)); [|lia].
  apply Z.div_le_lower_bound; [lia|].
  rewrite <- Z.pow_add_r by lia.
  replace (digits a - 24 + 23) with (digits a - 1) by lia. apply Hb.
Qed.

(** Rounding to nearest is monotone up to the overflow. *)
Lemma nearest_mono (a b : positive) :
  Zpos a <= Zpos b -> fexp32 (digits b - 298) <= 103 ->
  units (nearest a) <= units (nearest b).
Proof.
  intros Hab Hb. unfold nearest.
  pose proof (digits_mono a b Hab) as Hd.
  destruct (nearest_mantissa a) as [Hqa _].
  destruct (nearest_mantissa b) as [Hqb Hnb].
  assert (Hea : - 149 <= fexp32 (digits a - 298) <= fexp32 (digits b - 298))
    by (unfold fexp32; lia).
  remember (fexp32 (digits a - 298)) as ea eqn:Ea.
  remember (fexp32 (digits b - 298)) as eb eqn:Eb.
  clear Ea Eb.
  rewrite (units_pack _ ea), (units_pack _ eb) by lia.
  destruct (Z.eq_dec ea eb) as [E|N].
  - rewrite E. apply Z.mul_le_mono_nonneg_r; [apply Z.pow_nonneg; lia|].
    subst eb. apply round_shift_mono; lia.
  - specialize (Hnb ltac:(lia)).
    pose proof (pow2_pos (ea + 149) ltac:(lia)) as Hpa.
    pose proof (pow2_pos (eb - ea - 1) ltac:(lia)) as Hpd.
    assert (Hp : 2 ^ (eb + 149) = 2 ^ (eb - ea - 1) * (2 * 2 ^ (ea + 149))).
    { replace (eb + 149) with (eb - ea - 1 + (1 + (ea + 149))) by lia.
      rewrite (Z.pow_add_r 2 (eb - ea - 1)) by lia.
      rewrite (Z.pow_add_r 2 1 (ea + 149)) by lia. reflexivity. }
    rewrite Hp.
    apply Z.le_trans with (2 ^ 24 * 2 ^ (ea + 149)); [nia|].
    change (2 ^ 24) with (2 ^ 23 * 2).
    apply Z.le_trans with (2 ^ 23 * (2 ^ (eb - ea - 1) * (2 * 2 ^ (ea + 149))));
      [nia|].
    apply Z.mul_le_mono_nonneg_r; [nia|exact Hnb].
Qed.

Lemma units_below (p : float) (bound : Z) :
  below p bound -> 0 <= units p /\ (0 < units p -> units p <= bound).
Proof.
  intros [->|(m & e & -> & Hcan & Hs)]; cbn [units]; [lia|].
  pose proof (canonical_digits _ _ Hcan) as (_ & He & _).
  pose proof (pow2_pos (e + 149) ltac:(lia)). unfold scaled in *. nia.
Qed.

Lemma canonical_inj (m : positive) (e : Z) (m' : positive) (e' : Z) :
  canonical m e -> canonical m' e' -> scaled m e = scaled m' e' ->
  m = m' /\ e = e'.
Proof.
  intros [Hf _] [Hf' _] Hs. unfold scaled in Hs.
  assert (He : - 149 <= e /\ - 149 <= e') by (unfold fexp32 in *; lia).
  assert (Hmag : digits m + e = digits m' + e').
  { apply Z.le_antisymm; apply (magnitude_le _ _ _ _ (- 149)); try lia.
    - replace (e - - 149) with (e + 149) by lia.
      replace (e' - - 149) with (e' + 149) by lia. lia.
    - replace (e - - 149) with (e + 149) by lia.
      replace (e' - - 149) with (e' + 149) by lia. lia. }
  assert (Hee : e = e') by (rewrite <- Hf, <- Hf', Hmag; reflexivity).
  subst e'. split; [|reflexivity].
  apply Pos2Z.inj. apply Z.mul_cancel_r in Hs; [exact Hs|].
  pose proof (pow2_pos (e + 149) ltac:(lia)). lia.
Qed.

Lemma below_inj (p p' : float) (b b' : Z) :
  below p b -> below p' b' -> units p = units p' -> p = p'.
Proof.
  intros [->|(m & e & -> & Hcan & _)] [->|(m' & e' & -> & Hcan' & _)];
    cbn [units]; intros Hu.
  - reflexivity.
  - pose proof (canonical_digits _ _ Hcan') as (_ & He & _).
    pose proof (pow2_pos (e' + 149) ltac:(lia)). unfold scaled in Hu. nia.
  - pose proof (canonical_digits _ _ Hcan) as (_ & He & _).
    pose proof (pow2_pos (e + 149) ltac:(lia)). unfold scaled in Hu. nia.
  - destruct (canonical_inj _ _ _ _ Hcan Hcan' Hu) as [-> ->]. reflexivity.
Qed.

(** [1.0f - x] for [x] between 0 and 1, as a function of the value. *)
Lemma sub_one_units (x : float) :
  below x (2 ^ 149) ->
  F32.sub F32.one x
  = if units x =? 2 ^ 149 then S754_zero false
    else nearest (Z.to_pos (2 ^ 298 - units x * 2 ^ 149)).
Proof.
  intros [->|(m & e & -> & Hcan & Hs)]; [reflexivity|].
  cbn [units].
  destruct (below_one m e Hcan Hs) as [He Hm].
  pose proof (canonical_digits _ _ Hcan) as (Hd & Hlo & _).
  unfold F32.sub, F32.one, SFsub.
  replace (Z.min (- 23) e) with e by lia.
  cbn [cond_Zopp].
  rewrite (shl_align_fst 8388608 (- 23) e) by lia.
  rewrite (shl_align_fst m e e) by lia.
  rewrite Z.sub_diag, Z.mul_1_r.
  assert (Hp : 8388608 * 2 ^ (- 23 - e) = 2 ^ (- e)).
  { change 8388608 with (2 ^ 23).
    rewrite <- Z.pow_add_r by lia. f_equal. lia. }
  rewrite Hp.
  assert (Hq : 2 ^ 149 = 2 ^ (- e) * 2 ^ (e + 149)).
  { rewrite <- Z.pow_add_r by lia. f_equal. lia. }
  assert (Hq2 : 2 ^ 298 = 2 ^ (- e) * 2 ^ (e + 298)).
  { rewrite <- Z.pow_add_r by lia. f_equal. lia. }
  assert (Hq3 : 2 ^ (e + 298) = 2 ^ (e + 149) * 2 ^ 149).
  { rewrite <- Z.pow_add_r by lia. f_equal. lia. }
  pose proof (pow2_pos (e + 149) ltac:(lia)) as Hpe.
  pose proof (pow2_pos (e + 298) ltac:(lia)) as Hpe2.
  unfold scaled in *.
  destruct (2 ^ (- e) - Zpos m) as [|D|D] eqn:ED; try lia.
  - assert (E1 : Zpos m * 2 ^ (e + 149) = 2 ^ 149) by (rewrite Hq; nia).
    rewrite E1, Z.eqb_refl. reflexivity.
  - assert (N1 : Zpos m * 2 ^ (e + 149) <> 2 ^ 149) by (rewrite Hq; nia).
    destruct (Z.eqb_spec (Zpos m * 2 ^ (e + 149)) (2 ^ 149)) as [E|_];
      [contradiction|].
    unfold binary_normalize. fold (round_ne false D e).
    apply round_ne_nearest; [lia|].
    assert (HA : 2 ^ 298 - Zpos m * 2 ^ (e + 149) * 2 ^ 149
                 = Zpos D * 2 ^ (e + 298)).
    { rewrite <- ED, Hq2, Hq3. ring. }
    rewrite HA. rewrite Z2Pos.id by nia. reflexivity.
Qed.

(** A product of a number that is not negative by a positive one, as a
    function of the values. *)
Lemma mul_units (t : float) (b : Z) (mc : positive) (ec : Z) :
  below t b -> canonical mc ec ->
  F32.mul t (S754_finite false mc ec)
  = if units t =? 0 then S754_zero false
    else nearest (Z.to_pos (units t * scaled mc ec)).
Proof.
  intros [->|(mt & et & -> & Hcan & _)] Hc; [reflexivity|].
  cbn [units].
  pose proof (canonical_digits _ _ Hcan) as (_ & Het & _).
  pose proof (canonical_digits _ _ Hc) as (_ & Hec & _).
  pose proof (pow2_pos (et + 149) ltac:(lia)) as Hpt.
  pose proof (pow2_pos (ec + 149) ltac:(lia)) as Hpc.
  unfold scaled.
  destruct (Z.eqb_spec (Zpos mt * 2 ^ (et + 149)) 0) as [E|_]; [nia|].
  unfold F32.mul, SFmul. cbn [xorb].
  fold (round_aux false (mt * mc) (et + ec)).
  rewrite <- round_noalign by now apply canonical_product.
  apply round_ne_nearest; [lia|].
  rewrite Z2Pos.id by nia. rewrite Pos2Z.inj_mul.
  replace (et + ec + 298) with (et + 149 + (ec + 149)) by lia.
  rewrite (Z.pow_add_r 2 (et + 149) (ec + 149)) by lia. ring.
Qed.

Lemma units_nearest_nonneg (a : positive) : 0 <= units (nearest a).
Proof.
  unfold nearest, pack.
  destruct (round_shift _ _) as [|q|q]; cbn [units]; try lia.
  destruct (Zpos q =? 2 ^ 24).
  - destruct (_ <=? 104); cbn [units]; unfold scaled; [|lia].
    apply Z.mul_nonneg_nonneg; [lia|apply Z.pow_nonneg; lia].
  - destruct (_ <=? 104); cbn [units]; unfold scaled; [|lia].
    apply Z.mul_nonneg_nonneg; [lia|apply Z.pow_nonneg; lia].
Qed.

(** [1.0f - x] does not grow with [x]. *)
Lemma sub_one_antitone (x x' : float) :
  below x (2 ^ 149) -> below x' (2 ^ 149) -> units x <= units x' ->
  units (F32.sub F32.one x') <= units (F32.sub F32.one x).
Proof.
  intros Hx Hx' Hle.
  rewrite (sub_one_units x Hx), (sub_one_units x' Hx').
  destruct (units_below x _ Hx) as [H0 H1].
  destruct (units_below x' _ Hx') as [H0' H1'].
  destruct (Z.eqb_spec (units x') (2 ^ 149)) as [E'|N'].
  - destruct (Z.eqb_spec (units x) (2 ^ 149)); [reflexivity|].
    apply units_nearest_nonneg.
  - destruct (Z.eqb_spec (units x) (2 ^ 149)) as [E|N]; [lia|].
    assert (Hu : units x' < 2 ^ 149) by lia.
    assert (Hv : units x < 2 ^ 149) by lia.
    apply nearest_mono.
    + rewrite !Z2Pos.id by lia. nia.
    + assert (Hd : digits (Z.to_pos (2 ^ 298 - units x * 2 ^ 149)) <= 299).
      { apply digits_le; [lia|]. rewrite Z2Pos.id by lia.
        change (2 ^ 299) with (2 ^ 298 * 2). lia. }
      unfold fexp32. lia.
Qed.

(** A product by a positive number grows with the other factor. *)
Lemma mul_monotone (t t' : float) (mc : positive) (ec : Z) :
  below t (2 ^ 149) -> below t' (2 ^ 149) -> canonical mc ec ->
  scaled mc ec <= 2 ^ 24 * 2 ^ 149 ->
  units t <= units t' ->
  units (F32.mul t (S754_finite false mc ec))
  <= units (F32.mul t' (S754_finite false mc ec)).
Proof.
  intros Ht Ht' Hc Hb Hle.
  rewrite (mul_units t _ mc ec Ht Hc), (mul_units t' _ mc ec Ht' Hc).
  destruct (units_below t _ Ht) as [H0 H1].
  destruct (units_below t' _ Ht') as [H0' H1'].
  pose proof (canonical_digits _ _ Hc) as (_ & Hec & _).
  assert (Hsc : 0 < scaled mc ec).
  { unfold scaled. pose proof (pow2_pos (ec + 149) ltac:(lia)). nia. }
  destruct (Z.eqb_spec (units t) 0) as [E|N].
  - destruct (Z.eqb_spec (units t') 0); [reflexivity|].
    apply units_nearest_nonneg.
  - destruct (Z.eqb_spec (units t') 0) as [E'|N']; [lia|].
    apply nearest_mono.
    + rewrite !Z2Pos.id by nia. nia.
    + assert (Hd : digits (Z.to_pos (units t' * scaled mc ec)) <= 323).
      { apply digits_le; [lia|]. rewrite Z2Pos.id by nia.
        change (2 ^ 323) with (2 ^ 149 * (2 ^ 24 * 2 ^ 149) * 2).
        specialize (H1' ltac:(lia)). nia. }
      unfold fexp32. lia.
Qed.

(** The part of the value before and after the binary point: in units of
    [2 ^ (- 149)] the integer part of a finite number is the quotient by
    [2 ^ 149]. *)
Lemma int_part_units (m : positive) (e : Z) :
  - 149 <= e < 0 ->
  scaled m e = F32.int_part m e * 2 ^ 149
               + F32.frac_part m e * 2 ^ (e + 149) /\
  0 <= F32.frac_part m e < 2 ^ (- e).
Proof.
  intros He. unfold F32.frac_part, F32.int_part, scaled.
  rewrite Z.shiftr_div_pow2, Z.shiftl_mul_pow2 by lia.
  pose proof (pow2_pos (- e) ltac:(lia)) as Hp.
  pose proof (Z.div_mod (Zpos m) (2 ^ (- e)) ltac:(lia)) as Hdm.
  pose proof (Z.mod_pos_bound (Zpos m) (2 ^ (- e)) Hp) as Hr.
  assert (Hq : 2 ^ 149 = 2 ^ (- e) * 2 ^ (e + 149)).
  { rewrite <- Z.pow_add_r by lia. f_equal. lia. }
  split; [rewrite Hq; ring|lia].
Qed.

Lemma floor_units (p : float) (k : Z) :
  0 <= k < 2 ^ 31 -> below p (k * 2 ^ 149) ->
  F32.trunc (F32.floor p) = Some (units p / 2 ^ 149).
Proof.
  intros Hk Hp.
  destruct (floor_index p k Hk Hp) as (n & Hn & Hr). rewrite Hn. f_equal.
  destruct Hp as [->|(m & e & -> & Hcan & Hs)]; [injection Hn as <-; reflexivity|].
  pose proof (canonical_digits _ _ Hcan) as (Hd & He & _).
  cbn [units]. unfold F32.floor in Hn.
  destruct (Z.leb_spec 0 e) as [Hpos|Hneg].
  - unfold F32.trunc in Hn.
    destruct (Z.leb_spec 0 e); [|lia].
    destruct (_ && _); [|discriminate]. injection Hn as <-.
    rewrite Z.shiftl_mul_pow2 by lia. unfold scaled.
    rewrite Z.pow_add_r, Z.mul_assoc by lia.
    symmetry. apply Z.div_mul. lia.
  - destruct (int_part_range m e Hneg Hd) as (Hq & _ & _).
    rewrite trunc_of_Z in Hn by lia. injection Hn as <-.
    destruct (int_part_units m e ltac:(lia)) as [Hu Hf].
    pose proof (pow2_pos (e + 149) ltac:(lia)) as Hpe.
    assert (Hq2 : 2 ^ 149 = 2 ^ (- e) * 2 ^ (e + 149)).
    { rewrite <- Z.pow_add_r by lia. f_equal. lia. }
    apply Z.div_unique with (F32.frac_part m e * 2 ^ (e + 149)); [|lia].
    left. rewrite Hq2. nia.
Qed.

(** [round], then the conversion to [int], in terms of the value. *)
Lemma round_units (tie : float -> bool) (p : float) (k : Z) :
  0 <= k < 2 ^ 31 -> below p (k * 2 ^ 149) ->
  exists n,
    F32.trunc (F32.round tie p) = Some n /\
    ((n = units p / 2 ^ 149 /\ 2 * (units p mod 2 ^ 149) <= 2 ^ 149) \/
     (n = units p / 2 ^ 149 + 1 /\ 2 ^ 149 <= 2 * (units p mod 2 ^ 149))).
Proof.
  intros Hk Hp.
  destruct Hp as [->|(m & e & -> & Hcan & Hs)].
  - exists 0. split; [reflexivity|]. left. cbn [units].
    split; [reflexivity|]. rewrite Z.mod_0_l by lia. lia.
  - pose proof (canonical_digits _ _ Hcan) as (Hd & He & _).
    cbn [units]. unfold F32.round.
    destruct (Z.leb_spec 0 e) as [Hpos|Hneg].
    + exists (Zpos m * 2 ^ e).
      pose proof (pow2_pos e Hpos).
      assert (Hu : scaled m e = Zpos m * 2 ^ e * 2 ^ 149).
      { unfold scaled. rewrite Z.pow_add_r by lia. ring. }
      split.
      * apply trunc_finite; [lia| |lia].
        rewrite Hu in Hs. nia.
      * left. rewrite Hu, Z.div_mul, Z.mod_mul by lia. lia.
    + destruct (int_part_range m e Hneg Hd) as (Hq & _ & _).
      destruct (int_part_units m e ltac:(lia)) as [Hu Hf].
      pose proof (pow2_pos (e + 149) ltac:(lia)) as Hpe.
      pose proof (pow2_pos (- e - 1) ltac:(lia)) as Hph.
      assert (Hq2 : 2 ^ 149 = 2 ^ (- e) * 2 ^ (e + 149)).
      { rewrite <- Z.pow_add_r by lia. f_equal. lia. }
      assert (Hq3 : 2 ^ (- e) = 2 * 2 ^ (- e - 1)).
      { change 2 with (2 ^ 1) at 2. rewrite <- Z.pow_add_r by lia.
        f_equal. lia. }
      assert (Hdiv : scaled m e / 2 ^ 149 = F32.int_part m e).
      { symmetry.
        apply Z.div_unique with (F32.frac_part m e * 2 ^ (e + 149)); [|lia].
        left. rewrite Hq2. nia. }
      assert (Hmod : scaled m e mod 2 ^ 149
                     = F32.frac_part m e * 2 ^ (e + 149)).
      { symmetry. apply Z.mod_unique with (F32.int_part m e); [|lia].
        left. rewrite Hq2. nia. }
      rewrite Hdiv, Hmod.
      assert (Hhalf : Z.shiftl 1 (- e - 1) = 2 ^ (- e - 1)).
      { rewrite Z.shiftl_mul_pow2 by lia. lia. }
      rewrite Hhalf.
      assert (Hqk : F32.int_part m e * 2 ^ 149 <= k * 2 ^ 149) by lia.
      assert (Hqk' : F32.int_part m e <= k).
      { apply Z.mul_le_mono_pos_r in Hqk; lia. }
      assert (Hup : 0 < F32.frac_part m e -> F32.int_part m e + 1 <= k).
      { intros Hfp.
        assert (F32.int_part m e * 2 ^ 149 < k * 2 ^ 149) by nia.
        assert (F32.int_part m e < k) by nia. lia. }
      set (q := F32.int_part m e) in *.
      set (r := F32.frac_part m e) in *.
      assert (Ht : forall n, 0 <= n <= 2 ^ 24 ->
                 F32.trunc (if n =? 0 then S754_zero false
                            else F32.of_Z (if false then - n else n))
                 = Some n).
      { intros n Hn. destruct (Z.eqb_spec n 0) as [->|_]; [reflexivity|].
        apply trunc_of_Z. lia. }
      cbv zeta.
      destruct (Z.ltb_spec r (2 ^ (- e - 1))).
      * exists q. split; [apply Ht; lia|]. left. split; [reflexivity|].
        rewrite Hq2, Hq3. nia.
      * destruct (Z.ltb_spec (2 ^ (- e - 1)) r).
        -- exists (q + 1). split; [apply Ht; lia|]. right.
           split; [reflexivity|]. rewrite Hq2, Hq3. nia.
        -- assert (Er : r = 2 ^ (- e - 1)) by lia.
           destruct (tie _).
           ++ exists (q + 1). split; [apply Ht; lia|]. right.
              split; [reflexivity|]. rewrite Hq2, Hq3. nia.
           ++ exists q. split; [apply Ht; lia|]. left.
              split; [reflexivity|]. rewrite Hq2, Hq3. nia.
Qed.

Lemma round_monotone (tie : float -> bool) (p p' : float) (k n n' : Z) :
  0 <= k < 2 ^ 31 -> below p (k * 2 ^ 149) -> below p' (k * 2 ^ 149) ->
  units p <= units p' ->
  F32.trunc (F32.round tie p) = Some n ->
  F32.trunc (F32.round tie p') = Some n' ->
  n <= n'.
Proof.
  intros Hk Hp Hp' Hle Hn Hn'.
  destruct (Z.eq_dec (units p) (units p')) as [E|N].
  - rewrite (below_inj p p' _ _ Hp Hp' E) in Hn.
    assert (n = n') by congruence. lia.
  - destruct (round_units tie p k Hk Hp) as (m & Hm & Hc).
    destruct (round_units tie p' k Hk Hp') as (m' & Hm' & Hc').
    assert (m = n) by congruence. assert (m' = n') by congruence.
    subst m m'.
    pose proof (Z.div_mod (units p) (2 ^ 149) ltac:(lia)) as Hd.
    pose proof (Z.div_mod (units p') (2 ^ 149) ltac:(lia)) as Hd'.
    pose proof (Z.mod_pos_bound (units p) (2 ^ 149) ltac:(lia)) as Hb.
    pose proof (Z.mod_pos_bound (units p') (2 ^ 149) ltac:(lia)) as Hb'.
    assert (Hq : units p / 2 ^ 149 <= units p' / 2 ^ 149)
      by (apply Z.div_le_mono; lia).
    destruct Hc as [[-> Hf]|[-> Hf]], Hc' as [[-> Hf']|[-> Hf']]; lia.
Qed.

(** ** The palette index does not grow with [ie] *)

Lemma sub_one_plus_zero (x : float) :
  F32.sub F32.one (plus_zero x) = F32.sub F32.one x.
Proof. destruct x as [[|]| | |]; reflexivity. Qed.

Lemma plus_zero_below (x : float) :
  valid x = true ->
  F32.leb F32.zero x = true -> F32.leb x F32.one = true ->
  below (plus_zero x) (2 ^ 149).
Proof.
  intros Hv H0 H1. destruct x as [s|s| |s m e].
  - left. reflexivity.
  - destruct s; discriminate.
  - discriminate.
  - destruct s; [discriminate|]. right. exists m, e.
    apply bounded_canonical in Hv.
    split; [reflexivity|]. split; [exact Hv|].
    rewrite <- scaled_one. apply leb_canonical; [exact Hv|apply canonical_one|].
    exact H1.
Qed.

Lemma plus_zero_le (x x' : float) :
  valid x = true -> valid x' = true ->
  F32.leb F32.zero x = true -> F32.leb x x' = true ->
  F32.leb x' F32.one = true ->
  units (plus_zero x) <= units (plus_zero x').
Proof.
  intros Hv Hv' H0 Hle H1.
  assert (Hs : forall m e, 0 <= scaled m e).
  { intros m e. unfold scaled.
    apply Z.mul_nonneg_nonneg; [lia|apply Z.pow_nonneg; lia]. }
  destruct x as [[|]|[|]| |[|] m e], x' as [[|]|[|]| |[|] m' e'];
    try discriminate H0; try discriminate Hle; try discriminate H1;
    cbn [plus_zero is_zero units]; try lia; try apply Hs.
  apply bounded_canonical in Hv. apply bounded_canonical in Hv'.
  now apply leb_canonical.
Qed.

(** Of two values of [ie] between 0 and 1 the larger one gets a palette
    index that is not larger. *)
Lemma index_antitone (tie : float -> bool)
    (a : OpenCL.args) (u : ComputeShader.uniforms) (ie ie' : float) :
  same_setup a u ->
  1 <= OpenCL.paletteSize a <= 2 ^ 24 + 1 ->
  valid ie = true -> valid ie' = true ->
  F32.leb F32.zero ie = true -> F32.leb ie ie' = true ->
  F32.leb ie' F32.one = true ->
  exists n n' k k',
    OpenCL.index a ie = Some n /\ OpenCL.index a ie' = Some n' /\ n' <= n /\
    ComputeShader.index tie u ie = Some k /\
    ComputeShader.index tie u ie' = Some k' /\ k' <= k.
Proof.
  intros (_ & Hpal & _) HN Hv Hv' H0 Hle H1'.
  assert (H0' : F32.leb F32.zero ie' = true).
  { destruct ie as [[|]|[|]| |[|] m e], ie' as [[|]|[|]| |[|] m' e'];
      try reflexivity; try discriminate H0; try discriminate Hle;
      discriminate H1'. }
  assert (H1 : F32.leb ie F32.one = true).
  { destruct ie as [[|]|[|]| |[|] m e], ie' as [[|]|[|]| |[|] m' e'];
      try reflexivity; try discriminate H0; try discriminate Hle;
      try discriminate H1'.
    apply bounded_canonical in Hv. apply bounded_canonical in Hv'.
    pose proof (leb_canonical _ _ _ _ Hv Hv' Hle) as L1.
    pose proof (leb_canonical _ _ _ _ Hv' canonical_one H1') as L2.
    rewrite scaled_one in L2.
    destruct (below_one m e Hv ltac:(lia)) as [He23 Hm].
    unfold F32.leb, SFleb, F32.one. cbn [SFcompare].
    destruct (Z.compare_spec e (- 23)) as [Ec|Ec|Ec]; [|reflexivity|lia].
    rewrite Pos.compare_cont_spec. cbn [Pos.switch_Eq].
    destruct (Pos.compare_spec m 8388608) as [Hc|Hc|Hc]; try reflexivity.
    apply Pos2Z.pos_lt_pos in Hc. subst e.
    change (Zpos 8388608) with (2 ^ 23) in Hc.
    change (2 ^ (- - 23)) with (2 ^ 23) in Hm. lia. }
  (* 1 - ie *)
  pose proof (plus_zero_below ie Hv H0 H1) as Hb.
  pose proof (plus_zero_below ie' Hv' H0' H1') as Hb'.
  pose proof (sub_one_antitone _ _ Hb Hb'
                (plus_zero_le ie ie' Hv Hv' H0 Hle H1'))
    as Hsub.
  rewrite !sub_one_plus_zero in Hsub.
  pose proof (sub_one_below ie Hv H0 H1) as Hs.
  pose proof (sub_one_below ie' Hv' H0' H1') as Hs'.
  (* the position in the palette *)
  assert (Hpos : ComputeShader.position u ie = OpenCL.position a ie /\
                 ComputeShader.position u ie' = OpenCL.position a ie').
  { unfold ComputeShader.position, OpenCL.position. now rewrite Hpal. }
  destruct Hpos as [Hp Hp'].
  pose proof (cl_position_below a ie Hv H0 H1 HN) as Hpb.
  pose proof (cl_position_below a ie' Hv' H0' H1' HN) as Hpb'.
  assert (Hmono : units (OpenCL.position a ie') <= units (OpenCL.position a ie)).
  { destruct (Z.eq_dec (OpenCL.paletteSize a - 1) 0) as [E0|N0].
    - rewrite E0 in Hpb, Hpb'.
      destruct (units_below _ _ Hpb) as [U0 U1].
      destruct (units_below _ _ Hpb') as [U0' U1']. lia.
    - unfold OpenCL.position. rewrite to_int_small by lia.
      destruct (of_Z_canonical (OpenCL.paletteSize a - 1) ltac:(lia))
        as (mc & ec & -> & Hc & Hsc).
      apply mul_monotone; try assumption. rewrite Hsc.
      apply Z.mul_le_mono_nonneg_r; lia. }
  set (K := OpenCL.paletteSize a - 1) in *.
  assert (HK : 0 <= K < 2 ^ 31) by (unfold K; lia).
  exists (units (OpenCL.position a ie) / 2 ^ 149),
         (units (OpenCL.position a ie') / 2 ^ 149).
  destruct (round_index tie (OpenCL.position a ie) K HK Hpb) as (k & Hk & _).
  destruct (round_index tie (OpenCL.position a ie') K HK Hpb')
    as (k' & Hk' & _).
  exists k, k'. unfold OpenCL.index, ComputeShader.index.
  rewrite Hp, Hp'.
  split; [now apply (floor_units _ K)|].
  split; [now apply (floor_units _ K)|].
  split; [apply Z.div_le_mono; lia|].
  split; [exact Hk|]. split; [exact Hk'|].
  now apply (round_monotone tie (OpenCL.position a ie')
               (OpenCL.position a ie) K).
Qed.

(** X20: for one configuration and a palette of 1 to [2 ^ 24 + 1]
    colors, the palette index is a function of [ie] that does not grow: of
    two values between 0 and 1 the larger one gets a palette index that
    is not larger, in the OpenCL kernel ([floor]) and in the shader
    ([round], whatever it does with the halves). *)
Theorem index_does_not_grow_with_ie (tie : float -> bool)
    (a : OpenCL.args) (u : ComputeShader.uniforms) (ie ie' : float) :
  same_setup a u ->
  1 <= OpenCL.paletteSize a <= 2 ^ 24 + 1 ->
  valid ie = true -> valid ie' = true ->
  F32.leb F32.zero ie = true -> F32.leb ie ie' = true ->
  F32.leb ie' F32.one = true ->
  exists n n' k k',
    OpenCL.index a ie = Some n /\ OpenCL.index a ie' = Some n' /\ n' <= n /\
    ComputeShader.index tie u ie = Some k /\
    ComputeShader.index tie u ie' = Some k' /\ k' <= k.
Proof. exact (index_antitone tie a u ie ie'). Qed.

Lemma index_does_not_grow_with_ie_witness :
  let a := OpenCL.host_args one_group gradient in
  let u := ComputeShader.host_uniforms one_group gradient in
  exists n n' k k',
    OpenCL.index a one_half = Some n /\ OpenCL.index a F32.one = Some n' /\
    n' <= n /\
    ComputeShader.index half_away u one_half = Some k /\
    ComputeShader.index half_away u F32.one = Some k' /\ k' <= k.
Proof.
  apply (index_does_not_grow_with_ie half_away
           (OpenCL.host_args one_group gradient)
           (ComputeShader.host_uniforms one_group gradient) one_half F32.one).
  - repeat split.
  - split; vm_compute; discriminate.
  - reflexivity.
  - reflexivity.
  - reflexivity.
  - reflexivity.
  - reflexivity.
Defined.

(** ** The rounding of a quotient *)

Lemma rne_frac_range (T D : Z) : T / D <= rne_frac T D <= T / D + 1.
Proof.
  unfold rne_frac. destruct (2 * (T mod D) ?= D); [|lia|lia].
  destruct (Z.even (T / D)); lia.
Qed.

Lemma rne_frac_scale (T D c : Z) :
  0 < D -> 0 < c -> rne_frac (T * c) (D * c) = rne_frac T D.
Proof.
  intros HD Hc. unfold rne_frac.
  rewrite Z.div_mul_cancel_r by lia.
  rewrite Z.mul_mod_distr_r by lia.
  destruct (Z.compare_spec (2 * (T mod D * c)) (D * c)),
           (Z.compare_spec (2 * (T mod D)) D); try nia; reflexivity.
Qed.

Lemma rne_frac_mono (T T' D : Z) :
  0 < D -> T <= T' -> rne_frac T D <= rne_frac T' D.
Proof.
  intros HD Hle.
  pose proof (Z.div_le_mono T T' D HD Hle) as Hf.
  destruct (Z.eq_dec (T / D) (T' / D)) as [E|N].
  - pose proof (Z.div_mod T D ltac:(lia)) as H1.
    pose proof (Z.div_mod T' D ltac:(lia)) as H2.
    assert (Hr : T mod D <= T' mod D) by (rewrite E in H1; lia).
    unfold rne_frac. rewrite E.
    destruct (Z.compare_spec (2 * (T mod D)) D),
             (Z.compare_spec (2 * (T' mod D)) D);
      try lia; destruct (Z.even (T' / D)); lia.
  - pose proof (rne_frac_range T D). pose proof (rne_frac_range T' D). lia.
Qed.

Lemma record_of_loc_shifted (q : Z) (l : location) :
  0 <= q -> shr_record_of_loc q l = shifted (4 * q + loc_code l) 1.
Proof.
  intros Hq. unfold shifted.
  change (2 ^ (1 + 1)) with 4. change (2 ^ 1) with 2.
  assert (H4 : forall c, 0 <= c < 4 -> (4 * q + c) / 4 = q).
  { intros c Hc. symmetry. apply Z.div_unique with c; lia. }
  assert (H2 : forall c b, 0 <= b < 2 -> 0 <= c - 2 * b < 2 ->
                           (4 * q + c) / 2 = 2 * q + b).
  { intros c b Hb Hc. symmetry. apply Z.div_unique with (c - 2 * b); lia. }
  assert (Hm : forall c b, 0 <= b < 2 -> 0 <= c - 2 * b < 2 ->
                           (4 * q + c) mod 2 = c - 2 * b).
  { intros c b Hb Hc. symmetry.
    apply Z.mod_unique with (2 * q + b); lia. }
  assert (Ho : forall b, Z.odd (2 * q + b) = Z.odd b).
  { intros b. rewrite Z.add_comm, Z.odd_add_mul_2. reflexivity. }
  destruct l as [|[| |]]; cbn [shr_record_of_loc loc_code].
  - rewrite (H4 0), (H2 0 0), (Hm 0 0), Ho by lia. reflexivity.
  - rewrite (H4 2), (H2 2 1), (Hm 2 1), Ho by lia. reflexivity.
  - rewrite (H4 1), (H2 1 0), (Hm 1 0), Ho by lia. reflexivity.
  - rewrite (H4 3), (H2 3 1), (Hm 3 1), Ho by lia. reflexivity.
Qed.

(** The first shift of a rounding, with the location. *)
Lemma shr_fexp_loc (q e : Z) (l : location) :
  0 <= q -> e <= fexp32 (Zdigits2 q + e) ->
  shr_fexp F32.prec F32.emax q e l
  = (shifted (4 * q + loc_code l) (fexp32 (Zdigits2 q + e) - e + 1),
     fexp32 (Zdigits2 q + e)).
Proof.
  intros Hq He. unfold shr_fexp. fold_fexp32.
  rewrite record_of_loc_shifted by exact Hq.
  assert (Hc : 0 <= loc_code l) by (destruct l as [|[| |]]; simpl; lia).
  destruct (fexp32 (Zdigits2 q + e) - e) as [|p|p] eqn:Ek; try lia.
  - cbn [shr]. f_equal. lia.
  - cbn [shr]. rewrite iter_pos_shifted by lia. f_equal; [f_equal; lia|lia].
Qed.

Lemma new_location_code (D r : Z) :
  0 < D -> 0 <= r < D ->
  (loc_code (new_location D r) = 0 /\ r = 0) \/
  (loc_code (new_location D r) = 1 /\ 0 < 2 * r < D) \/
  (loc_code (new_location D r) = 2 /\ 2 * r = D) \/
  (loc_code (new_location D r) = 3 /\ D < 2 * r).
Proof.
  intros HD Hr. unfold new_location, new_location_even, new_location_odd.
  destruct (Z.even D) eqn:Ev.
  - destruct (Z.eqb_spec r 0) as [->|N]; [left; split; reflexivity|].
    destruct (Z.compare_spec (2 * r) D); cbn [loc_code]; lia.
  - destruct (Z.eqb_spec r 0) as [->|N]; [left; split; reflexivity|].
    assert (Hodd : D <> 2 * r).
    { intros ->. rewrite Z.even_mul in Ev. discriminate. }
    destruct (Z.compare_spec (2 * r + 1) D); cbn [loc_code]; lia.
Qed.

(** The two bits and the sticky bit of a shifted quotient against the
    remainder of the whole fraction. *)
Lemma rne_cases (P D f lw r c g h : Z) :
  0 < P -> 0 < D -> 0 <= lw < P -> 0 <= r < D ->
  (c = 0 /\ r = 0) \/ (c = 1 /\ 0 < 2 * r < D) \/ (c = 2 /\ 2 * r = D) \/
  (c = 3 /\ D < 2 * r) ->
  0 <= h < 2 * P -> 2 * P * g + h = 4 * P * f + 4 * lw + c ->
  (g = 2 * f /\ 2 * (lw * D + r) < D * P) \/
  (g = 2 * f + 1 /\ h = 0 /\ 2 * (lw * D + r) = D * P) \/
  (g = 2 * f + 1 /\ h <> 0 /\ D * P < 2 * (lw * D + r)).
Proof.
  intros HP HD Hlw Hr Hc Hh Heq.
  assert (HG : g = 2 * f \/ g = 2 * f + 1) by nia.
  destruct HG as [-> | ->].
  - left. split; [reflexivity|].
    assert (Hs : 4 * lw + c < 2 * P) by lia.
    destruct Hc as [[-> ->]|[[-> Hc]|[[-> Hc]|[-> Hc]]]]; nia.
  - right.
    assert (Hs : 4 * lw + c = 2 * P + h) by lia.
    destruct (Z.eq_dec h 0) as [->|N]; [left|right].
    + split; [reflexivity|]. split; [reflexivity|].
      destruct Hc as [[-> ->]|[[-> Hc]|[[-> Hc]|[-> Hc]]]]; nia.
    + split; [reflexivity|]. split; [exact N|].
      destruct Hc as [[-> ->]|[[-> Hc]|[[-> Hc]|[-> Hc]]]]; nia.
Qed.

(** The rounded mantissa of a quotient [q] with remainder [r] that is
    shifted by [k] more bits. *)
Lemma rne_shifted (q D r k : Z) :
  0 <= q -> 0 < D -> 0 <= r < D -> 0 <= k ->
  let s := shifted (4 * q + loc_code (new_location D r)) (k + 1) in
  round_nearest_even (shr_m s) (loc_of_shr_record s)
  = rne_frac (q * D + r) (D * 2 ^ k).
Proof.
  intros Hq HD Hr Hk s. subst s.
  pose proof (new_location_code D r HD Hr) as Hc.
  remember (loc_code (new_location D r)) as c eqn:Ec. clear Ec.
  assert (Hc4 : 0 <= c < 4) by lia.
  pose proof (pow2_pos k Hk) as HP.
  remember (2 ^ k) as P eqn:EP.
  assert (E1 : 2 ^ (k + 1) = 2 * P).
  { rewrite Z.pow_add_r by lia. subst P. change (2 ^ 1) with 2. ring. }
  assert (E2 : 2 ^ (k + 1 + 1) = 4 * P).
  { rewrite Z.pow_add_r, E1 by lia. change (2 ^ 1) with 2. ring. }
  clear EP.
  unfold shifted. cbn [shr_m loc_of_shr_record]. rewrite E1, E2.
  pose proof (Z.div_mod q P ltac:(lia)) as Hdq.
  pose proof (Z.mod_pos_bound q P HP) as Hlw.
  remember (q / P) as f eqn:Ef. remember (q mod P) as lw eqn:Elw.
  clear Ef Elw.
  pose proof (Z.div_mod (4 * q + c) (2 * P) ltac:(lia)) as Hdg.
  pose proof (Z.mod_pos_bound (4 * q + c) (2 * P) ltac:(lia)) as Hh.
  remember ((4 * q + c) / (2 * P)) as g eqn:Eg.
  remember ((4 * q + c) mod (2 * P)) as h eqn:Eh.
  clear Eg Eh.
  assert (Hf4 : (4 * q + c) / (4 * P) = f).
  { symmetry. apply Z.div_unique with (4 * lw + c); nia. }
  rewrite Hf4.
  assert (HTd : (q * D + r) / (D * P) = f).
  { symmetry. apply Z.div_unique with (lw * D + r); nia. }
  assert (HTm : (q * D + r) mod (D * P) = lw * D + r).
  { symmetry. apply Z.mod_unique with f; nia. }
  unfold rne_frac. rewrite HTd, HTm.
  destruct (rne_cases P D f lw r c g h HP HD Hlw Hr Hc Hh ltac:(nia))
    as [[-> Hlt]|[(-> & -> & Heq)|(-> & Hn & Hgt)]].
  - replace (Z.odd (2 * f)) with false
      by (rewrite Z.odd_mul; reflexivity).
    destruct (Z.compare_spec (2 * (lw * D + r)) (D * P)); try lia.
    destruct (negb (h =? 0)); reflexivity.
  - replace (Z.odd (2 * f + 1)) with true
      by (rewrite Z.add_comm, Z.odd_add_mul_2; reflexivity).
    destruct (Z.compare_spec (2 * (lw * D + r)) (D * P)); try lia.
    reflexivity.
  - replace (Z.odd (2 * f + 1)) with true
      by (rewrite Z.add_comm, Z.odd_add_mul_2; reflexivity).
    destruct (Z.eqb_spec h 0) as [E|_]; [contradiction|].
    destruct (Z.compare_spec (2 * (lw * D + r)) (D * P)); try lia.
    reflexivity.
Qed.

(** The quotient of a mantissa that is shifted to the exponent of the
    format has at most 24 bits, and exactly 24 above the least exponent. *)
Lemma floor_digits (m e : Z) :
  0 <= m -> e <= fexp32 (Zdigits2 m + e) ->
  m / 2 ^ (fexp32 (Zdigits2 m + e) - e) < 2 ^ 24 /\
  (fexp32 (Zdigits2 m + e) = - 149 \/
   2 ^ 23 <= m / 2 ^ (fexp32 (Zdigits2 m + e) - e)).
Proof.
  intros Hm He.
  remember (fexp32 (Zdigits2 m + e)) as e1 eqn:E1.
  assert (Hfe : Zdigits2 m + e - 24 <= e1) by (subst e1; unfold fexp32; lia).
  assert (Hcase : e1 = - 149 \/ e1 = Zdigits2 m + e - 24)
    by (subst e1; unfold fexp32; lia).
  clear E1. split.
  - destruct m as [|p|p]; [|  |lia].
    + rewrite Z.div_0_l; [reflexivity|].
      pose proof (pow2_pos (e1 - e) ltac:(lia)). lia.
    + rewrite Zdigits2_pos in *.
      pose proof (digits_bounds p).
      apply (div_pow_lt _ (digits p)); lia.
  - destruct Hcase as [E|E]; [now left|right].
    destruct m as [|p|p]; [|  |lia].
    + exfalso. cbn [Zdigits2] in *. lia.
    + rewrite Zdigits2_pos in *.
      assert (Hk : e1 - e = digits p - 24) by lia.
      rewrite Hk in *.
      apply Z.div_le_lower_bound; [apply pow2_pos; lia|].
      rewrite <- Z.pow_add_r by lia.
      replace (digits p - 24 + 23) with (digits p - 1) by lia.
      apply digits_bounds.
Qed.

(** A quotient of two positive numbers as a function of their values: the
    rounded fraction at an exponent [E] at which it has 24 bits, or at
    the least exponent. *)
Lemma div_quot (m1 : positive) (e1 : Z) (m2 : positive) (e2 : Z) :
  - 149 <= e1 -> - 149 <= e2 ->
  exists E,
    - 149 <= E /\
    F32.div (S754_finite false m1 e1) (S754_finite false m2 e2)
    = pack false (quot_at (scaled m1 e1) (scaled m2 e2) E) E /\
    scaled m1 e1 * 2 ^ 149 < 2 ^ 24 * (scaled m2 e2 * 2 ^ (E + 149)) /\
    (E = - 149 \/
     2 ^ 23 * (scaled m2 e2 * 2 ^ (E + 149)) <= scaled m1 e1 * 2 ^ 149).
Proof.
  intros He1 He2. unfold F32.div, SFdiv. cbn [xorb].
  destruct (div_core_spec m1 e1 m2 e2) as (q & r & -> & Hqr & Hr).
  destruct (div_core_digits m1 e1 m2 e2 q r Hqr Hr) as [Hq0 Hdig].
  remember (Z.min (fexp32 (digits m1 + e1 - (digits m2 + e2))) (e1 - e2))
    as e' eqn:Ee'.
  assert (He'lo : - 298 <= e2 + e') by (subst e'; unfold fexp32; lia).
  assert (Hs : 0 <= e1 - e2 - e') by (subst e'; lia).
  clear Ee'.
  destruct (floor_digits q e' Hq0 Hdig) as [Hf24 Hfn].
  remember (fexp32 (Zdigits2 q + e')) as E eqn:EE.
  assert (HEl : - 149 <= E) by (subst E; unfold fexp32; lia).
  exists E. split; [exact HEl|].
  pose proof (pow2_pos (E - e') ltac:(lia)) as HP.
  pose proof (pow2_pos (e1 - e2 - e') Hs) as HS.
  pose proof (pow2_pos (e2 + e' + 298) ltac:(lia)) as Hc0.
  pose proof (pow2_pos (E + 149) ltac:(lia)) as HE149.
  pose proof (pow2_pos (e2 + 149) ltac:(lia)) as H2149.
  (* the fraction in the two scales *)
  assert (HN : scaled m1 e1 * 2 ^ 149
               = (q * Zpos m2 + r) * 2 ^ (e2 + e' + 298)).
  { rewrite <- Hqr. unfold scaled.
    rewrite <- !Z.mul_assoc, <- !Z.pow_add_r by lia.
    f_equal. f_equal. lia. }
  assert (HD : scaled m2 e2 * 2 ^ (E + 149)
               = Zpos m2 * 2 ^ (E - e') * 2 ^ (e2 + e' + 298)).
  { unfold scaled.
    rewrite <- !Z.mul_assoc, <- !Z.pow_add_r by lia.
    f_equal. f_equal. lia. }
  assert (HQ : quot_at (scaled m1 e1) (scaled m2 e2) E
               = rne_frac (q * Zpos m2 + r) (Zpos m2 * 2 ^ (E - e'))).
  { unfold quot_at. rewrite HN, HD. apply rne_frac_scale; nia. }
  assert (Hfl : (q * Zpos m2 + r) / (Zpos m2 * 2 ^ (E - e'))
                = q / 2 ^ (E - e')).
  { rewrite <- Z.div_div by lia. f_equal.
    symmetry. apply Z.div_unique with r; lia. }
  assert (Hrem := Z.div_mod (q * Zpos m2 + r) (Zpos m2 * 2 ^ (E - e'))
                    ltac:(nia)).
  assert (Hrb := Z.mod_pos_bound (q * Zpos m2 + r) (Zpos m2 * 2 ^ (E - e'))
                    ltac:(nia)).
  rewrite Hfl in Hrem.
  pose proof (rne_frac_range (q * Zpos m2 + r) (Zpos m2 * 2 ^ (E - e')))
    as Hrange.
  rewrite Hfl in Hrange.
  assert (Hf0 : 0 <= q / 2 ^ (E - e')) by (apply Z.div_pos; lia).
  split; [|split].
  - unfold binary_round_aux.
    rewrite shr_fexp_loc; [|exact Hq0|rewrite <- EE; exact Hdig].
    rewrite <- EE.
    rewrite (rne_shifted q (Zpos m2) r (E - e')) by lia.
    rewrite HQ. apply rounded_pack; [exact HEl|lia].
  - rewrite HN, HD.
    remember (2 ^ (e2 + e' + 298)) as c0.
    remember (Zpos m2 * 2 ^ (E - e')) as D0.
    remember (q / 2 ^ (E - e')) as f0.
    remember ((q * Zpos m2 + r) mod D0) as r0.
    assert (q * Zpos m2 + r < 2 ^ 24 * D0) by nia.
    nia.
  - destruct Hfn as [Hfn|Hfn]; [now left|right].
    rewrite HN, HD.
    remember (2 ^ (e2 + e' + 298)) as c0.
    remember (Zpos m2 * 2 ^ (E - e')) as D0.
    remember (q / 2 ^ (E - e')) as f0.
    remember ((q * Zpos m2 + r) mod D0) as r0.
    assert (2 ^ 23 * D0 <= q * Zpos m2 + r) by nia.
    nia.
Qed.

(** ** The order of the floats that are not negative *)

Lemma scaled_lt_exponent (m1 : positive) (e1 : Z) (m2 : positive) (e2 : Z) :
  canonical m1 e1 -> canonical m2 e2 -> e1 < e2 ->
  scaled m1 e1 < scaled m2 e2.
Proof.
  intros H1 H2 Hlt. unfold scaled.
  pose proof (canonical_digits _ _ H1) as (Hd1 & He1 & _).
  pose proof (canonical_digits _ _ H2) as (Hd2 & He2 & Hn2).
  pose proof (digits_bounds m1) as [_ Hhi1].
  pose proof (digits_bounds m2) as [Hlo2 _].
  rewrite (Hn2 ltac:(lia)) in Hlo2. simpl (24 - 1) in Hlo2.
  assert (Zpos m1 < 2 ^ 24).
  { apply Z.lt_le_trans with (2 ^ digits m1); [exact Hhi1|].
    apply Z.pow_le_mono_r; lia. }
  replace (e2 + 149) with (e2 - e1 + (e1 + 149)) by lia.
  rewrite (Z.pow_add_r 2 (e2 - e1) (e1 + 149)) by lia.
  pose proof (pow2_pos (e1 + 149) ltac:(lia)).
  assert (Ha : 2 ^ 1 <= 2 ^ (e2 - e1)) by (apply Z.pow_le_mono_r; lia).
  change (2 ^ 1) with 2 in Ha.
  assert (Hb : Zpos m1 < Zpos m2 * 2 ^ (e2 - e1)) by pnia.
  rewrite Z.mul_assoc. apply Z.mul_lt_mono_pos_r; lia.
Qed.

Lemma compare_canonical (m1 : positive) (e1 : Z) (m2 : positive) (e2 : Z) :
  canonical m1 e1 -> canonical m2 e2 ->
  SFcompare (S754_finite false m1 e1) (S754_finite false m2 e2)
  = Some (scaled m1 e1 ?= scaled m2 e2).
Proof.
  intros H1 H2. cbn [SFcompare]. f_equal.
  destruct (Z.compare_spec e1 e2) as [->|Hlt|Hgt].
  - fold (Pos.compare m1 m2).
    pose proof (canonical_digits _ _ H2) as (_ & He2 & _).
    pose proof (pow2_pos (e2 + 149) ltac:(lia)) as Hp.
    unfold scaled.
    destruct (Pos.compare_spec m1 m2) as [->|Hm|Hm]; symmetry.
    + apply Z.compare_refl.
    + apply Z.compare_lt_iff. apply Z.mul_lt_mono_pos_r; lia.
    + apply Z.compare_gt_iff. apply Z.mul_lt_mono_pos_r; lia.
  - symmetry. apply Z.compare_lt_iff. now apply scaled_lt_exponent.
  - symmetry. apply Z.compare_gt_iff. apply scaled_lt_exponent; [assumption..|lia].
Qed.

Lemma scaled_top (m : positive) (e : Z) :
  canonical m e -> 0 < scaled m e < 2 ^ 277.
Proof.
  intros Hc. pose proof (canonical_digits _ _ Hc) as (Hd & He & _).
  destruct Hc as [_ Hhi].
  pose proof (digits_bounds m) as [_ Hm].
  assert (Hm24 : Zpos m < 2 ^ 24).
  { apply Z.lt_le_trans with (2 ^ digits m); [exact Hm|].
    apply Z.pow_le_mono_r; lia. }
  pose proof (pow2_pos (e + 149) ltac:(lia)) as Hp.
  assert (Hp2 : 2 ^ (e + 149) <= 2 ^ 253) by (apply Z.pow_le_mono_r; lia).
  unfold scaled. change (2 ^ 277) with (2 ^ 24 * 2 ^ 253). nia.
Qed.

Lemma rank_range (x : float) : valid x = true -> 0 <= rank x <= 2 ^ 300.
Proof.
  intros Hv. destruct x as [s|[|]| |[|] m e]; cbn [rank units]; try lia.
  apply bounded_canonical in Hv. pose proof (scaled_top m e Hv). lia.
Qed.

(** Two floats that are not negative compare as their ranks. *)
Lemma compare_rank (x y : float) :
  valid x = true -> valid y = true -> nonneg x = true -> nonneg y = true ->
  SFcompare x y = Some (rank x ?= rank y).
Proof.
  intros Hx Hy Nx Ny.
  destruct x as [sx|[|]| |[|] mx ex]; try discriminate;
    destruct y as [sy|[|]| |[|] my ey]; try discriminate;
    try reflexivity;
    try (apply bounded_canonical in Hx; pose proof (scaled_top _ _ Hx));
    try (apply bounded_canonical in Hy; pose proof (scaled_top _ _ Hy));
    cbn [SFcompare rank units].
  - f_equal. symmetry. apply Z.compare_lt_iff. lia.
  - f_equal. symmetry. apply Z.compare_gt_iff. lia.
  - f_equal. symmetry. apply Z.compare_gt_iff. lia.
  - f_equal. symmetry. apply Z.compare_lt_iff. lia.
  - now apply compare_canonical.
Qed.

Lemma leb_rank (x y : float) :
  valid x = true -> valid y = true -> nonneg x = true -> nonneg y = true ->
  F32.leb x y = (rank x <=? rank y).
Proof.
  intros Hx Hy Nx Ny. unfold F32.leb, SFleb.
  rewrite (compare_rank x y Hx Hy Nx Ny). unfold Z.leb.
  destruct (rank x ?= rank y); reflexivity.
Qed.

Lemma ltb_rank (x y : float) :
  valid x = true -> valid y = true -> nonneg x = true -> nonneg y = true ->
  F32.ltb x y = (rank x <? rank y).
Proof.
  intros Hx Hy Nx Ny. unfold F32.ltb, SFltb.
  rewrite (compare_rank x y Hx Hy Nx Ny). unfold Z.ltb.
  destruct (rank x ?= rank y); reflexivity.
Qed.

(** The rank of a rounded mantissa at its exponent: the value, up to the
    overflow. *)
Lemma rank_pack (Q E : Z) :
  - 149 <= E -> 0 <= Q <= 2 ^ 24 -> E = - 149 \/ 2 ^ 23 <= Q ->
  rank (pack false Q E)
  = if Q * 2 ^ (E + 149) <? 2 ^ 277 then Q * 2 ^ (E + 149) else 2 ^ 300.
Proof.
  intros HE HQ Hn. unfold pack.
  pose proof (pow2_pos (E + 149) ltac:(lia)) as Hp.
  destruct Q as [|q|q]; [reflexivity| |lia].
  destruct (Z.eqb_spec (Zpos q) (2 ^ 24)) as [E24|N24].
  - rewrite E24. destruct (Z.leb_spec (E + 1) 104) as [Hle|Hgt].
    + assert (Hp2 : 2 ^ (E + 149) <= 2 ^ 252)
        by (apply Z.pow_le_mono_r; lia).
      change (2 ^ 277) with (2 ^ 24 * (2 * 2 ^ 252)).
      destruct (Z.ltb_spec (2 ^ 24 * 2 ^ (E + 149))
                           (2 ^ 24 * (2 * 2 ^ 252))); [|lia].
      cbn [rank units]. unfold scaled.
      replace (E + 1 + 149) with (1 + (E + 149)) by lia.
      rewrite Z.pow_add_r by lia.
      change (Zpos (2 ^ 23)) with (2 ^ 23).
      change (2 ^ 24) with (2 ^ 23 * 2 ^ 1). ring.
    + assert (Hp2 : 2 ^ 253 <= 2 ^ (E + 149))
        by (apply Z.pow_le_mono_r; lia).
      change (2 ^ 277) with (2 ^ 24 * 2 ^ 253).
      destruct (Z.ltb_spec (2 ^ 24 * 2 ^ (E + 149)) (2 ^ 24 * 2 ^ 253));
        [lia|reflexivity].
  - destruct (Z.leb_spec E 104) as [Hle|Hgt].
    + assert (Hp2 : 2 ^ (E + 149) <= 2 ^ 253)
        by (apply Z.pow_le_mono_r; lia).
      change (2 ^ 277) with (2 ^ 24 * 2 ^ 253).
      destruct (Z.ltb_spec (Zpos q * 2 ^ (E + 149)) (2 ^ 24 * 2 ^ 253));
        [reflexivity|nia].
    + assert (Hp2 : 2 * 2 ^ 253 <= 2 ^ (E + 149)).
      { change (2 * 2 ^ 253) with (2 ^ 254). apply Z.pow_le_mono_r; lia. }
      change (2 ^ 277) with (2 ^ 23 * (2 * 2 ^ 253)).
      destruct (Z.ltb_spec (Zpos q * 2 ^ (E + 149))
                           (2 ^ 23 * (2 * 2 ^ 253)));
        [nia|reflexivity].
Qed.

(** ** Division is monotone *)

(** A quotient by a positive number grows with the dividend, up to
    infinity. *)
Lemma div_rank_mono (x x' y : float) :
  valid x = true -> valid x' = true -> valid y = true ->
  nonneg x = true -> nonneg x' = true -> positive_finite y = true ->
  rank x <= rank x' ->
  rank (F32.div x y) <= rank (F32.div x' y).
Proof.
  intros Hx Hx' Hy Nx Nx' Py Hle.
  destruct y as [sy|sy| |[|] my ey]; try discriminate.
  apply bounded_canonical in Hy.
  pose proof (canonical_digits _ _ Hy) as (_ & Hey & _).
  pose proof (rank_range _ (div_valid x' (S754_finite false my ey))) as Hr'.
  pose proof (rank_range _ (div_valid x (S754_finite false my ey))) as Hr.
  destruct x as [sx|[|]| |[|] mx ex]; try discriminate.
  - destruct sx; cbn [F32.div SFdiv xorb rank units]; lia.
  - destruct x' as [sx'|[|]| |[|] mx' ex']; try discriminate;
      try (cbn [rank units] in Hle; lia).
    apply bounded_canonical in Hx'. pose proof (scaled_top _ _ Hx').
    cbn [rank units] in Hle. lia.
  - apply bounded_canonical in Hx. pose proof (scaled_top _ _ Hx) as Hsx.
    pose proof (canonical_digits _ _ Hx) as (_ & Hex & _).
    destruct x' as [sx'|[|]| |[|] mx' ex']; try discriminate;
      try (cbn [rank units] in Hle; lia).
    + exact (proj2 Hr).
    + apply bounded_canonical in Hx'.
      pose proof (canonical_digits _ _ Hx') as (_ & Hex' & _).
      cbn [rank units] in Hle.
      destruct (div_quot mx ex my ey Hex Hey) as (E & HE & -> & Ha & Hb).
      destruct (div_quot mx' ex' my ey Hex' Hey)
        as (E' & HE' & -> & Ha' & Hb').
      pose proof (scaled_top _ _ Hy) as Hsy.
      pose proof (pow2_pos (E + 149) ltac:(lia)) as Hp.
      pose proof (pow2_pos (E' + 149) ltac:(lia)) as Hp'.
      remember (scaled mx ex) as U. remember (scaled mx' ex') as U'.
      remember (scaled my ey) as V.
      assert (HEE : E <= E').
      { destruct (Z.le_gt_cases E E') as [|Hgt]; [assumption|exfalso].
        destruct Hb as [Hb|Hb]; [lia|].
        assert (Hpp : 2 * 2 ^ (E' + 149) <= 2 ^ (E + 149)).
        { change 2 with (2 ^ 1) at 1. rewrite <- Z.pow_add_r by lia.
          apply Z.pow_le_mono_r; lia. }
        nia. }
      (* the two rounded mantissas *)
      assert (HD : 0 < V * 2 ^ (E + 149)) by nia.
      assert (HD' : 0 < V * 2 ^ (E' + 149)) by nia.
      assert (HQ : U * 2 ^ 149 / (V * 2 ^ (E + 149)) <= quot_at U V E
                   <= U * 2 ^ 149 / (V * 2 ^ (E + 149)) + 1)
        by apply rne_frac_range.
      assert (HQ' : U' * 2 ^ 149 / (V * 2 ^ (E' + 149)) <= quot_at U' V E'
                    <= U' * 2 ^ 149 / (V * 2 ^ (E' + 149)) + 1)
        by apply rne_frac_range.
      assert (Hfl : 0 <= U * 2 ^ 149 / (V * 2 ^ (E + 149)) < 2 ^ 24).
      { split; [apply Z.div_pos; lia|].
        apply Z.div_lt_upper_bound; lia. }
      assert (Hfl' : 0 <= U' * 2 ^ 149 / (V * 2 ^ (E' + 149)) < 2 ^ 24).
      { split; [apply Z.div_pos; lia|].
        apply Z.div_lt_upper_bound; lia. }
      assert (Hn : E = - 149 \/ 2 ^ 23 <= quot_at U V E).
      { destruct Hb as [Hb|Hb]; [now left|right].
        apply Z.le_trans with (U * 2 ^ 149 / (V * 2 ^ (E + 149))); [|lia].
        apply Z.div_le_lower_bound; lia. }
      assert (Hn' : E' = - 149 \/ 2 ^ 23 <= quot_at U' V E').
      { destruct Hb' as [Hb'|Hb']; [now left|right].
        apply Z.le_trans with (U' * 2 ^ 149 / (V * 2 ^ (E' + 149))); [|lia].
        apply Z.div_le_lower_bound; lia. }
      rewrite (rank_pack (quot_at U V E) E HE ltac:(lia) Hn).
      rewrite (rank_pack (quot_at U' V E') E' HE' ltac:(lia) Hn').
      assert (Hval : quot_at U V E * 2 ^ (E + 149)
                     <= quot_at U' V E' * 2 ^ (E' + 149)).
      { destruct (Z.eq_dec E E') as [<-|Hne].
        - apply Z.mul_le_mono_nonneg_r; [lia|].
          unfold quot_at. apply rne_frac_mono; [lia|].
          apply Z.mul_le_mono_nonneg_r; lia.
        - assert (Hpp : 2 * 2 ^ (E + 149) <= 2 ^ (E' + 149)).
          { change 2 with (2 ^ 1) at 1. rewrite <- Z.pow_add_r by lia.
            apply Z.pow_le_mono_r; lia. }
          destruct Hn' as [Hn'|Hn']; [lia|].
          apply Z.le_trans with (2 ^ 24 * 2 ^ (E + 149)); [nia|].
          apply Z.le_trans with (2 ^ 23 * 2 ^ (E' + 149)); [|nia].
          change (2 ^ 24) with (2 ^ 23 * 2). nia. }
      destruct (Z.ltb_spec (quot_at U V E * 2 ^ (E + 149)) (2 ^ 277)),
               (Z.ltb_spec (quot_at U' V E' * 2 ^ (E' + 149)) (2 ^ 277));
        lia.
Qed.

(** ** The palette index does not grow with the depth *)

Lemma nearest_valid (a : positive) :
  valid (nearest a) = true /\ signed false (nearest a) = true.
Proof.
  pose proof (nearest_mantissa a) as H. cbv zeta in H.
  destruct H as [Hr Hn]. unfold nearest.
  assert (Hlo : - 149 <= fexp32 (digits a - 298)) by (unfold fexp32; lia).
  apply pack_valid; [exact Hlo|exact Hr|].
  destruct (Z.eq_dec (fexp32 (digits a - 298)) (- 149)) as [E|N];
    [now left|right; apply Hn; lia].
Qed.

Lemma signed_nonneg (x : float) : signed false x = true -> nonneg x = true.
Proof. destruct x as [[|]|[|]| |[|] m e]; simpl; congruence. Qed.

(** Below the overflow the rank of a rounded value is its value. *)
Lemma nearest_rank (a : positive) :
  fexp32 (digits a - 298) <= 103 -> rank (nearest a) = units (nearest a).
Proof.
  intros He. unfold nearest, pack.
  destruct (round_shift _ _) as [|q|q]; try reflexivity.
  destruct (Zpos q =? 2 ^ 24).
  - destruct (Z.leb_spec (fexp32 (digits a - 298) + 1) 104);
      [reflexivity|lia].
  - destruct (Z.leb_spec (fexp32 (digits a - 298)) 104); [reflexivity|lia].
Qed.

(** [x + 1.0f] for [x] that is not negative, as a function of the value. *)
Lemma add_one_units (x : float) (b : Z) :
  below x b ->
  F32.add x F32.one = nearest (Z.to_pos (units x * 2 ^ 149 + 2 ^ 298)).
Proof.
  intros [->|(m & e & -> & Hcan & _)]; [now vm_compute|].
  cbn [units].
  pose proof (canonical_digits _ _ Hcan) as (_ & Hlo & _).
  pose proof (pow2_pos (e + 149) ltac:(lia)) as Hpe.
  unfold F32.add, F32.one, SFadd. cbn [cond_Zopp].
  assert (Hs : scaled m e * 2 ^ 149 = Zpos m * 2 ^ (e + 298)).
  { unfold scaled. rewrite <- Z.mul_assoc, <- Z.pow_add_r by lia.
    f_equal. f_equal. lia. }
  destruct (Z.le_gt_cases e (- 23)) as [Hle|Hgt].
  - replace (Z.min e (- 23)) with e by lia.
    rewrite (shl_align_fst m e e), (shl_align_fst 8388608 (- 23) e) by lia.
    rewrite Z.sub_diag, Z.mul_1_r. change (Zpos 8388608) with (2 ^ 23).
    pose proof (pow2_pos (- 23 - e) ltac:(lia)) as Hp.
    destruct (Zpos m + 2 ^ 23 * 2 ^ (- 23 - e)) as [|D|D] eqn:ED; try lia.
    unfold binary_normalize. fold (round_ne false D e).
    apply round_ne_nearest; [lia|].
    rewrite Z2Pos.id by nia. rewrite <- ED, Hs.
    rewrite Z.mul_add_distr_r. f_equal.
    rewrite <- Z.mul_assoc, <- !Z.pow_add_r by lia. f_equal. lia.
  - replace (Z.min e (- 23)) with (- 23) by lia.
    rewrite (shl_align_fst m e (- 23)), (shl_align_fst 8388608 (- 23) (- 23))
      by lia.
    rewrite Z.sub_diag, Z.mul_1_r. change (Zpos 8388608) with (2 ^ 23).
    pose proof (pow2_pos (e - - 23) ltac:(lia)) as Hp.
    destruct (Zpos m * 2 ^ (e - - 23) + 2 ^ 23) as [|D|D] eqn:ED; try lia.
    unfold binary_normalize. fold (round_ne false D (- 23)).
    apply round_ne_nearest; [lia|].
    rewrite Z2Pos.id by nia. rewrite <- ED, Hs.
    rewrite Z.mul_add_distr_r. f_equal.
    rewrite <- Z.mul_assoc, <- !Z.pow_add_r by lia. f_equal. f_equal. lia.
Qed.

(** [x + 1.0f] is a number that is not negative and grows with [x]. *)
Lemma add_one_monotone (x x' : float) :
  below x (2 ^ 24 * 2 ^ 149) -> below x' (2 ^ 24 * 2 ^ 149) ->
  units x <= units x' ->
  valid (F32.add x F32.one) = true /\ nonneg (F32.add x F32.one) = true /\
  rank (F32.add x F32.one) <= rank (F32.add x' F32.one).
Proof.
  intros Hx Hx' Hle.
  rewrite (add_one_units x _ Hx), (add_one_units x' _ Hx').
  destruct (units_below x _ Hx) as [H0 H1].
  destruct (units_below x' _ Hx') as [H0' H1'].
  assert (Hb : forall v, 0 <= v -> (0 < v -> v <= 2 ^ 24 * 2 ^ 149) ->
               fexp32 (digits (Z.to_pos (v * 2 ^ 149 + 2 ^ 298)) - 298)
               <= 103).
  { intros v Hv0 Hv1.
    assert (Hd : digits (Z.to_pos (v * 2 ^ 149 + 2 ^ 298)) <= 323).
    { apply digits_le; [lia|]. rewrite Z2Pos.id by lia.
      change (2 ^ 323) with (2 ^ 24 * 2 ^ 149 * 2 ^ 149 * 2).
      change (2 ^ 298) with (2 ^ 149 * 2 ^ 149).
      destruct (Z.eq_dec v 0) as [->|N]; [lia|].
      specialize (Hv1 ltac:(lia)). nia. }
    unfold fexp32. lia. }
  destruct (nearest_valid (Z.to_pos (units x * 2 ^ 149 + 2 ^ 298)))
    as [Hv Hs].
  split; [exact Hv|]. split; [now apply signed_nonneg|].
  rewrite !nearest_rank by (apply Hb; assumption).
  apply nearest_mono; [|apply Hb; assumption].
  rewrite !Z2Pos.id by lia. lia.
Qed.

(** A number that is not negative, of a rank below infinity, is [+0] or a
    positive number. *)
Lemma below_of_rank (x : float) (b : Z) :
  valid x = true -> signed false x = true -> rank x <= b -> b < 2 ^ 300 ->
  below x b.
Proof.
  intros Hv Hs Hr Hb.
  destruct x as [[|]|[|]| |[|] m e]; try discriminate.
  - now left.
  - cbn [rank] in Hr. lia.
  - right. exists m, e. split; [reflexivity|].
    split; [now apply bounded_canonical|exact Hr].
Qed.

Lemma div_signed (x y : float) :
  signed false x = true -> positive_finite y = true ->
  signed false (F32.div x y) = true.
Proof.
  destruct x as [sx|sx| |sx mx ex], y as [sy|sy| |sy my ey];
    try discriminate; destruct sy; try discriminate;
    destruct sx; try discriminate; try reflexivity.
  intros _ _. unfold F32.div, SFdiv. cbn [xorb].
  destruct (div_core_spec mx ex my ey) as (q & r & -> & Hqr & Hr).
  destruct (div_core_digits mx ex my ey q r Hqr Hr) as [Hq He].
  now apply round_aux_valid.
Qed.

Lemma of_Z_nonneg (n : Z) :
  0 <= n <= 2 ^ 24 ->
  valid (F32.of_Z n) = true /\ signed false (F32.of_Z n) = true /\
  rank (F32.of_Z n) = n * 2 ^ 149.
Proof.
  intros Hn. destruct (Z.eq_dec n 0) as [->|N].
  - repeat split.
  - destruct (of_Z_canonical n ltac:(lia)) as (m & e & -> & Hc & Hs).
    split; [now apply bounded_canonical|]. split; [reflexivity|exact Hs].
Qed.

(** [i] at a depth [d] of at most [n]: a number between 0 and 1 that
    grows with [d]. *)
Lemma normalized_monotone (d d' n : Z) :
  0 <= d <= d' -> d' <= n -> 0 < n <= 2 ^ 24 ->
  below (F32.div (F32.of_Z d) (F32.of_Z n)) (2 ^ 149) /\
  below (F32.div (F32.of_Z d') (F32.of_Z n)) (2 ^ 149) /\
  units (F32.div (F32.of_Z d) (F32.of_Z n))
  <= units (F32.div (F32.of_Z d') (F32.of_Z n)).
Proof.
  intros Hd Hd' Hn.
  destruct (of_Z_nonneg d ltac:(lia)) as (Vd & Sd & Rd).
  destruct (of_Z_nonneg d' ltac:(lia)) as (Vd' & Sd' & Rd').
  destruct (of_Z_nonneg n ltac:(lia)) as (Vn & Sn & Rn).
  assert (Pn : positive_finite (F32.of_Z n) = true).
  { destruct (of_Z_canonical n Hn) as (m & e & -> & _). reflexivity. }
  assert (H1 : rank (F32.div (F32.of_Z n) (F32.of_Z n)) = 2 ^ 149).
  { destruct (of_Z_canonical n Hn) as (m & e & -> & Hc & Hs).
    pose proof (canonical_digits _ _ Hc) as (_ & He & _).
    rewrite (div_exact false false m e m e (2 ^ 23) (- 23) He He
               canonical_one ltac:(rewrite scaled_one; ring)).
    reflexivity. }
  pose proof (pow2_pos 149 ltac:(lia)) as Hp.
  assert (Hr : forall k, 0 <= k <= n ->
               rank (F32.div (F32.of_Z k) (F32.of_Z n)) <= 2 ^ 149).
  { intros k Hk. rewrite <- H1.
    destruct (of_Z_nonneg k ltac:(lia)) as (Vk & Sk & Rk).
    apply div_rank_mono; try assumption; try now apply signed_nonneg.
    rewrite Rk, Rn. nia. }
  assert (Hb : forall k, 0 <= k <= n ->
               below (F32.div (F32.of_Z k) (F32.of_Z n)) (2 ^ 149)).
  { intros k Hk.
    destruct (of_Z_nonneg k ltac:(lia)) as (Vk & Sk & Rk).
    apply below_of_rank; [apply div_valid|now apply div_signed| |reflexivity].
    now apply Hr. }
  split; [apply Hb; lia|]. split; [apply Hb; lia|].
  assert (Hm : rank (F32.div (F32.of_Z d) (F32.of_Z n))
               <= rank (F32.div (F32.of_Z d') (F32.of_Z n))).
  { apply div_rank_mono; try assumption; try now apply signed_nonneg.
    rewrite Rd, Rd'. nia. }
  assert (Hu : forall x, below x (2 ^ 149) -> rank x = units x).
  { intros x [->|(m & e & -> & _)]; reflexivity. }
  rewrite <- !Hu by (apply Hb; lia). exact Hm.
Qed.

(** The argument of [log] grows with the depth. *)
Lemma argument_monotone (a : OpenCL.args) (d d' : Z) :
  2 <= OpenCL.maxDepth a <= 2 ^ 24 + 1 ->
  valid (OpenCL.scaleForce a) = true ->
  positive_finite (OpenCL.scaleForce a) = true ->
  F32.leb (OpenCL.scaleForce a) (F32.of_Z (2 ^ 24)) = true ->
  0 <= d /\ d <= d' < OpenCL.maxDepth a ->
  F32.leb (argument a d) (argument a d') = true.
Proof.
  intros HM Vs Ps Ls Hd. unfold argument, OpenCL.normalized.
  rewrite to_uint_small by lia.
  destruct (normalized_monotone d d' (OpenCL.maxDepth a - 1)
              ltac:(lia) ltac:(lia) ltac:(lia)) as (Hb & Hb' & Hle).
  remember (F32.div (F32.of_Z d) (F32.of_Z (OpenCL.maxDepth a - 1))) as i.
  remember (F32.div (F32.of_Z d') (F32.of_Z (OpenCL.maxDepth a - 1))) as i'.
  destruct (OpenCL.scaleForce a) as [| | |[|] ms es]; try discriminate.
  apply bounded_canonical in Vs.
  assert (Hsf : scaled ms es <= 2 ^ 24 * 2 ^ 149).
  { apply (leb_canonical ms es (2 ^ 23) 1 Vs) in Ls;
      [exact Ls|split; [reflexivity|discriminate]]. }
  pose proof (mul_below i ms es Hb Vs) as Hm.
  pose proof (mul_below i' ms es Hb' Vs) as Hm'.
  pose proof (mul_monotone i i' ms es Hb Hb' Vs Hsf Hle) as Hmm.
  assert (Hw : forall x, below x (scaled ms es) ->
               below x (2 ^ 24 * 2 ^ 149)).
  { intros x [->|(m & e & -> & Hc & Hs)]; [now left|right].
    exists m, e. split; [reflexivity|]. split; [exact Hc|lia]. }
  destruct (add_one_monotone _ _ (Hw _ Hm) (Hw _ Hm') Hmm) as (V1 & N1 & R).
  destruct (add_one_monotone _ _ (Hw _ Hm') (Hw _ Hm') ltac:(lia))
    as (V2 & N2 & _).
  rewrite leb_rank by assumption. now apply Z.leb_le.
Qed.

(** [fmin(1.0f, q)] and [min(1.0f, q)] for a number [q] that is not
    negative. *)
Lemma clamp_rank (q : float) :
  valid q = true -> nonneg q = true ->
  F32.fmin F32.one q = F32.min F32.one q /\
  valid (F32.min F32.one q) = true /\
  nonneg (F32.min F32.one q) = true /\
  rank (F32.min F32.one q) = Z.min (rank q) (2 ^ 149).
Proof.
  intros Hv Hn.
  split; [destruct q as [[|]|[|]| |[|] m e]; try discriminate; reflexivity|].
  unfold F32.min. rewrite (ltb_rank q F32.one Hv eq_refl Hn eq_refl).
  change (rank F32.one) with (2 ^ 149).
  destruct (Z.ltb_spec (rank q) (2 ^ 149)).
  - split; [exact Hv|]. split; [exact Hn|]. lia.
  - split; [reflexivity|]. split; [reflexivity|].
    change (rank F32.one) with (2 ^ 149). lia.
Qed.

(** [ie] grows with the depth. *)
Lemma smoothed_monotone (log : float -> float) (a : OpenCL.args)
    (d d' : Z) :
  2 <= OpenCL.maxDepth a <= 2 ^ 24 + 1 ->
  valid (OpenCL.scaleForce a) = true ->
  positive_finite (OpenCL.scaleForce a) = true ->
  F32.leb (OpenCL.scaleForce a) (F32.of_Z (2 ^ 24)) = true ->
  valid (log (OpenCL.scaleForce a)) = true ->
  positive_finite (log (OpenCL.scaleForce a)) = true ->
  monotone_log log a ->
  0 <= d /\ d <= d' < OpenCL.maxDepth a ->
  let ie := OpenCL.smoothed log a (OpenCL.normalized a d) in
  let ie' := OpenCL.smoothed log a (OpenCL.normalized a d') in
  valid ie = true /\ valid ie' = true /\
  F32.leb F32.zero ie = true /\ F32.leb ie ie' = true /\
  F32.leb ie' F32.one = true /\
  ie = F32.min F32.one
         (F32.div (log (argument a d)) (log (OpenCL.scaleForce a))) /\
  ie' = F32.min F32.one
          (F32.div (log (argument a d')) (log (OpenCL.scaleForce a))).
Proof.
  intros HM Vs Ps Ls Vl Pl Hlog Hd ie ie'.
  pose proof (argument_monotone a d d' HM Vs Ps Ls Hd) as Harg.
  destruct (Hlog d d' Hd) as (V' & N' & Hmono).
  destruct (Hlog d d ltac:(lia)) as (V & N & _).
  specialize (Hmono Harg).
  rewrite leb_rank in Hmono by assumption. apply Z.leb_le in Hmono.
  pose proof (div_rank_mono _ _ _ V V' Vl N N' Pl Hmono) as Hq.
  assert (Nl : forall x, nonneg x = true ->
               nonneg (F32.div x (log (OpenCL.scaleForce a))) = true)
    by (intros x Hx; now apply div_nonneg).
  destruct (clamp_rank _ (div_valid (log (argument a d))
                            (log (OpenCL.scaleForce a))) (Nl _ N))
    as (E & Vi & Ni & Ri).
  destruct (clamp_rank _ (div_valid (log (argument a d'))
                            (log (OpenCL.scaleForce a))) (Nl _ N'))
    as (E' & Vi' & Ni' & Ri').
  pose proof (rank_range _ (div_valid (log (argument a d))
                              (log (OpenCL.scaleForce a)))) as Rq.
  pose proof (rank_range _ (div_valid (log (argument a d'))
                              (log (OpenCL.scaleForce a)))) as Rq'.
  assert (Hie : ie = F32.min F32.one
                       (F32.div (log (argument a d))
                                (log (OpenCL.scaleForce a))))
    by exact E.
  assert (Hie' : ie' = F32.min F32.one
                         (F32.div (log (argument a d'))
                                  (log (OpenCL.scaleForce a))))
    by exact E'.
  rewrite Hie, Hie'.
  split; [exact Vi|]. split; [exact Vi'|].
  rewrite !leb_rank by (assumption || reflexivity).
  change (rank F32.zero) with 0. change (rank F32.one) with (2 ^ 149).
  rewrite Ri, Ri'.
  split; [apply Z.leb_le; lia|]. split; [apply Z.leb_le; lia|].
  split; [apply Z.leb_le; lia|]. split; reflexivity.
Qed.

Lemma monotone_at_spec (log : float -> float) (a : OpenCL.args) :
  (forall d d', 0 <= d /\ d <= d' < OpenCL.maxDepth a ->
                monotone_at log a d d' = true) ->
  monotone_log log a.
Proof.
  intros H d d' Hd. specialize (H d d' Hd). unfold monotone_at in H.
  apply andb_true_iff in H. destruct H as [H Hi].
  apply andb_true_iff in H. destruct H as [Hv Hn].
  split; [exact Hv|]. split; [exact Hn|].
  intros Hle. rewrite Hle in Hi. exact Hi.
Qed.

Lemma forallb_ids (P : Z -> bool) (n : Z) :
  forallb P (OpenCL.ids n) = true -> forall d, 0 <= d < n -> P d = true.
Proof.
  intros H d Hd. rewrite forallb_forall in H. apply H.
  unfold OpenCL.ids. apply in_map_iff. exists (Z.to_nat d).
  split; [lia|]. apply in_seq. lia.
Qed.

(** X21: with a [log] that is monotone at its arguments, a pixel
    that leaves the loop at a larger depth gets a palette index that is
    not larger, in the OpenCL kernel and in the shader: the palette is
    walked from its last color towards its first one as the depth grows.
    This holds for 2 to [2 ^ 24 + 1] iterations, a palette of 1 to
    [2 ^ 24 + 1] colors and a positive [scaleForce] of at most [2 ^ 24]
    whose [log] is positive. *)
Theorem index_does_not_grow_with_depth (log : float -> float)
    (tie : float -> bool) (a : OpenCL.args) (u : ComputeShader.uniforms)
    (s s' : loop_state) :
  same_setup a u ->
  2 <= OpenCL.maxDepth a <= 2 ^ 24 + 1 ->
  1 <= OpenCL.paletteSize a <= 2 ^ 24 + 1 ->
  valid (OpenCL.scaleForce a) = true ->
  positive_finite (OpenCL.scaleForce a) = true ->
  F32.leb (OpenCL.scaleForce a) (F32.of_Z (2 ^ 24)) = true ->
  valid (log (OpenCL.scaleForce a)) = true ->
  positive_finite (log (OpenCL.scaleForce a)) = true ->
  monotone_log log a ->
  0 <= depth s /\ depth s <= depth s' < OpenCL.maxDepth a ->
  exists n n' k k',
    OpenCL.classify log a s = Escaped (Some n) /\
    OpenCL.classify log a s' = Escaped (Some n') /\ n' <= n /\
    ComputeShader.classify log tie u s = Escaped (Some k) /\
    ComputeShader.classify log tie u s' = Escaped (Some k') /\ k' <= k.
Proof.
  intros Hsame HM HN Vs Ps Ls Vl Pl Hlog Hd.
  destruct (smoothed_monotone log a (depth s) (depth s') HM Vs Ps Ls Vl Pl
              Hlog Hd) as (Vi & Vi' & H0 & Hle & H1 & E & E').
  destruct (index_antitone tie a u _ _ Hsame HN Vi Vi' H0 Hle H1)
    as (n & n' & k & k' & Hn & Hn' & Hnn & Hk & Hk' & Hkk).
  exists n, n', k, k'.
  destruct Hsame as (Hdepth & _ & Hsf).
  assert (Hgl : forall d,
            ComputeShader.smoothed log u (ComputeShader.normalized u d)
            = F32.min F32.one
                (F32.div (log (argument a d)) (log (OpenCL.scaleForce a)))).
  { intros d. unfold ComputeShader.smoothed, ComputeShader.normalized,
      argument, OpenCL.normalized.
    rewrite Hdepth, Hsf, to_uint_small by lia. reflexivity. }
  unfold OpenCL.classify, ComputeShader.classify.
  rewrite !to_uint_small by lia.
  destruct (Z.eqb_spec (depth s) (OpenCL.maxDepth a)) as [|_]; [lia|].
  destruct (Z.eqb_spec (depth s') (OpenCL.maxDepth a)) as [|_]; [lia|].
  destruct (Z.ltb_spec (ComputeShader.maxDepth u) (depth s)) as [|_]; [lia|].
  destruct (Z.ltb_spec (ComputeShader.maxDepth u) (depth s')) as [|_];
    [lia|].
  rewrite !Hgl, <- E, <- E', Hn, Hn', Hk, Hk'.
  repeat split; assumption.
Qed.

Lemma index_does_not_grow_with_depth_witness :
  let a := OpenCL.host_args one_group gradient in
  let u := ComputeShader.host_uniforms one_group gradient in
  let s := mkLoop 3 three three in
  let s' := mkLoop 7 three three in
  exists n n' k k',
    OpenCL.classify RefLog.log a s = Escaped (Some n) /\
    OpenCL.classify RefLog.log a s' = Escaped (Some n') /\ n' <= n /\
    ComputeShader.classify RefLog.log half_away u s = Escaped (Some k) /\
    ComputeShader.classify RefLog.log half_away u s' = Escaped (Some k') /\
    k' <= k.
Proof.
  apply (index_does_not_grow_with_depth RefLog.log half_away
           (OpenCL.host_args one_group gradient)
           (ComputeShader.host_uniforms one_group gradient)
           (mkLoop 3 three three) (mkLoop 7 three three)).
  - repeat split.
  - split; vm_compute; discriminate.
  - split; vm_compute; discriminate.
  - reflexivity.
  - reflexivity.
  - now vm_compute.
  - now vm_compute.
  - now vm_compute.
  - apply monotone_at_spec. intros d d' Hd.
    assert (H : forallb (fun d => forallb (fun d' =>
                  (d' <? d) ||
                  monotone_at RefLog.log
                    (OpenCL.host_args one_group gradient) d d')
                  (OpenCL.ids 50)) (OpenCL.ids 50) = true)
      by (vm_compute; reflexivity).
    change (OpenCL.maxDepth (OpenCL.host_args one_group gradient)) with 50
      in Hd.
    pose proof (forallb_ids _ 50 H d ltac:(lia)) as H1. cbv beta in H1.
    pose proof (forallb_ids _ 50 H1 d' ltac:(lia)) as H2. cbv beta in H2.
    destruct (Z.ltb_spec d' d); [lia|exact H2].
  - split; [|split]; vm_compute; (discriminate || reflexivity).
Defined.
